(** * Publication rankings for Zotero: matching, registry and overrides

    A shallow embedding of the plugin's title normaliser, its conference and
    journal matchers, the database registry and the manual-override store,
    followed by the properties proved about them.

    Modelling conventions.
    - A JavaScript string is a list of code units.  The model covers the
      code units U+0000..U+00FF, one [ascii] each; [toLowerCase], [\s], [\w],
      [\d], [\b] and [trim] act on that range as ECMAScript defines them.
    - A plain object used as a table ([coreRankings], [sjrRankings]) is the
      list of its (key, value) pairs in [for ... in] enumeration order.
    - A [Map] is the list of its entries in insertion order.
    - The quotient of two token counts compared with a decimal literal is an
      exact rational comparison: for counts below 2^49 the correctly rounded
      double quotient lies on the same side of the literal's double.
    - Calls to [Zotero.debug] and to the [debugLog] sink have no effect on the
      values returned and are left out. *)

From Stdlib Require Import Ascii String DecimalString.
From Stdlib Require Import List Bool Arith Lia ZArith QArith Permutation Sorted.
Import ListNotations.
Open Scope list_scope.
Open Scope nat_scope.

Set Implicit Arguments.
Set Warnings "-register-all".

(* ------------------------------------------------------------------ *)
(** ** JavaScript strings *)

Module JS.

Definition str := list ascii.

(** [chars "abc"] is the string literal ['abc']. *)
Definition chars (s : string) : str := list_ascii_of_string s.

Definition code (c : ascii) : nat := nat_of_ascii c.

Definition between (lo hi : nat) (c : ascii) : bool :=
  (lo <=? code c) && (code c <=? hi).

(** [\d] *)
Definition is_digit (c : ascii) : bool := between 48 57 c.
(** [[A-Z]] and [[a-z]] *)
Definition is_upper (c : ascii) : bool := between 65 90 c.
Definition is_lower (c : ascii) : bool := between 97 122 c.
Definition is_alpha (c : ascii) : bool := is_upper c || is_lower c.
(** [\w] is [[A-Za-z0-9_]]. *)
Definition is_word (c : ascii) : bool :=
  is_alpha c || is_digit c || (code c =? 95).
(** [\s], which is also what [trim] strips: TAB, LF, VT, FF, CR, SP, NBSP. *)
Definition is_space (c : ascii) : bool :=
  between 9 13 c || (code c =? 32) || (code c =? 160).

(** [String.prototype.toLowerCase] on one code unit: A-Z and the Latin-1
    capitals U+00C0..U+00DE (U+00D7 is the multiplication sign). *)
Definition toLowerChar (c : ascii) : ascii :=
  if is_upper c || (between 192 222 c && negb (code c =? 215))
  then ascii_of_nat (code c + 32) else c.

Definition toLowerCase (s : str) : str := map toLowerChar s.

Fixpoint str_eqb (a b : str) : bool :=
  match a, b with
  | [], [] => true
  | x :: a', y :: b' => Ascii.eqb x y && str_eqb a' b'
  | _, _ => false
  end.

(** [trimStart], [trimEnd] and [trim]. *)
Fixpoint trimStart (s : str) : str :=
  match s with
  | c :: s' => if is_space c then trimStart s' else s
  | [] => []
  end.

Definition trimEnd (s : str) : str := rev (trimStart (rev s)).

Definition trim (s : str) : str := trimEnd (trimStart s).

(** [s.split(sep)] for a one-character separator: never an empty array. *)
Fixpoint split (sep : ascii) (s : str) : list str :=
  match s with
  | [] => [[]]
  | c :: s' =>
      if Ascii.eqb c sep then [] :: split sep s'
      else match split sep s' with
           | w :: ws => (c :: w) :: ws
           | [] => [[c]]
           end
  end.

Fixpoint startsWith (p s : str) : bool :=
  match p, s with
  | [], _ => true
  | x :: p', y :: s' => Ascii.eqb x y && startsWith p' s'
  | _ :: _, [] => false
  end.

(** [hay.indexOf(needle) !== -1] *)
Fixpoint includes (hay needle : str) : bool :=
  startsWith needle hay ||
  match hay with
  | [] => false
  | _ :: hay' => includes hay' needle
  end.

(** [arr.indexOf(w) !== -1] on an array of strings. *)
Definition arrayIncludes (arr : list str) (w : str) : bool :=
  existsb (str_eqb w) arr.

(** What a call does: it returns, or it throws. *)
Inductive outcome (A : Type) : Type :=
| Returned (a : A)
| Thrown (e : string).
Arguments Returned {A} a.
Arguments Thrown {A} e.

Definition bind {A B} (x : outcome A) (f : A -> outcome B) : outcome B :=
  match x with
  | Returned a => f a
  | Thrown e => Thrown e
  end.

(** [arr[i]] followed by a property access or a method call: reading a
    property of [undefined] throws a TypeError. *)
Definition index {A} (arr : list A) (i : nat) : outcome A :=
  match nth_error arr i with
  | Some a => Returned a
  | None => Thrown "TypeError"
  end.

(** The value of [m / n] for two array lengths. *)
Inductive number : Type :=
| Fin (q : Q)
| PosInf
| NaN.

Definition div (m n : nat) : number :=
  match n with
  | O => match m with O => NaN | S _ => PosInf end
  | S _ => Fin (Z.of_nat m # Pos.of_nat n)
  end.

(** [x >= q] for a finite literal [q]; a comparison with NaN is false. *)
Definition ge (x : number) (q : Q) : bool :=
  match x with
  | Fin v => Qle_bool q v
  | PosInf => true
  | NaN => false
  end.

End JS.

(* ------------------------------------------------------------------ *)
(** ** Regular expressions

    The backtracking matcher of ECMAScript for the constructs the sources
    use.  [prev] is the code unit before the current position ([None] at
    the start of the input); the continuation receives the position after
    the part matched so far. *)

Module Regex.
Import JS.

Inductive regex : Type :=
| Chr (p : ascii -> bool)     (* one code unit of a class *)
| Eps
| Seq (r1 r2 : regex)
| Alt (r1 r2 : regex)         (* r1|r2, r1 tried first *)
| Star (r : regex)            (* r*, greedy *)
| Bol                         (* ^ *)
| Eol                         (* $ *)
| WordB.                      (* \b *)

Definition Opt (r : regex) : regex := Alt r Eps.        (* r? *)
Definition Plus (r : regex) : regex := Seq r (Star r).  (* r+ *)

(** A literal, and a literal under the [i] flag. *)
Definition Lit (s : string) : regex :=
  fold_right (fun c r => Seq (Chr (Ascii.eqb c)) r) Eps (chars s).

(** The letters of the patterns are ASCII; such a letter matches its two
    cases and no other code unit. *)
Definition icase (c : ascii) : ascii -> bool :=
  fun x => Ascii.eqb (toLowerChar x) (toLowerChar c).

Definition LitI (s : string) : regex :=
  fold_right (fun c r => Seq (Chr (icase c)) r) Eps (chars s).

Definition position : Type := option ascii * str.

Definition word_before (prev : option ascii) : bool :=
  match prev with Some c => is_word c | None => false end.

Definition word_after (s : str) : bool :=
  match s with c :: _ => is_word c | [] => false end.

Definition K : Type := option ascii -> str -> option position.

(** Greedy iteration of [step]; an iteration that consumes nothing is
    rejected, so [length s] rounds are enough. *)
Section Iterate.
Variable step : option ascii -> str -> K -> option position.
Variable k : K.

Fixpoint iterate (n : nat) (prev : option ascii) (s : str) : option position :=
  match n with
  | O => k prev s
  | S n' =>
      match step prev s
              (fun prev' s' =>
                 if length s' <? length s then iterate n' prev' s' else None)
      with
      | Some x => Some x
      | None => k prev s
      end
  end.

End Iterate.

Fixpoint run (r : regex) (prev : option ascii) (s : str) (k : K) {struct r}
  : option position :=
  match r with
  | Chr p =>
      match s with
      | c :: s' => if p c then k (Some c) s' else None
      | [] => None
      end
  | Eps => k prev s
  | Seq r1 r2 => run r1 prev s (fun prev' s' => run r2 prev' s' k)
  | Alt r1 r2 =>
      match run r1 prev s k with
      | Some x => Some x
      | None => run r2 prev s k
      end
  | Star r1 => iterate (run r1) k (length s) prev s
  | Bol => match prev with None => k prev s | Some _ => None end
  | Eol => match s with [] => k prev s | _ :: _ => None end
  | WordB => if xorb (word_before prev) (word_after s) then k prev s else None
  end.

(** A match of [r] that starts at the current position: where it ends. *)
Definition exec (r : regex) (prev : option ascii) (s : str) : option position :=
  run r prev s (fun prev' s' => Some (prev', s')).

(** [s.replace(/r/g, rep)]: scan from the left; after an empty match the
    next code unit is copied and the scan moves on by one. *)
Fixpoint replace_from (fuel : nat) (r : regex) (rep : str)
    (prev : option ascii) (s : str) : str :=
  match fuel with
  | O => s
  | S fuel' =>
      let step :=
        match s with
        | [] => []
        | c :: s' => c :: replace_from fuel' r rep (Some c) s'
        end in
      match exec r prev s with
      | Some (prev', rest) =>
          if length rest <? length s
          then rep ++ replace_from fuel' r rep prev' rest
          else rep ++ step
      | None => step
      end
  end.

Definition replace (r : regex) (rep : string) (s : str) : str :=
  replace_from (S (length s)) r (chars rep) None s.

(** [s.match(/r/)]: the text of the leftmost match. *)
Fixpoint search (r : regex) (prev : option ascii) (s : str) : option str :=
  match exec r prev s with
  | Some (_, rest) => Some (firstn (length s - length rest) s)
  | None =>
      match s with
      | [] => None
      | c :: s' => search r (Some c) s'
      end
  end.

End Regex.

(* ------------------------------------------------------------------ *)
(** ** matching.js *)

Module MatchingUtils.
Import JS Regex.

Definition amp : ascii := "&"%char.

(** [/\btelecomm?unications?\b/] *)
Definition re_telecom : regex :=
  Seq WordB (Seq (Lit "telecom") (Seq (Opt (Lit "m"))
    (Seq (Lit "unication") (Seq (Opt (Lit "s")) WordB)))).

(** [/[^\w\s]/] *)
Definition re_special : regex := Chr (fun c => negb (is_word c || is_space c)).

(** [/\s+/] *)
Definition re_spaces : regex := Plus (Chr is_space).

Definition normalizeString (s : str) : str :=
  trim
    (replace re_spaces " "
      (replace re_special " "
        (replace re_telecom "communications"
          (replace (Chr (Ascii.eqb amp)) "and"
            (toLowerCase s))))).

(** [/\(([A-Z][A-Z0-9&]+)\)/] *)
Definition re_acronym : regex :=
  Seq (Chr (Ascii.eqb "("%char))
    (Seq (Chr is_upper)
      (Seq (Plus (Chr (fun c => is_upper c || is_digit c || Ascii.eqb c amp)))
        (Chr (Ascii.eqb ")"%char)))).

(** [match ? match[1] : null].  The one group spans the whole match but
    its two parentheses. *)
Definition extractAcronym (title : str) : option str :=
  match search re_acronym None title with
  | Some m => Some (removelast (tl m))
  | None => None
  end.

Definition spaces1 : regex := Plus (Chr is_space).     (* \s+ *)
Definition digit : regex := Chr is_digit.               (* \d *)
(** [[A-Z]+] under the [i] flag *)
Definition letters1 : regex := Plus (Chr is_alpha).

(** [/^Proceedings of the\s+/gi] *)
Definition re_proceedings : regex :=
  Seq Bol (Seq (LitI "Proceedings of the") spaces1).

(** [/^[A-Z]+\s+\d{4}\s+-\s+/gi] *)
Definition re_code_year_prefix : regex :=
  Seq Bol (Seq letters1 (Seq spaces1
    (Seq digit (Seq digit (Seq digit (Seq digit
      (Seq spaces1 (Seq (Lit "-") spaces1)))))))).

(** [/\b\d{4}\b/g] *)
Definition re_year : regex :=
  Seq WordB (Seq digit (Seq digit (Seq digit (Seq digit WordB)))).

(** [/\b\d{1,2}(st|nd|rd|th)\s+(Annual\s+)?/gi] *)
Definition re_ordinal : regex :=
  Seq WordB (Seq digit (Seq (Opt digit)
    (Seq (Alt (LitI "st") (Alt (LitI "nd") (Alt (LitI "rd") (LitI "th"))))
      (Seq spaces1 (Opt (Seq (LitI "Annual") spaces1)))))).

(** [/\bAnnual\s+/gi] *)
Definition re_annual : regex := Seq WordB (Seq (LitI "Annual") spaces1).

(** [/\s+-\s+[A-Z]+\s+'?\d{2,4}\s*$/gi] *)
Definition re_trailing_code : regex :=
  Seq spaces1 (Seq (Lit "-") (Seq spaces1 (Seq letters1 (Seq spaces1
    (Seq (Opt (Lit "'"))
      (Seq digit (Seq digit (Seq (Opt (Seq digit (Opt digit)))
        (Seq (Star (Chr is_space)) Eol))))))))).

Definition cleanConferenceTitle (title : str) : str :=
  trim
    (replace re_spaces " "
      (replace re_trailing_code ""
        (replace re_annual ""
          (replace re_ordinal ""
            (replace re_year ""
              (replace re_code_year_prefix ""
                (replace re_proceedings "" title))))))).

(** [for (var title in table) { ... return ...; }]: the body is run on
    each pair in turn until one run returns or throws. *)
Fixpoint forIn {E R : Type} (body : str -> E -> outcome (option R))
    (table : list (str * E)) : outcome (option R) :=
  match table with
  | [] => Returned None
  | (title, e) :: table' =>
      match body title e with
      | Thrown x => Thrown x
      | Returned (Some r) => Returned (Some r)
      | Returned None => forIn body table'
      end
  end.

(** [s.split(' ').filter(function(w) { return w.length > 3; })] *)
Definition significantWords (s : str) : list str :=
  filter (fun w => 3 <? length w) (split " "%char s).

(** The counting loop: how many of [tableWords] occur in [searchWords]. *)
Fixpoint countMatches (searchWords tableWords : list str) : nat :=
  match tableWords with
  | [] => 0
  | w :: ws =>
      (if arrayIncludes searchWords w then 1 else 0) + countMatches searchWords ws
  end.

(** The test of strategy 4 of [matchCoreConference] on one table key; the
    quotient is only formed when the first conjunct holds. *)
Definition coreOverlapAccepts (zoteroWords : list str) (normalizedCore : str) : bool :=
  let coreWords := significantWords normalizedCore in
  let matchCount := countMatches zoteroWords coreWords in
  (4 <=? length coreWords)
    && ge (div matchCount (length coreWords)) (8 # 10).

Record CoreEntry : Type := { rank : str; acronym : option str }.

Definition CoreTable : Type := list (str * CoreEntry).

Section Conference.
Variable coreRankings : CoreTable.

(** Strategy 1: exact match of the normalised strings. *)
Definition coreExact (normalizedZotero : str) : outcome (option str) :=
  forIn (fun title e =>
    let normalizedCore := normalizeString title in
    if str_eqb normalizedCore normalizedZotero
    then Returned (Some (rank e)) else Returned None) coreRankings.

(** Strategy 2: the CORE title occurs in the Zotero title. *)
Definition coreSubstring (normalizedZotero : str) : outcome (option str) :=
  forIn (fun title e =>
    let normalizedCore := normalizeString title in
    if includes normalizedZotero normalizedCore && (20 <? length normalizedCore)
    then Returned (Some (rank e)) else Returned None) coreRankings.

(** Strategy 3: the Zotero title occurs in the CORE title. *)
Definition coreReverseSubstring (normalizedZotero : str) : outcome (option str) :=
  forIn (fun title e =>
    let normalizedCore := normalizeString title in
    if includes normalizedCore normalizedZotero && (20 <? length normalizedZotero)
    then Returned (Some (rank e)) else Returned None) coreRankings.

(** Strategy 4: word overlap. *)
Definition coreWordOverlap (normalizedZotero : str) : outcome (option str) :=
  let zoteroWords := significantWords normalizedZotero in
  forIn (fun title e =>
    let normalizedCore := normalizeString title in
    if coreOverlapAccepts zoteroWords normalizedCore
    then Returned (Some (rank e)) else Returned None) coreRankings.

(** The entries pushed on [acronymMatches]. *)
Definition acronymMatches (zoteroAcronym : str) : list (str * str * str) :=
  flat_map (fun te : str * CoreEntry =>
    let (title, e) := te in
    match acronym e with
    | Some a =>
        if str_eqb a zoteroAcronym
        then [(title, rank e, normalizeString title)] else []
    | None => []
    end) coreRankings.

(** Strategy 5: a unique entry with the title's acronym. *)
Definition coreAcronym (zoteroAcronym : option str) : outcome (option str) :=
  match zoteroAcronym with
  | Some a =>
      if negb (length a =? 0) && (4 <=? length a) then
        let found := acronymMatches a in
        if length found =? 1 then
          bind (index found 0) (fun m => Returned (Some (snd (fst m))))
        else Returned None
      else Returned None
  | None => Returned None
  end.

Definition matchCoreConference (zoteroTitle : str) : outcome (option str) :=
  let cleanedZotero := cleanConferenceTitle zoteroTitle in
  let normalizedZotero := normalizeString cleanedZotero in
  let zoteroAcronym := extractAcronym zoteroTitle in
  bind (coreExact normalizedZotero) (fun r1 =>
  match r1 with Some r => Returned (Some r) | None =>
  bind (coreSubstring normalizedZotero) (fun r2 =>
  match r2 with Some r => Returned (Some r) | None =>
  bind (coreReverseSubstring normalizedZotero) (fun r3 =>
  match r3 with Some r => Returned (Some r) | None =>
  bind (coreWordOverlap normalizedZotero) (fun r4 =>
  match r4 with Some r => Returned (Some r) | None =>
  coreAcronym zoteroAcronym
  end) end) end) end).

End Conference.

Record SjrEntry : Type := { quartile : str; sjr : str }.

Definition SjrTable : Type := list (str * SjrEntry).

(** [title.split(',')[0].trim()] *)
Definition beforeComma (title : str) : outcome str :=
  bind (index (split ","%char title) 0) (fun head => Returned (trim head)).

Section Journal.
Variable sjrRankings : SjrTable.

(** Strategy 1 of [matchSjrJournal]. *)
Definition sjrNormalizedExact (publicationTitle : str) : outcome (option SjrEntry) :=
  let normalized := normalizeString (toLowerCase publicationTitle) in
  forIn (fun title e =>
    let normalizedSJR := normalizeString title in
    if str_eqb normalizedSJR normalized
    then Returned (Some e) else Returned None) sjrRankings.

(** Strategy 2 of [matchSjrJournal]. *)
Definition sjrCleaned (cleaned : str) : outcome (option SjrEntry) :=
  forIn (fun title e =>
    bind (beforeComma title) (fun head =>
    let cleanedSJR := normalizeString head in
    if str_eqb cleanedSJR cleaned && (10 <? length cleaned)
    then Returned (Some e) else Returned None)) sjrRankings.

(** The test of strategy 3 of [matchSjrJournal] on one table key. *)
Definition sjrOverlapAccepts (words : list str) (cleanedSJR : str) : bool :=
  let sjrWords := significantWords cleanedSJR in
  let matchCount := countMatches words sjrWords in
  let sjrOverlap :=
    if 0 <? length sjrWords then div matchCount (length sjrWords)
    else Fin 0 in
  let searchOverlap :=
    if 0 <? length words then div matchCount (length words)
    else Fin 0 in
  (5 <=? length sjrWords) && ge sjrOverlap (85 # 100)
    && ge searchOverlap (85 # 100).

(** Strategy 3 of [matchSjrJournal]. *)
Definition sjrWordOverlap (cleaned : str) : outcome (option SjrEntry) :=
  let words := significantWords cleaned in
  forIn (fun title e =>
    bind (beforeComma title) (fun head =>
    let cleanedSJR := normalizeString head in
    if sjrOverlapAccepts words cleanedSJR
    then Returned (Some e) else Returned None)) sjrRankings.

Definition matchSjrJournal (publicationTitle : str) : outcome (option SjrEntry) :=
  bind (sjrNormalizedExact publicationTitle) (fun r1 =>
  match r1 with Some e => Returned (Some e) | None =>
  let cleaned := normalizeString (cleanConferenceTitle publicationTitle) in
  bind (sjrCleaned cleaned) (fun r2 =>
  match r2 with Some e => Returned (Some e) | None =>
  sjrWordOverlap cleaned
  end) end).

End Journal.

End MatchingUtils.

(* ------------------------------------------------------------------ *)
(** ** The SJR database plugin *)

Module SJRDatabase.
Import JS MatchingUtils.

(** [sjrData.quartile + " " + sjrData.sjr] *)
Definition ranking (sjrData : SjrEntry) : str :=
  quartile sjrData ++ chars " " ++ sjr sjrData.

(** [a || b] on values that are a string or [null]: the empty string is
    falsy as well. *)
Definition orElse (a : outcome (option str)) (b : outcome (option str))
  : outcome (option str) :=
  bind a (fun r =>
    match r with
    | Some (c :: s) => Returned (Some (c :: s))
    | Some [] | None => b
    end).

Section Plugin.
Variable sjrRankings : SjrTable.

Definition matchExact (title : str) : outcome (option str) :=
  let normalizedSearch := toLowerCase title in
  forIn (fun sjrTitle sjrData =>
    if str_eqb (toLowerCase sjrTitle) normalizedSearch
    then Returned (Some (ranking sjrData)) else Returned None) sjrRankings.

Definition matchFuzzy (title : str) : outcome (option str) :=
  let cleanedSearch := normalizeString (cleanConferenceTitle title) in
  forIn (fun sjrTitle sjrData =>
    bind (beforeComma sjrTitle) (fun head =>
    let cleanedSjr := normalizeString head in
    if str_eqb cleanedSjr cleanedSearch && (10 <? length cleanedSjr)
    then Returned (Some (ranking sjrData)) else Returned None)) sjrRankings.

(** The test of [matchWordOverlap] on one table key; both quotients are
    formed before the test. *)
Definition overlapAccepts (searchWords : list str) (sjrTitle : str) : bool :=
  let cleanedSjr := normalizeString sjrTitle in
  let sjrWords := significantWords cleanedSjr in
  let matchCount := countMatches searchWords sjrWords in
  let sjrOverlap := div matchCount (length sjrWords) in
  let searchOverlap := div matchCount (length searchWords) in
  (5 <=? length sjrWords) && ge sjrOverlap (85 # 100)
    && ge searchOverlap (80 # 100).

Definition matchWordOverlap (title : str) : outcome (option str) :=
  let cleanedSearch := normalizeString (cleanConferenceTitle title) in
  let searchWords := significantWords cleanedSearch in
  forIn (fun sjrTitle sjrData =>
    if overlapAccepts searchWords sjrTitle
    then Returned (Some (ranking sjrData)) else Returned None) sjrRankings.

(** Named [match] in the source. *)
Definition match_ (title : str) : outcome (option str) :=
  orElse (matchExact title) (orElse (matchFuzzy title) (matchWordOverlap title)).

End Plugin.

End SJRDatabase.

(* ------------------------------------------------------------------ *)
(** ** [Map] with string keys *)

Module JSMap.
Import JS.

Section Ops.
Variable V : Type.

(** Entries in insertion order; a key occurs once. *)
Definition t : Type := list (str * V).

Definition empty : t := [].

Fixpoint get (k : str) (m : t) : option V :=
  match m with
  | [] => None
  | (k', v) :: m' => if str_eqb k' k then Some v else get k m'
  end.

Definition has (k : str) (m : t) : bool :=
  match get k m with Some _ => true | None => false end.

(** [m.set(k, v)]: a present key keeps its place, a new one goes last. *)
Fixpoint set (k : str) (v : V) (m : t) : t :=
  match m with
  | [] => [(k, v)]
  | (k', v') :: m' =>
      if str_eqb k' k then (k', v) :: m' else (k', v') :: set k v m'
  end.

(** [m.delete(k)] *)
Definition delete (k : str) (m : t) : t :=
  filter (fun kv => negb (str_eqb (fst kv) k)) m.

Definition keys (m : t) : list str := map fst m.
Definition values (m : t) : list V := map snd m.
Definition size (m : t) : nat := length m.

(** [new Map(entries)] *)
Definition ofEntries (entries : list (str * V)) : t :=
  fold_left (fun m kv => set (fst kv) (snd kv) m) entries empty.

End Ops.

End JSMap.

(* ------------------------------------------------------------------ *)
(** ** The database registry *)

Module DatabaseRegistry.
Import JS.

(** [matcher(title, debugLog)]: a ranking string or [null]. *)
Definition Matcher : Type := str -> outcome (option str).

(** The argument of [register]; a missing property is [None], a missing
    or empty [id] or [name] is the empty string. *)
Record Config : Type := {
  cfg_id : str;
  cfg_name : str;
  cfg_prefKey : option str;
  cfg_priority : option Z;
  cfg_matcher : option Matcher
}.

Record Database : Type := {
  id : str;
  name : str;
  prefKey : option str;
  priority : Z;
  matcher : Matcher
}.

Definition Registry : Type := JSMap.t Database.

(** [config.prefKey || null] *)
Definition prefKeyOrNull (k : option str) : option str :=
  match k with
  | Some (c :: s) => Some (c :: s)
  | Some [] | None => None
  end.

(** [config.priority || 999] *)
Definition priorityOrDefault (p : option Z) : Z :=
  match p with
  | Some 0%Z | None => 999%Z
  | Some v => v
  end.

(** The object [register] stores for a configuration with matcher [f]. *)
Definition stored (config : Config) (f : Matcher) : Database :=
  {| id := cfg_id config;
     name := cfg_name config;
     prefKey := prefKeyOrNull (cfg_prefKey config);
     priority := priorityOrDefault (cfg_priority config);
     matcher := f |}.

Definition register (config : Config) (databases : Registry) : outcome Registry :=
  match cfg_id config, cfg_name config, cfg_matcher config with
  | _ :: _, _ :: _, Some f =>
      Returned (JSMap.set (cfg_id config) (stored config f) databases)
  | _, _, _ =>
      Thrown "Database registration requires id, name, and matcher"
  end.

(** [arr.sort(compare)]: the sort is stable, so for a comparator that
    orders by a key the result is the one stable arrangement. *)
Section Sort.
Variable A : Type.
Variable compare : A -> A -> Z.

Fixpoint insert (x : A) (l : list A) : list A :=
  match l with
  | [] => [x]
  | y :: l' => if (compare x y <=? 0)%Z then x :: y :: l' else y :: insert x l'
  end.

Definition sort (l : list A) : list A := fold_right insert [] l.

End Sort.

(** [function(a, b) { return a.priority - b.priority; }] *)
Definition byPriority (a b : Database) : Z := (priority a - priority b)%Z.

Section Enabled.
(** [getPref(key)], read as a condition. *)
Variable getPref : str -> bool.

Definition enabled (db : Database) : bool :=
  match prefKey db with
  | None => true
  | Some k => getPref k
  end.

Definition getEnabledDatabases (databases : Registry) : list Database :=
  sort byPriority (filter enabled (JSMap.values databases)).

Definition isEnabled (dbId : str) (databases : Registry) : bool :=
  match JSMap.get dbId databases with
  | None => false
  | Some db => enabled db
  end.

End Enabled.

Definition getDatabase (dbId : str) (databases : Registry) : option Database :=
  JSMap.get dbId databases.

Definition getAllIds (databases : Registry) : list str := JSMap.keys databases.

End DatabaseRegistry.

(* ------------------------------------------------------------------ *)
(** ** The registrations made by the two database plugins *)

Module Plugins.
Import JS DatabaseRegistry.

(** [COREDatabase.match] *)
Definition coreMatch (coreRankings : MatchingUtils.CoreTable) : Matcher :=
  fun title => MatchingUtils.matchCoreConference coreRankings title.

(** The call at the end of the SJR plugin. *)
Definition sjrConfig (sjrRankings : MatchingUtils.SjrTable) : Config :=
  {| cfg_id := chars "sjr";
     cfg_name := chars "SCImago Journal Rankings";
     cfg_prefKey := None;
     cfg_priority := Some 0%Z;
     cfg_matcher := Some (fun title => SJRDatabase.match_ sjrRankings title) |}.

(** The call at the end of the CORE plugin. *)
Definition coreConfig (coreRankings : MatchingUtils.CoreTable) : Config :=
  {| cfg_id := chars "core";
     cfg_name := chars "CORE Conference Rankings";
     cfg_prefKey := Some (chars "enableCORE");
     cfg_priority := Some 100%Z;
     cfg_matcher := Some (coreMatch coreRankings) |}.

End Plugins.

(* ------------------------------------------------------------------ *)
(** ** Manual overrides *)

Module ManualOverrides.
Import JS.

(** What [JSON.parse] returns. *)
Inductive json : Type :=
| JNull
| JBool (b : bool)
| JNumber (q : Q)
| JString (s : str)
| JArray (items : list json)
| JObject (props : list (str * json)).

Definition indexKey (i : nat) : str :=
  chars (NilEmpty.string_of_uint (Nat.to_uint i)).

Fixpoint indexed {A : Type} (i : nat) (l : list A) : list (str * A) :=
  match l with
  | [] => []
  | x :: l' => (indexKey i, x) :: indexed (S i) l'
  end.

(** [Object.entries(v)]; it throws on [null]. *)
Definition entries (v : json) : outcome (list (str * json)) :=
  match v with
  | JNull => Thrown "TypeError"
  | JBool _ | JNumber _ => Returned []
  | JString s => Returned (indexed 0 (map (fun c => JString [c]) s))
  | JArray items => Returned (indexed 0 items)
  | JObject props => Returned props
  end.

(** The module's state: the in-memory map and the stored value of the
    [manualOverrides] preference ([None] when it was never set). *)
Record State : Type := {
  overrides : JSMap.t json;
  stored : option str
}.

Definition normalizedTitle (publicationTitle : str) : str :=
  trim (toLowerCase publicationTitle).

Section Store.
(** [JSON.parse] and [JSON.stringify] of the host. *)
Variable parse : str -> outcome json.
Variable stringify : list (str * json) -> str.

(** The [try] block of [load]. *)
Definition load_try (st : State) : outcome State :=
  let data :=
    match stored st with
    | Some (c :: s) => c :: s
    | Some [] | None => chars "{}"
    end in
  let trimmedData := trim data in
  if (length trimmedData =? 0) || str_eqb trimmedData (chars "{}") then
    Returned {| overrides := JSMap.empty json; stored := stored st |}
  else
    bind (parse trimmedData) (fun parsed =>
    bind (entries parsed) (fun es =>
    Returned {| overrides := JSMap.ofEntries es; stored := stored st |})).

(** [load]: the [catch] block empties the map and stores ['{}']. *)
Definition load (st : State) : outcome State :=
  match load_try st with
  | Returned st' => Returned st'
  | Thrown _ =>
      Returned {| overrides := JSMap.empty json; stored := Some (chars "{}") |}
  end.

(** [save]: [Object.fromEntries] followed by [JSON.stringify]. *)
Definition save (st : State) : State :=
  {| overrides := overrides st; stored := Some (stringify (overrides st)) |}.

Definition set (publicationTitle ranking : str) (st : State) : State :=
  save {| overrides :=
            JSMap.set (normalizedTitle publicationTitle) (JString ranking)
              (overrides st);
          stored := stored st |}.

Definition remove (publicationTitle : str) (st : State) : State :=
  save {| overrides := JSMap.delete (normalizedTitle publicationTitle) (overrides st);
          stored := stored st |}.

Definition clearAll (st : State) : State :=
  save {| overrides := JSMap.empty json; stored := stored st |}.

End Store.

Definition get (publicationTitle : str) (st : State) : option json :=
  JSMap.get (normalizedTitle publicationTitle) (overrides st).

Definition has (publicationTitle : str) (st : State) : bool :=
  JSMap.has (normalizedTitle publicationTitle) (overrides st).

Definition count (st : State) : nat := JSMap.size (overrides st).

End ManualOverrides.

(** The older copy of the module, in [unnamed/part_001]: its [load] parses
    the stored value as it is and its [catch] block only empties the map. *)
Module LegacyOverrides.
Import JS ManualOverrides.

Section Store.
Variable parse : str -> outcome json.
(** What [Zotero.Prefs.get] returns for a preference that is not set: a
    text, or [undefined], which [JSON.parse] reads as the text
    ['undefined']. *)
Variable unset : option str.

(** The [try] block of [load]. *)
Definition load_try (st : State) : outcome State :=
  let data :=
    match stored st with
    | Some d => d
    | None => match unset with Some d => d | None => chars "undefined" end
    end in
  bind (parse data) (fun parsed =>
  bind (entries parsed) (fun es =>
  Returned {| overrides := JSMap.ofEntries es; stored := stored st |})).

Definition load (st : State) : outcome State :=
  match load_try st with
  | Returned st' => Returned st'
  | Thrown _ =>
      Returned {| overrides := JSMap.empty json; stored := stored st |}
  end.

End Store.

End LegacyOverrides.

(* ------------------------------------------------------------------ *)
(** ** Auxiliary definitions for the proofs

    None of these is code of the plugin: they describe what its passes
    compute. *)

Module NormalForm.
Import JS Regex MatchingUtils.

(** The code unit before the position reached after reading [w]. *)
Definition after (prev : option ascii) (w : str) : option ascii :=
  fold_left (fun _ c => Some c) w prev.

(** [replace_from] with the fuel [replace] gives it. *)
Definition scan (r : regex) (rep : str) (prev : option ascii) (s : str) : str :=
  replace_from (S (length s)) r rep prev s.

(** A string cut at its non-word code units: the leading run of word
    code units, then each separator with the run that follows it. *)
Fixpoint chunk (s : str) : str * list (ascii * str) :=
  match s with
  | [] => ([], [])
  | c :: s' =>
      let (t, l) := chunk s' in
      if is_word c then (c :: t, l) else ([], (c, t) :: l)
  end.

Fixpoint glue (l : list (ascii * str)) : str :=
  match l with
  | [] => []
  | (c, t) :: l' => c :: t ++ glue l'
  end.

(** The runs of word code units of [s], empty ones included. *)
Definition runs (s : str) : list str :=
  fst (chunk s) :: map snd (snd (chunk s)).

Definition nonempty (w : str) : bool := negb (length w =? 0).

(** The maximal non-empty runs of word code units. *)
Definition words (s : str) : list str := filter nonempty (runs s).

Definition telecomVariants : list str :=
  [chars "telecomunication"; chars "telecomunications";
   chars "telecommunication"; chars "telecommunications"].

Definition is_telecom (w : str) : bool := existsb (str_eqb w) telecomVariants.

Definition fixTelecom (w : str) : str :=
  if is_telecom w then chars "communications" else w.

(** Words joined by single spaces. *)
Fixpoint joinWords (ws : list str) : str :=
  match ws with
  | [] => []
  | w :: ws' =>
      match ws' with
      | [] => w
      | _ :: _ => w ++ " "%char :: joinWords ws'
      end
  end.

(** Runs of white space replaced by one space; [inSpace] tells that the
    code unit before belonged to such a run. *)
Fixpoint squeeze (inSpace : bool) (s : str) : str :=
  match s with
  | [] => []
  | c :: s' =>
      if is_space c
      then if inSpace then squeeze true s' else " "%char :: squeeze true s'
      else c :: squeeze false s'
  end.

(** The code units the normaliser can output besides the space. *)
Definition is_plain (c : ascii) : bool :=
  is_lower c || is_digit c || Ascii.eqb c "_"%char.

(** Strings of word code units, and separators with the runs after them. *)
Definition wordy (t : str) : Prop := Forall (fun c => is_word c = true) t.

Definition separated (l : list (ascii * str)) : Prop :=
  Forall (fun ct => is_word (fst ct) = false /\ wordy (snd ct)) l.

Definition spaced (l : list (ascii * str)) : Prop :=
  Forall (fun ct => is_space (fst ct) = true /\ wordy (snd ct)) l.

Definition mapRuns (f : ascii -> ascii) (g : str -> str)
    (l : list (ascii * str)) : list (ascii * str) :=
  map (fun ct => (f (fst ct), g (snd ct))) l.

(** What the pass for special characters does to one code unit. *)
Definition toSpace (c : ascii) : ascii :=
  if negb (is_word c || is_space c) then " "%char else c.

(** Non-empty runs of word code units. *)
Definition properWords (ws : list str) : Prop :=
  Forall (fun w => wordy w /\ w <> []) ws.

(** Non-empty words made of a-z, 0-9 and the underscore. *)
Definition plainWords (ws : list str) : Prop :=
  Forall (fun w => Forall (fun c => is_plain c = true) w /\ w <> []) ws.

Definition isnil (t : str) : bool :=
  match t with [] => true | _ :: _ => false end.

(** The continuation [exec] starts [run] with. *)
Definition accept : K := fun prev s => Some (prev, s).

(** The telecommunications pass of the normaliser from a position on. *)
Definition scanTelecom : option ascii -> str -> str :=
  scan re_telecom (chars "communications").

(** The input of the telecommunications pass: [&] replaced by [and] in
    the lower-cased string. *)
Definition prepared (s : str) : str :=
  replace (Chr (Ascii.eqb amp)) "and" (toLowerCase s).

(** Code units that are neither word code units nor the ampersand: white
    space and the punctuation the normaliser drops. *)
Definition is_mark (c : ascii) : bool := negb (is_word c) && negb (Ascii.eqb c amp).

(** [t] is what is left of [s] after a prefix. *)
Definition suffix (t s : str) : Prop := exists pre, s = pre ++ t.

End NormalForm.

(** For the statements about tables and the registry. *)
Module Tables.
Import JS MatchingUtils DatabaseRegistry.

(** The text a table key is compared by when it is cut at its first comma. *)
Definition commaTruncated (title : str) : str := trim (hd [] (split ","%char title)).

(** The fraction [m / n] of [n] tokens that are matched (0 when [n] is 0). *)
Definition ratio (m n : nat) : Q :=
  (inject_Z (Z.of_nat m) / inject_Z (Z.of_nat n))%Q.

(** The table entries whose stored acronym is [a]. *)
Definition hasAcronym (a : str) (te : str * CoreEntry) : bool :=
  match acronym (snd te) with
  | Some x => str_eqb x a
  | None => false
  end.

(** The first pair of a table that passes a test, as a loop over the table
    finds it. *)
Definition firstPair {E : Type} (test : str -> E -> bool) (table : list (str * E))
  : option (str * E) :=
  find (fun te => test (fst te) (snd te)) table.

(** The descriptors of priority [p], and lists in ascending priority. *)
Definition hasPriority (p : Z) (d : Database) : bool := (priority d =? p)%Z.

Definition ascending (l : list Database) : Prop :=
  StronglySorted (fun a b => (priority a <= priority b)%Z) l.

End Tables.

(* ------------------------------------------------------------------ *)
(** ** The user actions on overrides and rankings (ranking-actions.js)

    [RankingEngine] is no part of these sources: what the actions ask of
    it is taken as parameters.  The progress window, the alerts and the
    column cache do not change what is counted or stored; the alert an
    action ends with is its result. *)

Module RankingActions.
Import JS.

(** [if (v)] for a value read from the override map. *)
Definition truthy (v : ManualOverrides.json) : bool :=
  match v with
  | ManualOverrides.JNull => false
  | ManualOverrides.JBool b => b
  | ManualOverrides.JNumber q => negb (Qeq_bool q 0)
  | ManualOverrides.JString s => negb (length s =? 0)
  | ManualOverrides.JArray _ | ManualOverrides.JObject _ => true
  end.

(** [if (s)] for a string or [null]. *)
Definition truthyStr (o : option str) : bool :=
  match o with
  | Some (_ :: _) => true
  | Some [] | None => false
  end.

(** [set.add(x)] on a [Set] of strings, kept in insertion order. *)
Definition setAdd (x : str) (l : list str) : list str :=
  if existsb (str_eqb x) l then l else l ++ [x].

Section Actions.
Variable Item : Type.
(** [item.isRegularItem()] *)
Variable isRegularItem : Item -> bool.
(** [RankingEngine.extractPublicationTitle(item)] *)
Variable extractPublicationTitle : Item -> option str.
(** [RankingEngine.getRanking(item)] *)
Variable getRanking : Item -> option str.

(** The counters of [updateSelectedItems]. *)
Record Tally : Type := {
  found : nat;
  notFound : nat;
  skipped : nat;
  notFoundList : list str
}.

(** One round of its loop. *)
Definition tallyStep (t : Tally) (item : Item) : Tally :=
  if negb (isRegularItem item) then
    {| found := found t; notFound := notFound t; skipped := skipped t + 1;
       notFoundList := notFoundList t |}
  else
    match extractPublicationTitle item with
    | Some (c :: s) =>
        let publicationTitle := c :: s in
        if truthyStr (getRanking item) then
          {| found := found t + 1; notFound := notFound t; skipped := skipped t;
             notFoundList := notFoundList t |}
        else
          {| found := found t; notFound := notFound t + 1; skipped := skipped t;
             notFoundList := notFoundList t ++ [trim publicationTitle] |}
    | Some [] | None =>
        {| found := found t; notFound := notFound t; skipped := skipped t + 1;
           notFoundList := notFoundList t |}
    end.

(** [updateSelectedItems]: nothing is counted for an empty selection. *)
Definition updateSelectedItems (items : list Item) : option Tally :=
  match items with
  | [] => None
  | _ :: _ =>
      Some (fold_left tallyStep items
              {| found := 0; notFound := 0; skipped := 0; notFoundList := [] |})
  end.

(** [Math.min(10, notFoundList.length)] and the titles the message lists. *)
Definition displayCount (t : Tally) : nat := Nat.min 10 (length (notFoundList t)).

Definition displayedTitles (t : Tally) : list str :=
  firstn (displayCount t) (notFoundList t).

(** The loop that fills [publicationTitles]. *)
Definition collectTitle (titles : list str) (item : Item) : list str :=
  if negb (isRegularItem item) then titles
  else
    match extractPublicationTitle item with
    | Some (c :: s) => setAdd (trim (c :: s)) titles
    | Some [] | None => titles
    end.

Definition selectedTitles (items : list Item) : list str :=
  fold_left collectTitle items [].

(** How an action on overrides ends. *)
Inductive Dialog : Type :=
| NoItemsSelected
| NoPublicationTitles
| MultiplePublications (n : nat)
| ManualRankingSet (title ranking : str)
| NothingSet
| ManualRankingsCleared (cleared : nat)
| NoManualRankings.

Variable stringify : list (str * ManualOverrides.json) -> str.
(** [Services.prompt.prompt] for a title and a default: whether it was
    confirmed, and [input.value] afterwards. *)
Variable prompt : str -> ManualOverrides.json -> bool * str.

Definition setManualRankingDialog (items : list Item) (st : ManualOverrides.State)
  : Dialog * ManualOverrides.State :=
  match items with
  | [] => (NoItemsSelected, st)
  | _ :: _ =>
      match selectedTitles items with
      | [] => (NoPublicationTitles, st)
      | [publicationTitle] =>
          let existingOverride := ManualOverrides.get publicationTitle st in
          let defaultValue :=
            match existingOverride with
            | Some v => if truthy v then v else ManualOverrides.JString []
            | None => ManualOverrides.JString []
            end in
          let (result, value) := prompt publicationTitle defaultValue in
          if result && negb (length value =? 0) then
            let ranking := trim value in
            (ManualRankingSet publicationTitle ranking,
             ManualOverrides.set stringify publicationTitle ranking st)
          else (NothingSet, st)
      | publicationTitles => (MultiplePublications (length publicationTitles), st)
      end
  end.

(** One round of the loop over the titles in [clearManualRankingForSelected]. *)
Definition clearStep (acc : ManualOverrides.State * nat) (title : str)
  : ManualOverrides.State * nat :=
  match ManualOverrides.get title (fst acc) with
  | Some v =>
      if truthy v
      then (ManualOverrides.remove stringify title (fst acc), snd acc + 1)
      else acc
  | None => acc
  end.

Definition clearManualRankingForSelected (items : list Item)
    (st : ManualOverrides.State) : Dialog * ManualOverrides.State :=
  match items with
  | [] => (NoItemsSelected, st)
  | _ :: _ =>
      let (st', cleared) := fold_left clearStep (selectedTitles items) (st, 0) in
      if 0 <? cleared then (ManualRankingsCleared cleared, st')
      else (NoManualRankings, st')
  end.

End Actions.

End RankingActions.

(* ------------------------------------------------------------------ *)
(** ** More auxiliary definitions *)

Module Invariants.
Import JS.

(** A [Map] holds each key once. *)
Definition uniqueKeys {V : Type} (m : JSMap.t V) : Prop := NoDup (JSMap.keys m).

(** What every entry of the registry satisfies once it went through
    [register]. *)
Definition registered (kd : str * DatabaseRegistry.Database) : Prop :=
  DatabaseRegistry.id (snd kd) = fst kd /\
  fst kd <> [] /\
  DatabaseRegistry.name (snd kd) <> [] /\
  DatabaseRegistry.priority (snd kd) <> 0%Z /\
  DatabaseRegistry.prefKey (snd kd) <> Some [].

Definition registryOk (databases : DatabaseRegistry.Registry) : Prop :=
  uniqueKeys databases /\ Forall registered databases.

(** The class [[A-Z0-9&]] of the acronym pattern, and the texts its group
    matches. *)
Definition acronymChar (c : ascii) : bool :=
  is_upper c || is_digit c || Ascii.eqb c MatchingUtils.amp.

Definition isAcronym (a : str) : bool :=
  match a with
  | u :: c :: rest => is_upper u && forallb acronymChar (c :: rest)
  | _ => false
  end.

Definition isComma (c : ascii) : bool := Ascii.eqb c ","%char.

Definition isParen (c : ascii) : bool := Ascii.eqb c "("%char.

(** The items [updateSelectedItems] looks a ranking up for, those it finds
    one for, and the title of an item. *)
Definition titled {Item : Type} (isRegularItem : Item -> bool)
    (extractPublicationTitle : Item -> option str) (item : Item) : bool :=
  isRegularItem item && RankingActions.truthyStr (extractPublicationTitle item).

Definition ranked {Item : Type} (getRanking : Item -> option str) (item : Item) : bool :=
  RankingActions.truthyStr (getRanking item).

Definition titleOf {Item : Type} (extractPublicationTitle : Item -> option str)
    (item : Item) : str :=
  match extractPublicationTitle item with Some s => s | None => [] end.

(** [existingOverride || ''], the value the prompt of
    [setManualRankingDialog] opens with. *)
Definition defaultRanking (title : str) (st : ManualOverrides.State)
  : ManualOverrides.json :=
  match ManualOverrides.get title st with
  | Some v => if RankingActions.truthy v then v else ManualOverrides.JString []
  | None => ManualOverrides.JString []
  end.

(** [if (ManualOverrides.get(title))] *)
Definition stillSet (title : str) (st : ManualOverrides.State) : bool :=
  match ManualOverrides.get title st with
  | Some v => RankingActions.truthy v
  | None => false
  end.

End Invariants.

(** Facts about single code units are settled by running through the
    256 of them. *)
Ltac by_cases_on_ascii c :=
  destruct c as [[|] [|] [|] [|] [|] [|] [|] [|]];
  vm_compute; solve [reflexivity | discriminate | auto | intros; discriminate].

(* ================================================================== *)
(** * Properties *)

Import JS Regex.
Unset Implicit Arguments.

(** ** Code units *)

Lemma toLowerChar_idem c : toLowerChar (toLowerChar c) = toLowerChar c.
Proof. by_cases_on_ascii c. Qed.

Lemma toLowerChar_not_upper c : is_upper (toLowerChar c) = false.
Proof. by_cases_on_ascii c. Qed.

Lemma word_not_space c : is_word c = true -> is_space c = false.
Proof. by_cases_on_ascii c. Qed.

Lemma word_lower_plain c :
  is_word c = true -> is_upper c = false -> NormalForm.is_plain c = true.
Proof. by_cases_on_ascii c. Qed.

Lemma plain_word c : NormalForm.is_plain c = true -> is_word c = true.
Proof. by_cases_on_ascii c. Qed.

Lemma plain_lower_fixed c : NormalForm.is_plain c = true -> toLowerChar c = c.
Proof. by_cases_on_ascii c. Qed.

Lemma plain_not_upper c : NormalForm.is_plain c = true -> is_upper c = false.
Proof. by_cases_on_ascii c. Qed.

Lemma str_eqb_eq a b : str_eqb a b = true <-> a = b.
Proof.
  revert b; induction a as [|x a IH]; intros [|y b]; simpl;
    try (split; [discriminate | discriminate]); try tauto.
  rewrite andb_true_iff, Ascii.eqb_eq, IH.
  split; [intros [-> ->]; reflexivity | intros H; inversion H; auto].
Qed.

Lemma str_eqb_refl a : str_eqb a a = true.
Proof. apply str_eqb_eq; reflexivity. Qed.

Lemma str_eqb_neq a b : str_eqb a b = false <-> a <> b.
Proof.
  split.
  - intros H E. apply str_eqb_eq in E. congruence.
  - intros H. destruct (str_eqb a b) eqn:E; auto.
    apply str_eqb_eq in E. contradiction.
Qed.

Lemma toLowerCase_idem s : toLowerCase (toLowerCase s) = toLowerCase s.
Proof.
  unfold toLowerCase. rewrite map_map. apply map_ext. apply toLowerChar_idem.
Qed.

(** ** Global replacement *)

Section Scan.
Import NormalForm.
Variable r : regex.
Variable rep : str.

Lemma replace_from_fuel n1 : forall n2 prev s,
  length s < n1 -> length s < n2 ->
  replace_from n1 r rep prev s = replace_from n2 r rep prev s.
Proof.
  induction n1 as [|n1 IH]; intros n2 prev s H1 H2; [lia|].
  destruct n2 as [|n2]; [lia|].
  simpl. destruct (exec r prev s) as [[prev' rest]|].
  - destruct (length rest <? length s) eqn:E.
    + apply Nat.ltb_lt in E. f_equal. apply IH; lia.
    + f_equal. destruct s as [|c s']; [reflexivity|].
      f_equal. simpl in *. apply IH; lia.
  - destruct s as [|c s']; [reflexivity|].
    f_equal. simpl in *. apply IH; lia.
Qed.

Lemma scan_nil_none prev : exec r prev [] = None -> scan r rep prev [] = [].
Proof. unfold scan; simpl. intros ->. reflexivity. Qed.

Lemma scan_cons_none prev c s :
  exec r prev (c :: s) = None ->
  scan r rep prev (c :: s) = c :: scan r rep (Some c) s.
Proof.
  intros H. unfold scan at 1. cbn [length replace_from]. rewrite H. reflexivity.
Qed.

Lemma scan_match prev s prev' rest :
  exec r prev s = Some (prev', rest) -> length rest < length s ->
  scan r rep prev s = rep ++ scan r rep prev' rest.
Proof.
  intros H L. unfold scan at 1. cbn [replace_from]. rewrite H.
  apply Nat.ltb_lt in L as L'. rewrite L'. f_equal.
  unfold scan. apply replace_from_fuel; lia.
Qed.

End Scan.

Lemma scan_chr p rep : forall prev s,
  NormalForm.scan (Chr p) rep prev s = flat_map (fun c => if p c then rep else [c]) s.
Proof.
  intros prev s; revert prev. induction s as [|c s IH]; intros prev.
  - apply scan_nil_none. reflexivity.
  - cbn [flat_map]. destruct (p c) eqn:E.
    + rewrite scan_match with (prev' := Some c) (rest := s).
      * rewrite IH. reflexivity.
      * unfold exec; simpl. rewrite E. reflexivity.
      * simpl; lia.
    + rewrite scan_cons_none.
      * rewrite IH. reflexivity.
      * unfold exec; simpl. rewrite E. reflexivity.
Qed.

(** ** White space runs *)

Lemma trimStart_length s : length (trimStart s) <= length s.
Proof.
  induction s as [|c s IH]; simpl; [lia|].
  destruct (is_space c); simpl; lia.
Qed.

Lemma iterate_spaces : forall n prev s,
  length s <= n ->
  exists prev', iterate (run (Chr is_space)) NormalForm.accept n prev s = Some (prev', trimStart s).
Proof.
  induction n as [|n IH]; intros prev s L.
  - destruct s; [|simpl in L; lia]. exists prev. reflexivity.
  - destruct s as [|c s].
    + exists prev. reflexivity.
    + cbn [iterate run trimStart]. destruct (is_space c) eqn:E.
      * assert (Hlt : (length s <? length (c :: s)) = true)
          by (apply Nat.ltb_lt; simpl; lia).
        rewrite Hlt. simpl in L.
        destruct (IH (Some c) s ltac:(lia)) as [p' Hp'].
        cbn [run] in Hp'. rewrite Hp'. exists p'. reflexivity.
      * exists prev. reflexivity.
Qed.

Lemma exec_spaces_nil prev : exec MatchingUtils.re_spaces prev [] = None.
Proof. reflexivity. Qed.

Lemma exec_spaces_cons prev c s :
  exists prev',
    exec MatchingUtils.re_spaces prev (c :: s) =
    if is_space c then Some (prev', trimStart s) else None.
Proof.
  unfold exec, MatchingUtils.re_spaces, Plus. cbn [run].
  destruct (is_space c).
  - destruct (iterate_spaces (length s) (Some c) s (le_n _)) as [p' H].
    exists p'. exact H.
  - exists prev. reflexivity.
Qed.

Lemma squeeze_true_trimStart s :
  NormalForm.squeeze true s = NormalForm.squeeze false (trimStart s).
Proof.
  induction s as [|c s IH]; [reflexivity|].
  simpl. destruct (is_space c) eqn:E; [exact IH|].
  simpl. rewrite E. reflexivity.
Qed.

Lemma scan_spaces : forall n prev s, length s <= n ->
  NormalForm.scan MatchingUtils.re_spaces [" "%char] prev s = NormalForm.squeeze false s.
Proof.
  induction n as [|n IH]; intros prev s L.
  - destruct s; [|simpl in L; lia]. apply scan_nil_none. reflexivity.
  - destruct s as [|c s]; [apply scan_nil_none; reflexivity|].
    simpl in L. destruct (exec_spaces_cons prev c s) as [p' H].
    cbn [NormalForm.squeeze]. destruct (is_space c) eqn:E.
    + rewrite (scan_match _ _ _ _ _ _ H).
      * pose proof (trimStart_length s).
        rewrite IH by lia. rewrite squeeze_true_trimStart. reflexivity.
      * pose proof (trimStart_length s). simpl; lia.
    + rewrite scan_cons_none by exact H. rewrite IH by lia. reflexivity.
Qed.

Lemma replace_spaces s :
  replace MatchingUtils.re_spaces " " s = NormalForm.squeeze false s.
Proof. apply (scan_spaces (length s) None s (le_n _)). Qed.

Lemma replace_chr p rep s :
  replace (Chr p) rep s = flat_map (fun c => if p c then chars rep else [c]) s.
Proof. apply scan_chr. Qed.

(** ** Literals *)

Lemma run_literal (w : str) : forall prev s (k : K),
  run (fold_right (fun c r => Seq (Chr (Ascii.eqb c)) r) Eps w) prev s k =
  if startsWith w s then k (NormalForm.after prev w) (skipn (length w) s) else None.
Proof.
  induction w as [|a w IH]; intros prev s k.
  - reflexivity.
  - cbn [fold_right run]. destruct s as [|c s]; [reflexivity|].
    cbn [startsWith length skipn]. destruct (Ascii.eqb a c) eqn:E.
    + apply Ascii.eqb_eq in E; subst c. rewrite IH. reflexivity.
    + reflexivity.
Qed.

Lemma startsWith_split w : forall s,
  startsWith w s = true -> s = w ++ skipn (length w) s.
Proof.
  induction w as [|a w IH]; intros s H; [reflexivity|].
  destruct s as [|c s]; [discriminate|].
  simpl in H. apply andb_true_iff in H as [E H].
  apply Ascii.eqb_eq in E; subst c. simpl. f_equal. apply IH, H.
Qed.

Lemma startsWith_app w s : startsWith w (w ++ s) = true.
Proof.
  induction w as [|a w IH]; [reflexivity|].
  simpl. rewrite Ascii.eqb_refl. exact IH.
Qed.

(** ** The telecommunications pattern *)

Section Telecom.
Import NormalForm MatchingUtils.

(** Where the pattern has matched, the text is one of the four spellings
    between two word boundaries. *)
Lemma exec_telecom_sound prev s prev' rest :
  exec re_telecom prev s = Some (prev', rest) ->
  exists v, In v telecomVariants /\ s = v ++ rest /\
            word_after rest = false /\ word_before prev = false /\
            prev' = after prev v.
Proof.
  unfold exec, re_telecom, Opt, Lit. cbn [run].
  destruct (xorb (word_before prev) (word_after s)) eqn:B; [|discriminate].
  rewrite run_literal.
  destruct (startsWith (chars "telecom") s) eqn:H1; [|discriminate].
  apply startsWith_split in H1. remember (skipn (length (chars "telecom")) s) as s1.
  assert (Wb : word_before prev = false).
  { rewrite H1 in B. simpl in B. destruct (word_before prev); [discriminate|reflexivity]. }
  assert (Tail : forall p s2 p' r,
     run (fold_right (fun c r => Seq (Chr (Ascii.eqb c)) r) Eps (chars "unication")) p s2
       (fun prev'0 s' =>
          match run (fold_right (fun c r => Seq (Chr (Ascii.eqb c)) r) Eps (chars "s"))
                  prev'0 s'
                  (fun prev'1 s'0 =>
                     if xorb (word_before prev'1) (word_after s'0)
                     then Some (prev'1, s'0) else None)
          with
          | Some x => Some x
          | None =>
              if xorb (word_before prev'0) (word_after s')
              then Some (prev'0, s') else None
          end) = Some (p', r) ->
     (s2 = chars "unication" ++ r /\ p' = Some "n"%char \/
      s2 = chars "unications" ++ r /\ p' = Some "s"%char) /\ word_after r = false).
  { intros p s2 p' r. rewrite run_literal.
    destruct (startsWith (chars "unication") s2) eqn:H2; [|discriminate].
    apply startsWith_split in H2. remember (skipn (length (chars "unication")) s2) as s3.
    rewrite run_literal.
    destruct (startsWith (chars "s") s3) eqn:H3.
    - apply startsWith_split in H3. remember (skipn (length (chars "s")) s3) as s4.
      cbn [after fold_left chars list_ascii_of_string].
      cbn [word_before].
      destruct (xorb (is_word "s") (word_after s4)) eqn:B4.
      + intros Q; inversion Q; subst p' r. split.
        * right. split; [|reflexivity]. rewrite H2, H3. reflexivity.
        * destruct (word_after s4); [discriminate|reflexivity].
      + (* after the pattern's [s] there is a word code unit: no match *)
        rewrite H3. cbn [app word_after].
        change (is_word "s") with true. cbn [xorb negb]. discriminate.
    - cbn [after fold_left chars list_ascii_of_string word_before].
      destruct (xorb (is_word "n") (word_after s3)) eqn:B3; [|discriminate].
      intros Q; inversion Q; subst p' r. split.
      + left. split; [exact H2|reflexivity].
      + destruct (word_after s3); [discriminate|reflexivity]. }
  rewrite run_literal.
  destruct (startsWith (chars "m") s1) eqn:H2.
  - apply startsWith_split in H2. remember (skipn (length (chars "m")) s1) as s2.
    match goal with
    | |- match ?X with _ => _ end = _ -> _ => destruct X as [[q1 q2]|] eqn:R1
    end.
    + intros Q; inversion Q; subst q1 q2.
      apply Tail in R1 as [[[E P]|[E P]] Wa].
      * exists (chars "telecommunication").
        split; [simpl; tauto|]. split; [rewrite H1, H2, E; reflexivity|].
        split; [exact Wa|]. split; [exact Wb|]. rewrite P; reflexivity.
      * exists (chars "telecommunications").
        split; [simpl; tauto|]. split; [rewrite H1, H2, E; reflexivity|].
        split; [exact Wa|]. split; [exact Wb|]. rewrite P; reflexivity.
    + (* [unication] cannot start with [m] *)
      rewrite run_literal. rewrite H2. discriminate.
  - intros R1. apply Tail in R1 as [[[E P]|[E P]] Wa].
    + exists (chars "telecomunication").
      split; [simpl; tauto|]. split; [rewrite H1, E; reflexivity|].
      split; [exact Wa|]. split; [exact Wb|]. rewrite P; reflexivity.
    + exists (chars "telecomunications").
      split; [simpl; tauto|]. split; [rewrite H1, E; reflexivity|].
      split; [exact Wa|]. split; [exact Wb|]. rewrite P; reflexivity.
Qed.

Lemma not_word_after_nonword rest c :
  word_after rest = false -> is_word c = true -> startsWith [c] rest = false.
Proof.
  destruct rest as [|d rest]; [reflexivity|].
  simpl. intros W C. destruct (Ascii.eqb c d) eqn:E; [|reflexivity].
  apply Ascii.eqb_eq in E; subst d. congruence.
Qed.

Lemma exec_telecom_complete prev v rest :
  In v telecomVariants -> word_before prev = false -> word_after rest = false ->
  exec re_telecom prev (v ++ rest) = Some (after prev v, rest).
Proof.
  intros V Wb Wa.
  pose proof (not_word_after_nonword rest "s"%char Wa eq_refl) as Ns.
  assert (End_ : forall p, word_before p = true ->
            (if xorb (word_before p) (word_after rest) then Some (p, rest) else None)
            = Some (p, rest)).
  { intros p Hp. rewrite Hp, Wa. reflexivity. }
  unfold exec, re_telecom, Opt, Lit. cbn [run].
  simpl in V.
  destruct V as [<-|[<-|[<-|[<-|[]]]]];
    (replace (xorb (word_before prev) _) with true
       by (rewrite Wb; reflexivity));
    repeat (rewrite run_literal;
            cbn [chars list_ascii_of_string app length skipn after fold_left];
            rewrite ?Ns;
            cbn [startsWith Ascii.eqb Bool.eqb andb]);
    rewrite ?End_ by reflexivity; reflexivity.
Qed.

Lemma exec_telecom_nil prev : exec re_telecom prev [] = None.
Proof.
  destruct (exec re_telecom prev []) as [[p r]|] eqn:E; [|reflexivity].
  apply exec_telecom_sound in E as (v & V & S & _).
  simpl in V. destruct V as [<-|[<-|[<-|[<-|[]]]]]; discriminate.
Qed.

Lemma exec_telecom_nonword prev c s :
  is_word c = false -> exec re_telecom prev (c :: s) = None.
Proof.
  intros C.
  destruct (exec re_telecom prev (c :: s)) as [[p r]|] eqn:E; [|reflexivity].
  apply exec_telecom_sound in E as (v & V & S & _).
  simpl in V.
  destruct V as [<-|[<-|[<-|[<-|[]]]]]; inversion S; subst c; discriminate.
Qed.

Lemma exec_telecom_inside prev c s :
  word_before prev = true -> exec re_telecom prev (c :: s) = None.
Proof.
  intros Wb.
  destruct (exec re_telecom prev (c :: s)) as [[p r]|] eqn:E; [|reflexivity].
  apply exec_telecom_sound in E as (v & _ & _ & _ & Wb' & _). congruence.
Qed.

(** The leading run of word code units of a string is determined. *)
Lemma word_prefix_unique a : forall b x y,
  Forall (fun c => is_word c = true) a -> Forall (fun c => is_word c = true) b ->
  word_after x = false -> word_after y = false ->
  a ++ x = b ++ y -> a = b /\ x = y.
Proof.
  induction a as [|c a IH]; intros b x y Fa Fb Wx Wy E.
  - destruct b as [|d b]; [auto|].
    simpl in E. subst x. inversion Fb; subst. simpl in Wx. congruence.
  - destruct b as [|d b].
    + simpl in E. subst y. inversion Fa; subst. simpl in Wy. congruence.
    + simpl in E. inversion E; subst d. inversion Fa; inversion Fb; subst.
      destruct (IH b x y) as [-> ->]; auto.
Qed.

Lemma telecom_variant_word v :
  In v telecomVariants -> Forall (fun c => is_word c = true) v.
Proof.
  simpl. intros [<-|[<-|[<-|[<-|[]]]]]; repeat constructor.
Qed.

Lemma is_telecom_In w : is_telecom w = true <-> In w telecomVariants.
Proof.
  unfold is_telecom. rewrite existsb_exists. split.
  - intros (v & V & E). apply str_eqb_eq in E. subst; exact V.
  - intros V. exists w. split; [exact V|apply str_eqb_refl].
Qed.

Lemma scan_inside_word w : forall prev rest,
  word_before prev = true -> Forall (fun c => is_word c = true) w ->
  scanTelecom prev (w ++ rest) = w ++ scanTelecom (after prev w) rest.
Proof.
  induction w as [|c w IH]; intros prev rest Wb F; [reflexivity|].
  inversion F; subst. cbn [app]. unfold scanTelecom in *.
  rewrite scan_cons_none by (apply exec_telecom_inside; exact Wb).
  rewrite IH by auto. reflexivity.
Qed.

Lemma scan_separator prev c s :
  is_word c = false -> scanTelecom prev (c :: s) = c :: scanTelecom (Some c) s.
Proof.
  intros C. unfold scanTelecom. apply scan_cons_none.
  apply exec_telecom_nonword; exact C.
Qed.

Lemma scan_word prev w rest :
  w <> [] -> Forall (fun c => is_word c = true) w ->
  word_before prev = false -> word_after rest = false ->
  scanTelecom prev (w ++ rest) = fixTelecom w ++ scanTelecom (after prev w) rest.
Proof.
  intros Ne F Wb Wa. unfold fixTelecom.
  pose proof scan_inside_word as Inside. unfold scanTelecom in *.
  destruct (is_telecom w) eqn:T.
  - apply is_telecom_In in T.
    apply scan_match.
    + apply exec_telecom_complete; auto.
    + rewrite length_app. destruct w; [contradiction|simpl; lia].
  - destruct (exec re_telecom prev (w ++ rest)) as [[p r]|] eqn:E.
    + apply exec_telecom_sound in E as (v & V & S & Wr & _ & _).
      destruct (word_prefix_unique w v rest r) as [-> _]; auto.
      * apply telecom_variant_word; exact V.
      * apply is_telecom_In in V. congruence.
    + destruct w as [|c w]; [contradiction|].
      inversion F; subst. cbn [app] in *.
      rewrite scan_cons_none by exact E.
      rewrite Inside by auto. reflexivity.
Qed.

(** The telecommunications pass rewrites each run of word code units on
    its own and keeps the separators. *)
Lemma scan_glue l : forall t0 prev,
  wordy t0 -> separated l -> (t0 <> [] -> word_before prev = false) ->
  scanTelecom prev (t0 ++ glue l) = fixTelecom t0 ++ glue (mapRuns id fixTelecom l).
Proof.
  induction l as [|[c t1] l IH]; intros t0 prev W S B.
  - cbn [glue mapRuns map]. rewrite !app_nil_r.
    destruct t0 as [|a t0].
    + unfold scanTelecom. apply scan_nil_none. apply exec_telecom_nil.
    + rewrite <- (app_nil_r (a :: t0)) at 1.
      rewrite scan_word;
        [|discriminate|exact W|apply B; discriminate|reflexivity].
      unfold scanTelecom. rewrite scan_nil_none by apply exec_telecom_nil.
      apply app_nil_r.
  - inversion S as [|x y [Sc St] S']; subst. cbn [fst snd] in *.
    cbn [glue mapRuns map fst snd id].
    assert (Step : forall p,
      scanTelecom p (c :: t1 ++ glue l) =
      c :: fixTelecom t1 ++ glue (mapRuns id fixTelecom l)).
    { intros p. rewrite scan_separator by exact Sc. f_equal.
      apply IH; [exact St|exact S'|intros _; exact Sc]. }
    destruct t0 as [|a t0].
    + cbn [app]. rewrite Step. reflexivity.
    + rewrite scan_word;
        [|discriminate|exact W|apply B; discriminate|simpl; exact Sc].
      rewrite Step. reflexivity.
Qed.

End Telecom.

(** ** Runs of word code units *)

Section Runs.
Import NormalForm MatchingUtils.

Lemma chunk_glue s : fst (chunk s) ++ glue (snd (chunk s)) = s.
Proof.
  induction s as [|c s IH]; [reflexivity|].
  cbn [chunk]. destruct (chunk s) as [t l]. cbn [fst snd] in IH.
  destruct (is_word c); cbn [fst snd glue app]; rewrite IH; reflexivity.
Qed.

Lemma chunk_wf s : wordy (fst (chunk s)) /\ separated (snd (chunk s)).
Proof.
  induction s as [|c s [IH1 IH2]]; [split; constructor|].
  cbn [chunk]. destruct (chunk s) as [t l]. cbn [fst snd] in *.
  destruct (is_word c) eqn:E; cbn [fst snd]; split; auto.
  - constructor; auto.
  - constructor.
  - constructor; auto.
Qed.

Lemma replace_telecom s :
  replace re_telecom "communications" s =
  fixTelecom (fst (chunk s)) ++ glue (mapRuns id fixTelecom (snd (chunk s))).
Proof.
  destruct (chunk_wf s) as [W Sp].
  unfold replace.
  change (replace_from (S (length s)) re_telecom (chars "communications") None s)
    with (scanTelecom None s).
  rewrite <- (chunk_glue s) at 1.
  apply scan_glue; auto.
Qed.

Lemma fixTelecom_wordy w : wordy w -> wordy (fixTelecom w).
Proof.
  unfold fixTelecom. destruct (is_telecom w); auto.
  intros _. repeat constructor.
Qed.

Lemma fixTelecom_nonempty w : nonempty (fixTelecom w) = nonempty w.
Proof.
  unfold fixTelecom. destruct (is_telecom w) eqn:T; [|reflexivity].
  apply is_telecom_In in T. simpl in T.
  destruct T as [<-|[<-|[<-|[<-|[]]]]]; reflexivity.
Qed.

Lemma fixTelecom_idem w : fixTelecom (fixTelecom w) = fixTelecom w.
Proof.
  unfold fixTelecom. destruct (is_telecom w) eqn:T.
  - reflexivity.
  - rewrite T. reflexivity.
Qed.

Lemma separated_mapRuns_fix l : separated l -> separated (mapRuns id fixTelecom l).
Proof.
  unfold separated, mapRuns. intros S. apply Forall_map.
  eapply Forall_impl; [|exact S]. intros [c t] [A B]. cbn [fst snd id] in *.
  split; [exact A|apply fixTelecom_wordy; exact B].
Qed.

(** The pass for special characters turns every separator into white
    space and leaves the runs alone. *)
Lemma replace_special s : replace re_special " " s = map toSpace s.
Proof.
  unfold re_special. rewrite replace_chr.
  induction s as [|c s IH]; [reflexivity|].
  cbn [flat_map map]. rewrite IH. unfold toSpace.
  destruct (negb (is_word c || is_space c)); reflexivity.
Qed.

Lemma toSpace_wordy t : wordy t -> map toSpace t = t.
Proof.
  induction 1 as [|c t C _ IH]; [reflexivity|].
  cbn [map]. rewrite IH. unfold toSpace. rewrite C. reflexivity.
Qed.

Lemma toSpace_glue l : forall t0,
  wordy t0 -> separated l ->
  map toSpace (t0 ++ glue l) = t0 ++ glue (mapRuns toSpace id l).
Proof.
  induction l as [|[c t1] l IH]; intros t0 W S.
  - cbn [glue mapRuns map]. rewrite !app_nil_r. apply toSpace_wordy, W.
  - inversion S as [|x y [Sc St] S']; subst. cbn [fst snd] in *.
    rewrite map_app. rewrite (toSpace_wordy t0 W).
    cbn [glue map mapRuns fst snd id]. rewrite IH by auto. reflexivity.
Qed.

Lemma toSpace_is_space c : is_word c = false -> is_space (toSpace c) = true.
Proof.
  intros C. unfold toSpace. rewrite C. cbn [orb].
  destruct (is_space c) eqn:E; [exact E|reflexivity].
Qed.

Lemma spaced_mapRuns_toSpace l : separated l -> spaced (mapRuns toSpace id l).
Proof.
  unfold separated, spaced, mapRuns. intros S. apply Forall_map.
  eapply Forall_impl; [|exact S]. intros [c t] [A B]. cbn [fst snd id] in *.
  split; [apply toSpace_is_space; exact A|exact B].
Qed.

(** ** Squeezing and trimming *)

Lemma squeeze_wordy_app t x : wordy t ->
  forall b, squeeze b (t ++ x) = t ++ squeeze (b && isnil t) x.
Proof.
  induction 1 as [|c t C _ IH]; intros b.
  - cbn [app isnil]. rewrite andb_true_r. reflexivity.
  - cbn [app squeeze isnil]. rewrite (word_not_space c C).
    rewrite IH. cbn [andb]. rewrite andb_false_r. reflexivity.
Qed.

Lemma joinWords_cons w ws :
  joinWords (w :: ws) =
  w ++ match ws with [] => [] | _ :: _ => " "%char :: joinWords ws end.
Proof. destruct ws; cbn [joinWords]; [rewrite app_nil_r|]; reflexivity. Qed.

Lemma filter_nonempty_cons t ws :
  filter nonempty (t :: ws) =
  if isnil t then filter nonempty ws else t :: filter nonempty ws.
Proof. destruct t; reflexivity. Qed.

Lemma squeeze_true_glue l : forall t0,
  wordy t0 -> spaced l ->
  exists trail,
    (trail = [] \/ trail = [" "%char] /\ filter nonempty (t0 :: map snd l) <> []) /\
    squeeze true (t0 ++ glue l) =
    joinWords (filter nonempty (t0 :: map snd l)) ++ trail.
Proof.
  induction l as [|[c t1] l IH]; intros t0 W Sp.
  - exists []. split; [left; reflexivity|].
    cbn [glue map]. rewrite !app_nil_r.
    rewrite <- (app_nil_r t0) at 1. rewrite squeeze_wordy_app by exact W.
    cbn [squeeze]. rewrite app_nil_r. destruct t0; reflexivity.
  - inversion Sp as [|x y [Sc St] Sp']; subst. cbn [fst snd] in *.
    destruct (IH t1 St Sp') as (trail' & Tr & E).
    cbn [glue map snd]. rewrite squeeze_wordy_app by exact W.
    cbn [squeeze]. rewrite Sc. rewrite (filter_nonempty_cons t0).
    destruct t0 as [|a t0]; cbn [isnil andb app].
    + exists trail'. split; [exact Tr|exact E].
    + rewrite E. rewrite joinWords_cons.
      destruct (filter nonempty (t1 :: map snd l)) as [|w ws] eqn:F.
      * exists [" "%char]. split; [right; split; [reflexivity|discriminate]|].
        destruct Tr as [->|[_ Tr]]; [|contradiction].
        cbn [joinWords app]. rewrite !app_nil_r. reflexivity.
      * exists trail'. split.
        -- destruct Tr as [Tr|[Tr _]]; [left; exact Tr|right; split; [exact Tr|discriminate]].
        -- cbn [app]. rewrite <- app_assoc. reflexivity.
Qed.

Lemma squeeze_joinWords ws : properWords ws ->
  forall b, squeeze b (joinWords ws) = joinWords ws.
Proof.
  induction 1 as [|w ws [W N] _ IH]; intros b; [reflexivity|].
  rewrite joinWords_cons. rewrite squeeze_wordy_app by exact W.
  destruct w as [|c w]; [contradiction|]. cbn [isnil]. rewrite andb_false_r.
  f_equal. destruct ws as [|w' ws]; [reflexivity|].
  cbn [squeeze]. change (is_space " ") with true. cbv iota.
  f_equal. apply IH.
Qed.

Lemma joinWords_first ws : properWords ws -> ws <> [] ->
  exists c x, joinWords ws = c :: x /\ is_space c = false.
Proof.
  intros P Ne. destruct ws as [|w ws]; [contradiction|].
  inversion P as [|? ? [W N] _]; subst.
  destruct w as [|c w]; [contradiction|].
  inversion W; subst. rewrite joinWords_cons. cbn [app].
  eexists _, _. split; [reflexivity|apply word_not_space; assumption].
Qed.

Lemma joinWords_last ws : properWords ws -> ws <> [] ->
  exists y d, joinWords ws = y ++ [d] /\ is_space d = false.
Proof.
  induction ws as [|w ws IH]; intros P Ne; [contradiction|].
  inversion P as [|? ? [W N] P']; subst.
  rewrite joinWords_cons. destruct ws as [|w' ws].
  - rewrite app_nil_r. destruct (exists_last N) as (y & d & ->).
    exists y, d. split; [reflexivity|].
    apply word_not_space.
    unfold wordy in W. rewrite Forall_app in W. destruct W as [_ W].
    inversion W; assumption.
  - destruct (IH P' ltac:(discriminate)) as (y & d & E & D).
    exists (w ++ " "%char :: y), d. rewrite E.
    split; [rewrite <- app_assoc; reflexivity|exact D].
Qed.

Lemma trim_joinWords lead ws trail :
  properWords ws ->
  lead = [] \/ lead = [" "%char] ->
  trail = [] \/ trail = [" "%char] /\ ws <> [] ->
  trim (lead ++ joinWords ws ++ trail) = joinWords ws.
Proof.
  intros P L T. destruct ws as [|w ws].
  - destruct T as [->|[_ T]]; [|contradiction].
    destruct L as [->| ->]; reflexivity.
  - destruct (joinWords_first (w :: ws) P ltac:(discriminate)) as (c & x & E1 & C).
    destruct (joinWords_last (w :: ws) P ltac:(discriminate)) as (y & d & E2 & D).
    unfold trim, trimEnd.
    assert (S1 : trimStart (lead ++ joinWords (w :: ws) ++ trail)
                 = joinWords (w :: ws) ++ trail).
    { rewrite E1. destruct L as [->| ->]; cbn [app trimStart];
        try change (is_space " ") with true; cbn [trimStart]; rewrite C; reflexivity. }
    rewrite S1. rewrite rev_app_distr. rewrite E2 at 1. rewrite rev_app_distr.
    cbn [rev app].
    assert (S2 : trimStart (rev trail ++ d :: rev y) = d :: rev y).
    { destruct T as [->|[-> _]]; cbn [rev app trimStart];
        try change (is_space " ") with true; cbn [trimStart]; rewrite D; reflexivity. }
    rewrite S2. cbn [rev]. rewrite rev_involutive. symmetry; exact E2.
Qed.

Lemma properWords_filter t0 l :
  wordy t0 -> spaced l -> properWords (filter nonempty (t0 :: map snd l)).
Proof.
  intros W Sp. unfold properWords. apply Forall_forall.
  intros w Hw. apply filter_In in Hw as [I N]. split.
  - destruct I as [<-|I]; [exact W|].
    apply in_map_iff in I as ([c t] & <- & I).
    unfold spaced in Sp. rewrite Forall_forall in Sp. apply (Sp _ I).
  - intros ->. discriminate.
Qed.

Lemma trim_squeeze_glue t0 l :
  wordy t0 -> spaced l ->
  trim (squeeze false (t0 ++ glue l)) = joinWords (filter nonempty (t0 :: map snd l)).
Proof.
  intros W Sp.
  pose proof (properWords_filter t0 l W Sp) as P.
  destruct t0 as [|a t0].
  - destruct l as [|[c t1] l].
    + reflexivity.
    + inversion Sp as [|x y [Sc St] Sp']; subst. cbn [fst snd] in *.
      cbn [app glue squeeze]. rewrite Sc.
      destruct (squeeze_true_glue l t1 St Sp') as (trail & Tr & E).
      rewrite E. cbn [map snd] in *.
      rewrite (filter_nonempty_cons []) in *. cbn [isnil] in *.
      apply (trim_joinWords [" "%char]); auto.
  - destruct (squeeze_true_glue l (a :: t0) W Sp) as (trail & Tr & E).
    rewrite squeeze_wordy_app in * by exact W. cbn [isnil andb] in *.
    rewrite E.
    apply (trim_joinWords []); auto.
Qed.

End Runs.

(** ** The normaliser in closed form *)

Section Normalizer.
Import NormalForm MatchingUtils.

Lemma map_snd_mapRuns f g l : map snd (mapRuns f g l) = map g (map snd l).
Proof. unfold mapRuns. rewrite !map_map. reflexivity. Qed.

Lemma filter_nonempty_fix ws :
  filter nonempty (map fixTelecom ws) = map fixTelecom (filter nonempty ws).
Proof.
  induction ws as [|w ws IH]; [reflexivity|].
  cbn [map filter]. rewrite fixTelecom_nonempty.
  destruct (nonempty w); cbn [map]; rewrite IH; reflexivity.
Qed.

(** The normaliser returns the runs of word code units of the prepared
    input, each telecommunications spelling rewritten, joined by single
    spaces. *)
Lemma normalizeString_words s :
  normalizeString s = joinWords (map fixTelecom (words (prepared s))).
Proof.
  unfold normalizeString. fold (prepared s). set (u := prepared s).
  destruct (chunk_wf u) as [W Sp].
  rewrite replace_telecom, replace_special.
  rewrite toSpace_glue
    by (auto using fixTelecom_wordy, separated_mapRuns_fix).
  rewrite replace_spaces.
  rewrite trim_squeeze_glue
    by (auto using fixTelecom_wordy, separated_mapRuns_fix, spaced_mapRuns_toSpace).
  rewrite !map_snd_mapRuns. rewrite map_id.
  change (fixTelecom (fst (chunk u)) :: map fixTelecom (map snd (snd (chunk u))))
    with (map fixTelecom (runs u)).
  rewrite filter_nonempty_fix. reflexivity.
Qed.

Lemma prepared_not_upper s : Forall (fun c => is_upper c = false) (prepared s).
Proof.
  unfold prepared. rewrite replace_chr. unfold toLowerCase.
  induction s as [|c s IH]; [constructor|].
  cbn [map flat_map]. apply Forall_app. split; [|exact IH].
  destruct (Ascii.eqb amp (toLowerChar c)).
  - repeat constructor.
  - constructor; [apply toLowerChar_not_upper|constructor].
Qed.

Lemma runs_incl s w c : In w (runs s) -> In c w -> In c s.
Proof.
  intros Hw Hc. rewrite <- (chunk_glue s). unfold runs in Hw.
  destruct Hw as [<-|Hw]; [apply in_or_app; left; exact Hc|].
  apply in_or_app; right.
  apply in_map_iff in Hw as ([d t] & <- & I). cbn [snd] in Hc.
  induction (snd (chunk s)) as [|[e t'] l IH]; [contradiction|].
  cbn [glue]. destruct I as [I|I].
  - inversion I; subst. right. apply in_or_app; left; exact Hc.
  - right. apply in_or_app; right. apply IH, I.
Qed.

Lemma runs_wordy s w : In w (runs s) -> wordy w.
Proof.
  destruct (chunk_wf s) as [W Sp]. unfold runs. intros [<-|I]; [exact W|].
  apply in_map_iff in I as ([d t] & <- & I).
  unfold separated in Sp. rewrite Forall_forall in Sp. apply (Sp _ I).
Qed.

Lemma fixTelecom_plain w :
  Forall (fun c => is_plain c = true) w ->
  Forall (fun c => is_plain c = true) (fixTelecom w).
Proof.
  unfold fixTelecom. destruct (is_telecom w); auto.
  intros _. repeat constructor.
Qed.

Lemma normal_words_plain s : plainWords (map fixTelecom (words (prepared s))).
Proof.
  unfold plainWords. apply Forall_map. apply Forall_forall. intros w Hw.
  unfold words in Hw. apply filter_In in Hw as [I N]. split.
  - apply fixTelecom_plain. apply Forall_forall. intros c Hc.
    apply word_lower_plain.
    + pose proof (runs_wordy _ _ I) as W. unfold wordy in W.
      rewrite Forall_forall in W. apply W, Hc.
    + pose proof (prepared_not_upper s) as U. rewrite Forall_forall in U.
      apply U. eapply runs_incl; eauto.
  - intros E. rewrite <- fixTelecom_nonempty in N. rewrite E in N. discriminate.
Qed.

Lemma plainWords_proper ws : plainWords ws -> properWords ws.
Proof.
  unfold plainWords, properWords. intros P. eapply Forall_impl; [|exact P].
  intros w [A B]. split; [|exact B].
  eapply Forall_impl; [|exact A]. intros c. apply plain_word.
Qed.

Lemma joinWords_chars ws : plainWords ws ->
  Forall (fun c => is_plain c = true \/ c = " "%char) (joinWords ws).
Proof.
  induction 1 as [|w ws [A _] _ IH]; [constructor|].
  rewrite joinWords_cons. apply Forall_app. split.
  - eapply Forall_impl; [|exact A]. auto.
  - destruct ws; [constructor|]. constructor; [right; reflexivity|exact IH].
Qed.

Lemma chunk_wordy_app t x : wordy t ->
  chunk (t ++ x) = (t ++ fst (chunk x), snd (chunk x)).
Proof.
  induction 1 as [|c t C _ IH]; [cbn [app]; destruct (chunk x); reflexivity|].
  cbn [app chunk]. rewrite IH, C. reflexivity.
Qed.

Lemma chunk_joinWords ws : forall w, properWords (w :: ws) ->
  chunk (joinWords (w :: ws)) = (w, map (fun w' => (" "%char, w')) ws).
Proof.
  induction ws as [|w' ws IH]; intros w P;
    inversion P as [|? ? [W N] P']; subst.
  - cbn [joinWords map]. rewrite <- (app_nil_r w) at 1.
    rewrite chunk_wordy_app by exact W. cbn [chunk fst snd].
    rewrite app_nil_r. reflexivity.
  - rewrite joinWords_cons. rewrite chunk_wordy_app by exact W.
    cbn [chunk]. rewrite (IH w' P').
    change (is_word " ") with false. cbn [fst snd map].
    rewrite app_nil_r. reflexivity.
Qed.

Lemma words_joinWords ws : properWords ws -> words (joinWords ws) = ws.
Proof.
  intros P. destruct ws as [|w ws]; [reflexivity|].
  unfold words, runs. rewrite (chunk_joinWords ws w P). cbn [fst snd].
  rewrite map_map. cbn [snd]. rewrite map_id.
  apply forallb_filter_id. apply forallb_forall. intros x Hx.
  unfold properWords in P. rewrite Forall_forall in P.
  destruct (P x Hx) as [_ N]. destruct x; [contradiction|reflexivity].
Qed.

Lemma prepared_plain s :
  Forall (fun c => is_plain c = true \/ c = " "%char) s -> prepared s = s.
Proof.
  unfold prepared. rewrite replace_chr. unfold toLowerCase.
  induction 1 as [|c s C _ IH]; [reflexivity|].
  cbn [map flat_map]. rewrite IH.
  assert (L : toLowerChar c = c)
    by (destruct C as [C| ->]; [apply plain_lower_fixed, C|reflexivity]).
  rewrite L.
  assert (A : Ascii.eqb amp c = false).
  { destruct C as [C| ->]; [|reflexivity].
    destruct (Ascii.eqb amp c) eqn:E; [|reflexivity].
    apply Ascii.eqb_eq in E; subst c. discriminate. }
  rewrite A. reflexivity.
Qed.

(** A text of plain words joined by single spaces is already normal. *)
Lemma normalizeString_joinWords ws :
  plainWords ws -> Forall (fun w => fixTelecom w = w) ws ->
  normalizeString (joinWords ws) = joinWords ws.
Proof.
  intros P F. rewrite normalizeString_words.
  rewrite prepared_plain by (apply joinWords_chars, P).
  rewrite words_joinWords by (apply plainWords_proper, P).
  f_equal. rewrite <- (map_id ws) at 2. apply map_ext_Forall. exact F.
Qed.

End Normalizer.

(** ** The normaliser: claims C7 and C8 *)

(** C7.  For every string [s], normalising the normalised string changes
    nothing: [normalizeString (normalizeString s) = normalizeString s]. *)
Theorem normalizeString_idempotent (s : str) :
  MatchingUtils.normalizeString (MatchingUtils.normalizeString s)
  = MatchingUtils.normalizeString s.
Proof.
  rewrite (normalizeString_words s).
  apply normalizeString_joinWords.
  - apply normal_words_plain.
  - apply Forall_map. apply Forall_forall. intros w _.
    apply fixTelecom_idem.
Qed.

(** C8 as stated fails: the underscore is neither a letter, a digit nor
    white space, and the normaliser keeps it. *)
Lemma normalizeString_keeps_underscore :
  ~ (forall (s : str) (c : ascii),
       In c (MatchingUtils.normalizeString s) ->
       is_alpha c = true \/ is_digit c = true \/ is_space c = true).
Proof.
  intros H.
  destruct (H (chars "a_b") "_"%char) as [E|[E|E]].
  - vm_compute. tauto.
  - discriminate E.
  - discriminate E.
  - discriminate E.
Qed.

(** C8, amended.  The normaliser keeps the code units of [\w], that is
    the ASCII letters (lower-cased), the digits and the underscore; every
    other code unit separates words.  Its output is the list of maximal
    runs of word code units of the lower-cased input with [&] spelled
    [and], each telecommunications spelling rewritten, joined by single
    spaces: non-empty words over a-z, 0-9 and [_], one space between two
    words, no space at either end (collapsing white space or trimming the
    output again changes nothing). *)
Theorem normalizeString_output (s : str) :
  MatchingUtils.normalizeString s
  = NormalForm.joinWords
      (map NormalForm.fixTelecom (NormalForm.words (NormalForm.prepared s)))
  /\ NormalForm.plainWords
       (map NormalForm.fixTelecom (NormalForm.words (NormalForm.prepared s)))
  /\ Forall (fun c => NormalForm.is_plain c = true \/ c = " "%char)
       (MatchingUtils.normalizeString s)
  /\ trim (MatchingUtils.normalizeString s) = MatchingUtils.normalizeString s
  /\ replace MatchingUtils.re_spaces " " (MatchingUtils.normalizeString s)
     = MatchingUtils.normalizeString s
  /\ MatchingUtils.normalizeString (chars "Data_Sets & AI-Tools!")
     = chars "data_sets and ai tools".
Proof.
  pose proof (normal_words_plain s) as P.
  pose proof (normalizeString_words s) as E.
  split; [exact E|]. split; [exact P|]. split.
  - rewrite E. apply joinWords_chars, P.
  - rewrite E.
    pose proof (plainWords_proper _ P) as Q.
    split; [|split].
    + pose proof (trim_joinWords [] _ [] Q (or_introl eq_refl) (or_introl eq_refl)) as T.
      cbn [app] in T. rewrite app_nil_r in T. exact T.
    + rewrite replace_spaces. apply squeeze_joinWords. exact Q.
    + vm_compute. reflexivity.
Qed.

(** ** Maps *)

Section MapLemmas.
Variable V : Type.

Lemma get_set_same (k : str) (v : V) m : JSMap.get k (JSMap.set k v m) = Some v.
Proof.
  induction m as [|[k' v'] m IH]; simpl.
  - rewrite str_eqb_refl. reflexivity.
  - destruct (str_eqb k' k) eqn:E; simpl; rewrite E; auto.
Qed.

Lemma get_set_other (k k' : str) (v : V) m :
  k' <> k -> JSMap.get k' (JSMap.set k v m) = JSMap.get k' m.
Proof.
  intros N. induction m as [|[k0 v0] m IH]; simpl.
  - destruct (str_eqb k k') eqn:E; [|reflexivity].
    apply str_eqb_eq in E. congruence.
  - destruct (str_eqb k0 k) eqn:E; simpl.
    + apply str_eqb_eq in E; subst k0.
      destruct (str_eqb k k') eqn:E'; [|reflexivity].
      apply str_eqb_eq in E'. congruence.
    + rewrite IH. reflexivity.
Qed.

Lemma get_delete_same (k : str) (m : JSMap.t V) :
  JSMap.get k (JSMap.delete k m) = None.
Proof.
  unfold JSMap.delete. induction m as [|[k' v'] m IH]; [reflexivity|].
  cbn [filter fst]. destruct (str_eqb k' k) eqn:E; cbn [negb]; [exact IH|].
  cbn [JSMap.get]. rewrite E. exact IH.
Qed.


End MapLemmas.

(** ** Sorting by priority *)

Section SortLemmas.
Import DatabaseRegistry Tables.

Lemma insert_perm x l : Permutation (x :: l) (insert byPriority x l).
Proof.
  induction l as [|y l IH]; simpl; [apply Permutation_refl|].
  destruct (byPriority x y <=? 0)%Z; [apply Permutation_refl|].
  eapply perm_trans; [apply perm_swap|].
  apply perm_skip, IH.
Qed.

Lemma sort_perm l : Permutation l (sort byPriority l).
Proof.
  induction l as [|x l IH]; simpl; [constructor|].
  eapply perm_trans; [apply perm_skip, IH|].
  apply insert_perm.
Qed.

Lemma insert_ascending x l : ascending l -> ascending (insert byPriority x l).
Proof.
  unfold ascending. induction 1 as [|y l S IH F]; simpl.
  - repeat constructor.
  - unfold byPriority at 1. destruct (priority x - priority y <=? 0)%Z eqn:E.
    + apply Z.leb_le in E. constructor; [constructor; assumption|].
      constructor; [lia|]. eapply Forall_impl; [|exact F]. intros; simpl in *; lia.
    + apply Z.leb_gt in E. constructor; [exact IH|].
      eapply Permutation_Forall; [apply insert_perm|].
      constructor; [lia|exact F].
Qed.

Lemma sort_ascending l : ascending (sort byPriority l).
Proof.
  induction l as [|x l IH]; simpl; [constructor|].
  apply insert_ascending, IH.
Qed.

(** Stability: descriptors of one priority keep their order. *)
Lemma insert_stable p x l :
  filter (hasPriority p) (insert byPriority x l) = filter (hasPriority p) (x :: l).
Proof.
  induction l as [|y l IH]; [reflexivity|].
  cbn [insert]. unfold byPriority at 1.
  destruct (priority x - priority y <=? 0)%Z eqn:E; [reflexivity|].
  apply Z.leb_gt in E. cbn [filter] in *. rewrite IH.
  unfold hasPriority.
  destruct (priority x =? p)%Z eqn:X; destruct (priority y =? p)%Z eqn:Y;
    try reflexivity.
  apply Z.eqb_eq in X, Y. lia.
Qed.

Lemma sort_stable p l :
  filter (hasPriority p) (sort byPriority l) = filter (hasPriority p) l.
Proof.
  induction l as [|x l IH]; [reflexivity|].
  cbn [sort fold_right]. rewrite insert_stable.
  cbn [filter]. fold (sort byPriority l). rewrite IH. reflexivity.
Qed.

End SortLemmas.

(** ** The registry: claims C3 and C10 *)

Section RegistryClaims.
Import DatabaseRegistry Tables.

(** What [getEnabledDatabases] returns: the enabled descriptors, in
    ascending stored priority, those of one priority in registry order. *)
Lemma getEnabledDatabases_sorted getPref (databases : Registry) :
  Permutation (filter (enabled getPref) (JSMap.values databases))
              (getEnabledDatabases getPref databases)
  /\ ascending (getEnabledDatabases getPref databases)
  /\ forall p,
       filter (hasPriority p) (getEnabledDatabases getPref databases)
       = filter (hasPriority p) (filter (enabled getPref) (JSMap.values databases)).
Proof.
  unfold getEnabledDatabases. split; [apply sort_perm|].
  split; [apply sort_ascending|]. intros p. apply sort_stable.
Qed.

End RegistryClaims.

(** C3, on the two registrations the plugins make.  The SJR source is
    registered with priority 0 and the CORE source with priority 100;
    [config.priority || 999] stores 999 for the former, so with both
    enabled [getEnabledDatabases] lists CORE first, in either order of
    registration. *)
Theorem priority_zero_is_listed_last
    (sjrRankings : MatchingUtils.SjrTable) (coreRankings : MatchingUtils.CoreTable) :
  let sjr := Plugins.sjrConfig sjrRankings in
  let core := Plugins.coreConfig coreRankings in
  DatabaseRegistry.cfg_priority sjr = Some 0%Z /\
  DatabaseRegistry.cfg_priority core = Some 100%Z /\
  (exists r1 r2,
     DatabaseRegistry.register sjr (JSMap.empty _) = Returned r1 /\
     DatabaseRegistry.register core r1 = Returned r2 /\
     DatabaseRegistry.getDatabase (chars "sjr") r2
       = Some (DatabaseRegistry.stored sjr (fun title => SJRDatabase.match_ sjrRankings title)) /\
     DatabaseRegistry.priority
       (DatabaseRegistry.stored sjr (fun title => SJRDatabase.match_ sjrRankings title)) = 999%Z /\
     map DatabaseRegistry.id
       (DatabaseRegistry.getEnabledDatabases (fun _ => true) r2)
     = [chars "core"; chars "sjr"]) /\
  (exists r1 r2,
     DatabaseRegistry.register core (JSMap.empty _) = Returned r1 /\
     DatabaseRegistry.register sjr r1 = Returned r2 /\
     map DatabaseRegistry.id
       (DatabaseRegistry.getEnabledDatabases (fun _ => true) r2)
     = [chars "core"; chars "sjr"]).
Proof.
  intros sjr core. split; [reflexivity|]. split; [reflexivity|]. split.
  - eexists _, _. split; [reflexivity|]. split; [reflexivity|].
    split; [reflexivity|]. split; reflexivity.
  - eexists _, _. split; [reflexivity|]. split; reflexivity.
Qed.



(** ** Manual overrides: claims C4 and C6 *)

Section OverrideClaims.
Import ManualOverrides.

Lemma get_set stringify (t t' r : str) (st : State) :
  get t' (set stringify t r st) =
  if str_eqb (normalizedTitle t') (normalizedTitle t)
  then Some (JString r) else get t' st.
Proof.
  unfold get, set, save. cbn [overrides].
  destruct (str_eqb (normalizedTitle t') (normalizedTitle t)) eqn:E.
  - apply str_eqb_eq in E. rewrite E. apply get_set_same.
  - apply str_eqb_neq in E. apply get_set_other. exact E.
Qed.

End OverrideClaims.

(** C4 as stated fails: after [set("Nature", "Q1")] the title "Science"
    still returns the "Q1" it was given before, though the two keys
    differ. *)
Lemma get_returns_rank_of_other_title :
  ~ (forall stringify (st : ManualOverrides.State) (t t' r : str),
       ManualOverrides.get t' (ManualOverrides.set stringify t r st)
         = Some (ManualOverrides.JString r)
       <-> ManualOverrides.normalizedTitle t' = ManualOverrides.normalizedTitle t).
Proof.
  intros H.
  pose (stringify := fun _ : list (str * ManualOverrides.json) => chars "{}").
  pose (st0 := {| ManualOverrides.overrides := JSMap.empty _;
                  ManualOverrides.stored := None |}).
  pose (st1 := ManualOverrides.set stringify (chars "Science") (chars "Q1") st0).
  destruct (H stringify st1 (chars "Nature") (chars "Science") (chars "Q1")) as [A _].
  specialize (A eq_refl). vm_compute in A. discriminate A.
Qed.

(** C4, amended.  The key of an override is the title lower-cased and
    trimmed, nothing else.  After [set(t, r)], [get(t')] returns [r] when
    the keys of [t'] and [t] are equal, and what it returned before the call
    when they differ (so [r] only if [t'] had been given that rank
    already); after [remove(t)], [get(t)] is absent.  Titles that differ in
    punctuation have different keys. *)
Theorem get_after_set_and_remove stringify
    (st : ManualOverrides.State) (t t' r : str) :
  ManualOverrides.normalizedTitle t = trim (toLowerCase t) /\
  (ManualOverrides.normalizedTitle t' = ManualOverrides.normalizedTitle t ->
   ManualOverrides.get t' (ManualOverrides.set stringify t r st)
   = Some (ManualOverrides.JString r)) /\
  (ManualOverrides.normalizedTitle t' <> ManualOverrides.normalizedTitle t ->
   ManualOverrides.get t' (ManualOverrides.set stringify t r st)
   = ManualOverrides.get t' st) /\
  ManualOverrides.get t (ManualOverrides.remove stringify t st) = None /\
  ManualOverrides.normalizedTitle (chars "  IEEE Trans. on Networking ")
  = chars "ieee trans. on networking" /\
  ManualOverrides.normalizedTitle (chars "IEEE Trans on Networking")
  <> ManualOverrides.normalizedTitle (chars "IEEE Trans. on Networking").
Proof.
  split; [reflexivity|]. split; [|split; [|split; [|split]]].
  - intros E. rewrite get_set. apply str_eqb_eq in E. rewrite E. reflexivity.
  - intros N. rewrite get_set. apply str_eqb_neq in N. rewrite N. reflexivity.
  - unfold ManualOverrides.get, ManualOverrides.remove, ManualOverrides.save.
    cbn [ManualOverrides.overrides]. apply get_delete_same.
  - reflexivity.
  - vm_compute. discriminate.
Qed.

(** When does the [try] block throw: the stored text, trimmed, is neither
    empty nor ['{}'], and parsing it fails. *)
Lemma load_try_throws parse (st : ManualOverrides.State) (data : str) (e : string) :
  ManualOverrides.stored st = Some data ->
  trim data <> [] -> trim data <> chars "{}" ->
  parse (trim data) = Thrown e ->
  ManualOverrides.load_try parse st = Thrown e.
Proof.
  intros S N1 N2 P. unfold ManualOverrides.load_try. rewrite S.
  destruct data as [|c data]; [contradiction N1; reflexivity|].
  destruct (trim (c :: data)) as [|d tr] eqn:T; [contradiction|].
  cbn [length Nat.eqb orb].
  apply str_eqb_neq in N2. rewrite N2. rewrite P. reflexivity.
Qed.

(** A stored value of white space only is never parsed and never
    rewritten. *)
Lemma load_blank parse (st : ManualOverrides.State) (data : str) :
  ManualOverrides.stored st = Some data -> trim data = [] ->
  ManualOverrides.load parse st
  = Returned {| ManualOverrides.overrides := JSMap.empty ManualOverrides.json;
                ManualOverrides.stored := Some data |}.
Proof.
  intros S T. unfold ManualOverrides.load, ManualOverrides.load_try. rewrite S.
  destruct data as [|c data]; [reflexivity|]. rewrite T. reflexivity.
Qed.

(** The older [load] looks at nothing but the stored value, which its
    [catch] block leaves. *)
Lemma legacy_load_try_stored parse unset (st st' : ManualOverrides.State) e :
  ManualOverrides.stored st' = ManualOverrides.stored st ->
  LegacyOverrides.load_try parse unset st = Thrown e ->
  LegacyOverrides.load_try parse unset st' = Thrown e.
Proof.
  unfold LegacyOverrides.load_try. intros ->.
  destruct (parse _) as [parsed|x]; cbn [bind]; [|exact (fun H => H)].
  destruct (ManualOverrides.entries parsed); cbn [bind]; [discriminate|].
  exact (fun H => H).
Qed.

(** C6 as stated fails on both copies of the module.  The older [load]
    never rewrites the stored value, so the next [load] fails on it again.
    The current [load] does not parse a value of white space only, which is
    no JSON either, and leaves it as it is. *)
Lemma load_does_not_always_overwrite :
  ~ (forall (parse : str -> outcome ManualOverrides.json) (unset : option str)
            (st : ManualOverrides.State) (e : string),
       LegacyOverrides.load_try parse unset st = Thrown e ->
       exists st',
         LegacyOverrides.load parse unset st = Returned st' /\
         ManualOverrides.count st' = 0 /\
         ManualOverrides.stored st' = Some (chars "{}") /\
         exists st'', LegacyOverrides.load_try parse unset st' = Returned st'')
  /\
  ~ (forall (parse : str -> outcome ManualOverrides.json)
            (st : ManualOverrides.State) (data : str) (e : string),
       ManualOverrides.stored st = Some data ->
       parse data = Thrown e ->
       exists st',
         ManualOverrides.load parse st = Returned st' /\
         ManualOverrides.count st' = 0 /\
         ManualOverrides.stored st' = Some (chars "{}")).
Proof.
  pose (parse := fun s : str =>
    match s with
    | "{"%char :: _ => Returned (ManualOverrides.JObject [])
    | _ => @Thrown ManualOverrides.json "SyntaxError"
    end).
  split; intros H.
  - destruct (H parse None
                {| ManualOverrides.overrides := [];
                   ManualOverrides.stored := Some (chars "nature: Q1") |}
                "SyntaxError"%string eq_refl) as (st' & L & _ & S & _).
    unfold LegacyOverrides.load in L. cbn in L. injection L as <-.
    discriminate S.
  - destruct (H parse
                {| ManualOverrides.overrides := [];
                   ManualOverrides.stored := Some (chars "  ") |}
                (chars "  ") "SyntaxError"%string eq_refl eq_refl)
      as (st' & L & _ & S).
    vm_compute in L. injection L as <-. discriminate S.
Qed.

(** C6, amended.  When the [try] block of the current [load] throws,
    because [JSON.parse] rejects the stored value or [Object.entries]
    rejects what it parsed to, [load] itself returns: the map in memory is
    empty and the stored value is ['{}'].  The [try] block of the next
    [load] then returns that same state, without parsing anything and
    without reaching the [catch] block.  A stored value of white space
    only is not parsed: [load] returns with an empty map and leaves it.
    The older [load] returns with an empty map as well but leaves the
    stored value, so that its [try] block throws again on every later
    [load]. *)
Theorem load_recovers_from_bad_data parse
    (st : ManualOverrides.State) (e : string) :
  ManualOverrides.load_try parse st = Thrown e ->
  let recovered :=
    {| ManualOverrides.overrides := JSMap.empty ManualOverrides.json;
       ManualOverrides.stored := Some (chars "{}") |} in
  ManualOverrides.load parse st = Returned recovered /\
  ManualOverrides.count recovered = 0 /\
  ManualOverrides.load_try parse recovered = Returned recovered /\
  ManualOverrides.load parse recovered = Returned recovered /\
  (exists data,
     ManualOverrides.stored st = Some data /\
     trim data <> [] /\ trim data <> chars "{}") /\
  (forall st0 data,
     ManualOverrides.stored st0 = Some data -> trim data = [] ->
     ManualOverrides.load parse st0
     = Returned {| ManualOverrides.overrides := JSMap.empty ManualOverrides.json;
                   ManualOverrides.stored := Some data |}) /\
  (forall unset st0 e0,
     LegacyOverrides.load_try parse unset st0 = Thrown e0 ->
     let emptied :=
       {| ManualOverrides.overrides := JSMap.empty ManualOverrides.json;
          ManualOverrides.stored := ManualOverrides.stored st0 |} in
     LegacyOverrides.load parse unset st0 = Returned emptied /\
     LegacyOverrides.load_try parse unset emptied = Thrown e0 /\
     LegacyOverrides.load parse unset emptied = Returned emptied).
Proof.
  intros T recovered.
  split; [unfold ManualOverrides.load; rewrite T; reflexivity|].
  split; [reflexivity|]. split; [reflexivity|]. split; [reflexivity|].
  split; [|split].
  - unfold ManualOverrides.load_try in T.
    destruct (ManualOverrides.stored st) as [[|c data]|]; [discriminate T| |discriminate T].
    exists (c :: data). split; [reflexivity|].
    destruct (trim (c :: data)) as [|d tr]; [discriminate T|].
    split; [discriminate|]. intros B.
    cbn [length Nat.eqb orb] in T. rewrite B in T. discriminate T.
  - intros st0 data S B. apply load_blank; assumption.
  - intros unset st0 e0 L emptied.
    assert (L' : LegacyOverrides.load_try parse unset emptied = Thrown e0)
      by (apply (legacy_load_try_stored parse unset st0 emptied e0 eq_refl L)).
    unfold LegacyOverrides.load. rewrite L, L'.
    split; [reflexivity|]. split; reflexivity.
Qed.

(** C6 at a concrete stored value that is no JSON, for a parser that
    rejects what does not start with a brace. *)
Lemma load_recovers_from_bad_data_witness :
  let parse : str -> outcome ManualOverrides.json :=
    fun s => match s with
             | "{"%char :: _ => Returned (ManualOverrides.JObject [])
             | _ => Thrown "SyntaxError"
             end in
  let st := {| ManualOverrides.overrides := [(chars "nature", ManualOverrides.JString (chars "Q1"))];
               ManualOverrides.stored := Some (chars "nature: Q1") |} in
  let recovered :=
    {| ManualOverrides.overrides := JSMap.empty ManualOverrides.json;
       ManualOverrides.stored := Some (chars "{}") |} in
  let emptied :=
    {| ManualOverrides.overrides := JSMap.empty ManualOverrides.json;
       ManualOverrides.stored := Some (chars "nature: Q1") |} in
  ManualOverrides.load_try parse st = Thrown "SyntaxError" /\
  ManualOverrides.load parse st = Returned recovered /\
  ManualOverrides.load_try parse recovered = Returned recovered /\
  LegacyOverrides.load_try parse None st = Thrown "SyntaxError" /\
  LegacyOverrides.load parse None st = Returned emptied /\
  LegacyOverrides.load_try parse None emptied = Thrown "SyntaxError".
Proof.
  intros parse st recovered emptied.
  pose proof (load_recovers_from_bad_data parse st "SyntaxError" eq_refl)
    as (L & _ & T & _ & _ & _ & G).
  destruct (G None st "SyntaxError"%string eq_refl) as (GL & GT & _).
  split; [reflexivity|]. split; [exact L|]. split; [exact T|].
  split; [reflexivity|]. split; [exact GL|exact GT].
Defined.

(** ** Loops over a table *)

Section Loops.
Import NormalForm Tables MatchingUtils.
Variables E R : Type.

Lemma forIn_ext (f g : str -> E -> outcome (option R)) table :
  (forall t e, f t e = g t e) -> forIn f table = forIn g table.
Proof.
  intros H. induction table as [|[t e] table IH]; [reflexivity|].
  cbn [forIn]. rewrite H, IH. reflexivity.
Qed.

(** A loop whose body tests the entry and returns on success is a search
    for the first entry that passes. *)
Lemma forIn_test (test : str -> E -> bool) (res : str -> E -> R) table :
  forIn (fun t e => if test t e then Returned (Some (res t e)) else Returned None) table
  = Returned (option_map (fun te => res (fst te) (snd te)) (firstPair test table)).
Proof.
  unfold firstPair. induction table as [|[t e] table IH]; [reflexivity|].
  cbn [forIn find fst snd]. destruct (test t e); [reflexivity|exact IH].
Qed.

Lemma firstPair_some (test : str -> E -> bool) table t e :
  firstPair test table = Some (t, e) <->
  exists pre post, table = pre ++ (t, e) :: post /\ test t e = true /\
    forall t' e', In (t', e') pre -> test t' e' = false.
Proof.
  unfold firstPair. induction table as [|[t0 e0] table IH]; cbn [find fst snd].
  - split; [discriminate|]. intros (pre & post & H & _). destruct pre; discriminate.
  - destruct (test t0 e0) eqn:T.
    + split.
      * intros H; inversion H; subst. exists [], table. repeat split; auto.
        intros ? ? [].
      * intros (pre & post & H & Ht & Hpre). destruct pre as [|[t1 e1] pre].
        -- inversion H; reflexivity.
        -- inversion H; subst. rewrite (Hpre t1 e1) in T; [discriminate|left; reflexivity].
    + rewrite IH. split.
      * intros (pre & post & -> & Ht & Hpre). exists ((t0, e0) :: pre), post.
        repeat split; auto. intros t' e' [A|A]; [inversion A; subst; exact T|eauto].
      * intros (pre & post & H & Ht & Hpre). destruct pre as [|[t1 e1] pre].
        -- inversion H; subst. congruence.
        -- inversion H; subst. exists pre, post. repeat split; auto.
           intros t' e' A. apply Hpre. right; exact A.
Qed.

Lemma firstPair_none (test : str -> E -> bool) table :
  firstPair test table = None <-> forall t e, In (t, e) table -> test t e = false.
Proof.
  unfold firstPair. split.
  - intros H t e I. apply (find_none _ _ H (t, e) I).
  - intros H. destruct (find _ table) as [[t e]|] eqn:F; [|reflexivity].
    apply find_some in F as [I T]. cbn [fst snd] in T.
    rewrite (H t e I) in T. discriminate.
Qed.

End Loops.

Section Comma.
Import NormalForm Tables MatchingUtils.

Lemma split_not_nil sep s : split sep s <> [].
Proof.
  destruct s as [|c s]; [discriminate|].
  cbn [split]. destruct (Ascii.eqb c sep); [discriminate|].
  destruct (split sep s); discriminate.
Qed.

(** [title.split(',')[0]] is never [undefined]. *)
Lemma beforeComma_returns title : beforeComma title = Returned (commaTruncated title).
Proof.
  unfold beforeComma, commaTruncated, index.
  pose proof (split_not_nil ","%char title) as N.
  destruct (split ","%char title); [contradiction|reflexivity].
Qed.

End Comma.

(** ** The journal matcher: claims C2 and C1 *)

Section JournalLemmas.
Import NormalForm Tables MatchingUtils.

Lemma matchExact_find sjrRankings title :
  SJRDatabase.matchExact sjrRankings title
  = Returned (option_map (fun te => SJRDatabase.ranking (snd te))
      (firstPair (fun k _ => str_eqb (toLowerCase k) (toLowerCase title)) sjrRankings)).
Proof. unfold SJRDatabase.matchExact. apply forIn_test. Qed.

Lemma matchWordOverlap_find sjrRankings title :
  SJRDatabase.matchWordOverlap sjrRankings title
  = Returned (option_map (fun te => SJRDatabase.ranking (snd te))
      (firstPair (fun k _ =>
         SJRDatabase.overlapAccepts
           (significantWords (normalizeString (cleanConferenceTitle title))) k)
         sjrRankings)).
Proof. unfold SJRDatabase.matchWordOverlap. apply forIn_test. Qed.

Lemma countMatches_le ws : forall vs, countMatches ws vs <= length vs.
Proof.
  induction vs as [|v vs IH]; [apply le_n|].
  cbn [countMatches length]. destruct (arrayIncludes ws v); simpl; lia.
Qed.

Lemma countMatches_nil vs : countMatches [] vs = 0.
Proof. induction vs as [|v vs IH]; [reflexivity|exact IH]. Qed.

Lemma ratio_pos m n : 0 < n ->
  (ratio m n == Z.of_nat m # Pos.of_nat n)%Q.
Proof.
  intros H. unfold ratio. rewrite Qmake_Qdiv.
  replace (Z.pos (Pos.of_nat n)) with (Z.of_nat n); [reflexivity|].
  destruct n as [|n]; [lia|]. rewrite <- Pos.of_nat_succ.
  rewrite Znat.Zpos_P_of_succ_nat. lia.
Qed.

Lemma ratio_zero m : (ratio m 0 == 0)%Q.
Proof. unfold ratio. cbn [Z.of_nat]. unfold Qdiv, Qinv. cbn. apply Qmult_0_r. Qed.

(** The test [m / n >= q] on token counts is the comparison of the
    fraction with [q]; a count of zero tokens never passes. *)
Lemma ge_div_ratio m n (q : Q) :
  (0 < q)%Q -> (n = 0 -> m = 0) ->
  ge (div m n) q = true <-> (q <= ratio m n)%Q.
Proof.
  intros Hq H0. destruct n as [|n].
  - rewrite (H0 eq_refl). cbn [div ge]. rewrite ratio_zero.
    split; [discriminate|]. intros L. exfalso. apply (Qlt_not_le _ _ Hq L).
  - cbn [div ge]. rewrite Qle_bool_iff. rewrite ratio_pos by lia. reflexivity.
Qed.

End JournalLemmas.

(** C2 as stated fails on [MatchingUtils.matchSjrJournal]: its first
    strategy compares the normalised title with the normalised key, so
    that a title which differs from a key in punctuation only is matched
    at this stage. *)
Lemma matchSjrJournal_exact_is_not_case_folding_alone :
  ~ (forall (sjrRankings : MatchingUtils.SjrTable) (title : str)
            (e : MatchingUtils.SjrEntry),
       MatchingUtils.sjrNormalizedExact sjrRankings title = Returned (Some e) ->
       exists k, In (k, e) sjrRankings /\ toLowerCase k = toLowerCase title).
Proof.
  intros H.
  pose (e := {| MatchingUtils.quartile := chars "Q1"; MatchingUtils.sjr := chars "1.5" |}).
  destruct (H [(chars "Computer Networks", e)] (chars "Computer-Networks") e)
    as (k & I & E); [vm_compute; reflexivity|].
  destruct I as [I|[]]. injection I as <-. vm_compute in E. discriminate E.
Qed.

(** The first entry that passes the test of a loop is the one it returns
    on. *)
Lemma forIn_test_first {E R : Type} (test : str -> E -> bool) (res : E -> R)
    (table : list (str * E)) (r : R) :
  MatchingUtils.forIn
    (fun t e => if test t e then Returned (Some (res e)) else Returned None) table
  = Returned (Some r) <->
  exists pre k e post,
    table = pre ++ (k, e) :: post /\ test k e = true /\
    (forall k' e', In (k', e') pre -> test k' e' = false) /\ r = res e.
Proof.
  rewrite (forIn_test _ _ test (fun _ e => res e)). split.
  - intros H. injection H as H.
    destruct (Tables.firstPair test table) as [[k e]|] eqn:F; [|discriminate].
    cbn [option_map fst snd] in H. injection H as <-.
    apply firstPair_some in F as (pre & post & T & Tk & P).
    exists pre, k, e, post. split; [exact T|]. split; [exact Tk|].
    split; [exact P|reflexivity].
  - intros (pre & k & e & post & T & Tk & P & ->).
    assert (F : Tables.firstPair test table = Some (k, e))
      by (apply firstPair_some; exists pre, post; split; [exact T|]; split; assumption).
    rewrite F. reflexivity.
Qed.

(** C2, amended.  [SJRDatabase.matchExact] returns the ranking of a table
    entry exactly when the title and the entry's key are equal once both
    are lower-cased; it is the first such entry in table order whose
    ranking is returned, and nothing else is done to either string, so a
    title that differs from every key in punctuation or in spacing is not
    matched here.  The first strategy of the older
    [MatchingUtils.matchSjrJournal] returns the first entry whose
    normalised key is the normalised title instead, which decides the
    result of [matchSjrJournal]; there a title that differs from a key in
    punctuation, spacing or case is matched. *)
Theorem matchExact_is_case_insensitive_equality
    (sjrRankings : MatchingUtils.SjrTable) (title : str) :
  (forall r,
     SJRDatabase.matchExact sjrRankings title = Returned (Some r) <->
     exists pre k e post,
       sjrRankings = pre ++ (k, e) :: post /\
       toLowerCase k = toLowerCase title /\
       (forall k' e', In (k', e') pre -> toLowerCase k' <> toLowerCase title) /\
       r = SJRDatabase.ranking e) /\
  (SJRDatabase.matchExact sjrRankings title = Returned None <->
   forall k e, In (k, e) sjrRankings -> toLowerCase k <> toLowerCase title) /\
  (let networks :=
     [(chars "Computer Networks",
       {| MatchingUtils.quartile := chars "Q1"; MatchingUtils.sjr := chars "1.5" |})] in
   SJRDatabase.matchExact networks (chars "COMPUTER networks")
     = Returned (Some (chars "Q1 1.5")) /\
   SJRDatabase.matchExact networks (chars "Computer-Networks") = Returned None /\
   SJRDatabase.matchExact networks (chars "Computer  Networks") = Returned None /\
   SJRDatabase.matchExact networks (chars " Computer Networks") = Returned None) /\
  (forall e,
     MatchingUtils.sjrNormalizedExact sjrRankings title = Returned (Some e) <->
     exists pre k post,
       sjrRankings = pre ++ (k, e) :: post /\
       MatchingUtils.normalizeString k = MatchingUtils.normalizeString title /\
       (forall k' e', In (k', e') pre ->
          MatchingUtils.normalizeString k' <> MatchingUtils.normalizeString title)) /\
  (forall e,
     MatchingUtils.sjrNormalizedExact sjrRankings title = Returned (Some e) ->
     MatchingUtils.matchSjrJournal sjrRankings title = Returned (Some e)) /\
  (let entry :=
     {| MatchingUtils.quartile := chars "Q1"; MatchingUtils.sjr := chars "1.5" |} in
   let networks := [(chars "Computer Networks", entry)] in
   MatchingUtils.sjrNormalizedExact networks (chars "COMPUTER networks")
     = Returned (Some entry) /\
   MatchingUtils.sjrNormalizedExact networks (chars "Computer-Networks")
     = Returned (Some entry) /\
   MatchingUtils.sjrNormalizedExact networks (chars "Computer  Networks")
     = Returned (Some entry) /\
   MatchingUtils.sjrNormalizedExact networks (chars " Computer Networks")
     = Returned (Some entry) /\
   MatchingUtils.sjrNormalizedExact networks (chars "Computer Network")
     = Returned None).
Proof.
  rewrite matchExact_find. split; [|split; [|split; [|split; [|split]]]].
  - intros r. split.
    + intros H. inversion H as [H1]. clear H.
      destruct (Tables.firstPair _ sjrRankings) as [[k e]|] eqn:F; [|discriminate].
      cbn [option_map snd] in H1. inversion H1; subst r.
      apply firstPair_some in F as (pre & post & E & T & P).
      exists pre, k, e, post. split; [exact E|].
      split; [apply str_eqb_eq, T|]. split; [|reflexivity].
      intros k' e' I. apply str_eqb_neq. apply (P k' e' I).
    + intros (pre & k & e & post & E & T & P & ->).
      assert (F : Tables.firstPair
                    (fun k _ => str_eqb (toLowerCase k) (toLowerCase title))
                    sjrRankings = Some (k, e)).
      { apply firstPair_some. exists pre, post. split; [exact E|].
        split; [apply str_eqb_eq, T|].
        intros k' e' I. apply str_eqb_neq. apply (P k' e' I). }
      rewrite F. reflexivity.
  - split.
    + intros H. inversion H as [H1]. clear H.
      destruct (Tables.firstPair _ sjrRankings) as [[k e]|] eqn:F; [discriminate|].
      intros k e I. apply str_eqb_neq.
      apply (proj1 (firstPair_none _ _ _) F k e I).
    + intros H.
      assert (F : Tables.firstPair
                    (fun k _ => str_eqb (toLowerCase k) (toLowerCase title))
                    sjrRankings = None).
      { apply firstPair_none. intros k e I. apply str_eqb_neq. apply (H k e I). }
      rewrite F. reflexivity.
  - repeat split; reflexivity.
  - assert (N : MatchingUtils.normalizeString (toLowerCase title)
                = MatchingUtils.normalizeString title)
      by (unfold MatchingUtils.normalizeString; rewrite toLowerCase_idem; reflexivity).
    intros e. unfold MatchingUtils.sjrNormalizedExact. cbv zeta. rewrite N.
    rewrite (forIn_test_first
               (fun t _ => str_eqb (MatchingUtils.normalizeString t)
                             (MatchingUtils.normalizeString title))
               (fun e0 : MatchingUtils.SjrEntry => e0)).
    split.
    + intros (pre & k & e' & post & T & Tk & P & ->).
      exists pre, k, post. split; [exact T|]. split; [apply str_eqb_eq, Tk|].
      intros k' e0 I. apply str_eqb_neq, (P k' e0 I).
    + intros (pre & k & post & T & Tk & P).
      exists pre, k, e, post. split; [exact T|]. split; [apply str_eqb_eq, Tk|].
      split; [|reflexivity]. intros k' e0 I. apply str_eqb_neq, (P k' e0 I).
  - intros e H. unfold MatchingUtils.matchSjrJournal. rewrite H. reflexivity.
  - repeat split; vm_compute; reflexivity.
Qed.


(** C1 as stated fails on both implementations of the journal word
    overlap, whether the share of the title's tokens is taken of the key
    tokens found in the title, as the code counts, or of the title's
    tokens found in the key.  [SJRDatabase.matchWordOverlap] does not cut
    the table key at its comma: a title that names five of the eight
    significant words of a key, all five before the key's comma, is
    rejected.  [MatchingUtils.matchSjrJournal] cuts the key but wants 0.85
    of the title's words matched, so for five of six it rejects as well. *)
Lemma word_overlap_is_not_as_claimed :
  ~ (forall title key : str,
       let inputWords :=
         MatchingUtils.significantWords
           (MatchingUtils.normalizeString (MatchingUtils.cleanConferenceTitle title)) in
       let keyWords :=
         MatchingUtils.significantWords
           (MatchingUtils.normalizeString (Tables.commaTruncated key)) in
       let m := MatchingUtils.countMatches inputWords keyWords in
       SJRDatabase.overlapAccepts inputWords key = true <->
       5 <= length keyWords /\
       (85 # 100 <= Tables.ratio m (length keyWords))%Q /\
       (80 # 100 <= Tables.ratio m (length inputWords))%Q)
  /\
  ~ (forall title key : str,
       let inputWords :=
         MatchingUtils.significantWords
           (MatchingUtils.normalizeString (MatchingUtils.cleanConferenceTitle title)) in
       let keyWords :=
         MatchingUtils.significantWords
           (MatchingUtils.normalizeString (Tables.commaTruncated key)) in
       let m := MatchingUtils.countMatches inputWords keyWords in
       MatchingUtils.sjrOverlapAccepts inputWords
         (MatchingUtils.normalizeString (Tables.commaTruncated key)) = true <->
       5 <= length keyWords /\
       (85 # 100 <= Tables.ratio m (length keyWords))%Q /\
       (80 # 100 <= Tables.ratio m (length inputWords))%Q)
  /\
  ~ (forall title key : str,
       let inputWords :=
         MatchingUtils.significantWords
           (MatchingUtils.normalizeString (MatchingUtils.cleanConferenceTitle title)) in
       let keyWords :=
         MatchingUtils.significantWords
           (MatchingUtils.normalizeString (Tables.commaTruncated key)) in
       let m := MatchingUtils.countMatches inputWords keyWords in
       let matchedInput := MatchingUtils.countMatches keyWords inputWords in
       SJRDatabase.overlapAccepts inputWords key = true <->
       5 <= length keyWords /\
       (85 # 100 <= Tables.ratio m (length keyWords))%Q /\
       (80 # 100 <= Tables.ratio matchedInput (length inputWords))%Q)
  /\
  ~ (forall title key : str,
       let inputWords :=
         MatchingUtils.significantWords
           (MatchingUtils.normalizeString (MatchingUtils.cleanConferenceTitle title)) in
       let keyWords :=
         MatchingUtils.significantWords
           (MatchingUtils.normalizeString (Tables.commaTruncated key)) in
       let m := MatchingUtils.countMatches inputWords keyWords in
       let matchedInput := MatchingUtils.countMatches keyWords inputWords in
       MatchingUtils.sjrOverlapAccepts inputWords
         (MatchingUtils.normalizeString (Tables.commaTruncated key)) = true <->
       5 <= length keyWords /\
       (85 # 100 <= Tables.ratio m (length keyWords))%Q /\
       (80 # 100 <= Tables.ratio matchedInput (length inputWords))%Q).
Proof.
  pose (key := chars "Philosophical Transactions of the Royal Society A: Mathematical, Physical and Engineering Sciences").
  split; [|split; [|split]]; intros H.
  - destruct (H (chars "Philosophical Transactions of the Royal Society A: Mathematical") key)
      as [_ B].
    assert (A : SJRDatabase.overlapAccepts
                  (MatchingUtils.significantWords
                     (MatchingUtils.normalizeString
                        (MatchingUtils.cleanConferenceTitle
                           (chars "Philosophical Transactions of the Royal Society A: Mathematical"))))
                  key = false) by (vm_compute; reflexivity).
    rewrite B in A; [discriminate|].
    split; [vm_compute; lia|]. split; vm_compute; discriminate.
  - destruct (H (chars "Philosophical Transactions of the Royal Society A: Mathematical Sciences") key)
      as [_ B].
    assert (A : MatchingUtils.sjrOverlapAccepts
                  (MatchingUtils.significantWords
                     (MatchingUtils.normalizeString
                        (MatchingUtils.cleanConferenceTitle
                           (chars "Philosophical Transactions of the Royal Society A: Mathematical Sciences"))))
                  (MatchingUtils.normalizeString (Tables.commaTruncated key)) = false)
      by (vm_compute; reflexivity).
    rewrite B in A; [discriminate|].
    split; [vm_compute; lia|]. split; vm_compute; discriminate.
  - destruct (H (chars "Philosophical Transactions of the Royal Society A: Mathematical") key)
      as [_ B].
    assert (A : SJRDatabase.overlapAccepts
                  (MatchingUtils.significantWords
                     (MatchingUtils.normalizeString
                        (MatchingUtils.cleanConferenceTitle
                           (chars "Philosophical Transactions of the Royal Society A: Mathematical"))))
                  key = false) by (vm_compute; reflexivity).
    rewrite B in A; [discriminate|].
    split; [vm_compute; lia|]. split; vm_compute; discriminate.
  - destruct (H (chars "Philosophical Transactions of the Royal Society A: Mathematical Sciences") key)
      as [_ B].
    assert (A : MatchingUtils.sjrOverlapAccepts
                  (MatchingUtils.significantWords
                     (MatchingUtils.normalizeString
                        (MatchingUtils.cleanConferenceTitle
                           (chars "Philosophical Transactions of the Royal Society A: Mathematical Sciences"))))
                  (MatchingUtils.normalizeString (Tables.commaTruncated key)) = false)
      by (vm_compute; reflexivity).
    rewrite B in A; [discriminate|].
    split; [vm_compute; lia|]. split; vm_compute; discriminate.
Qed.

(** C1, amended.  Both sides are tokenised on the spaces of their
    normalised text and only tokens longer than three code units count.
    The matches are the key's tokens, each occurrence counted, that occur
    among the title's tokens.  [SJRDatabase.matchWordOverlap] accepts a
    table key exactly when the whole key, normalised and not cut at a
    comma, has at least 5 tokens, the matches are at least 0.85 of the
    key's tokens, and the matches are at least 0.80 of the number of the
    title's tokens; it returns the ranking of the first key in table order
    that it accepts.  The older [MatchingUtils.matchSjrJournal] cuts the
    key at its first comma and asks for 0.85 on both sides.  All
    comparisons are inclusive.  The second share is not the share of the
    title's tokens that occur in the key: a key that repeats a token is
    accepted at 5 matches for 6 title tokens of which only 4 occur in
    it. *)
Theorem word_overlap_acceptance (sjrRankings : MatchingUtils.SjrTable) (title key : str) :
  let inputWords :=
    MatchingUtils.significantWords
      (MatchingUtils.normalizeString (MatchingUtils.cleanConferenceTitle title)) in
  (let keyWords :=
     MatchingUtils.significantWords (MatchingUtils.normalizeString key) in
   let m := MatchingUtils.countMatches inputWords keyWords in
   SJRDatabase.overlapAccepts inputWords key = true <->
   5 <= length keyWords /\
   (85 # 100 <= Tables.ratio m (length keyWords))%Q /\
   (80 # 100 <= Tables.ratio m (length inputWords))%Q) /\
  SJRDatabase.matchWordOverlap sjrRankings title
  = Returned (option_map (fun te => SJRDatabase.ranking (snd te))
      (Tables.firstPair (fun k _ => SJRDatabase.overlapAccepts inputWords k)
         sjrRankings)) /\
  (let keyWords :=
     MatchingUtils.significantWords
       (MatchingUtils.normalizeString (Tables.commaTruncated key)) in
   let m := MatchingUtils.countMatches inputWords keyWords in
   MatchingUtils.sjrOverlapAccepts inputWords
     (MatchingUtils.normalizeString (Tables.commaTruncated key)) = true <->
   5 <= length keyWords /\
   (85 # 100 <= Tables.ratio m (length keyWords))%Q /\
   (85 # 100 <= Tables.ratio m (length inputWords))%Q) /\
  MatchingUtils.sjrWordOverlap sjrRankings
    (MatchingUtils.normalizeString (MatchingUtils.cleanConferenceTitle title))
  = Returned (option_map snd
      (Tables.firstPair
         (fun k _ => MatchingUtils.sjrOverlapAccepts inputWords
                       (MatchingUtils.normalizeString (Tables.commaTruncated k)))
         sjrRankings)) /\
  (let repeating :=
     chars "Data Mining, Data Science Letters" in
   let longer :=
     chars "Data Mining Science Letters: Open Access" in
   let longerWords :=
     MatchingUtils.significantWords
       (MatchingUtils.normalizeString (MatchingUtils.cleanConferenceTitle longer)) in
   let repeatingWords :=
     MatchingUtils.significantWords (MatchingUtils.normalizeString repeating) in
   SJRDatabase.overlapAccepts longerWords repeating = true /\
   length longerWords = 6 /\
   length repeatingWords = 5 /\
   MatchingUtils.countMatches longerWords repeatingWords = 5 /\
   MatchingUtils.countMatches repeatingWords longerWords = 4).
Proof.
  intros inputWords.
  assert (Zero : forall ws, length inputWords = 0 ->
                   MatchingUtils.countMatches inputWords ws = 0).
  { intros ws L. destruct inputWords; [apply countMatches_nil|discriminate]. }
  split; [|split; [|split; [|split]]].
  - intros keyWords m. unfold SJRDatabase.overlapAccepts.
    fold keyWords. fold m.
    rewrite !andb_true_iff, Nat.leb_le.
    rewrite (ge_div_ratio m (length keyWords)), (ge_div_ratio m (length inputWords)).
    + tauto.
    + reflexivity.
    + apply Zero.
    + reflexivity.
    + intros L. pose proof (countMatches_le inputWords keyWords). fold m in H. lia.
  - apply matchWordOverlap_find.
  - intros keyWords m. unfold MatchingUtils.sjrOverlapAccepts.
    fold keyWords. fold m.
    rewrite !andb_true_iff, Nat.leb_le.
    assert (G : forall n, (n = 0 -> m = 0) ->
              ge (if 0 <? n then div m n else Fin 0) (85 # 100) = true
              <-> (85 # 100 <= Tables.ratio m n)%Q).
    { intros n Hn. destruct n as [|n].
      - cbn [Nat.ltb Nat.leb ge]. rewrite ratio_zero. split; [discriminate|].
        intros L. exfalso. revert L. apply Qlt_not_le. reflexivity.
      - change (0 <? S n) with true. cbv iota.
        apply ge_div_ratio; [reflexivity|exact Hn]. }
    rewrite (G (length keyWords)), (G (length inputWords)).
    + tauto.
    + apply Zero.
    + intros L. pose proof (countMatches_le inputWords keyWords). fold m in H. lia.
  - unfold MatchingUtils.sjrWordOverlap.
    rewrite (forIn_ext _ _ _
      (fun t e =>
         if MatchingUtils.sjrOverlapAccepts inputWords
              (MatchingUtils.normalizeString (Tables.commaTruncated t))
         then Returned (Some e) else Returned None)).
    + rewrite (forIn_test _ _ _ (fun _ e => e)). reflexivity.
    + intros t e. rewrite beforeComma_returns. reflexivity.
  - cbv zeta. split; [vm_compute; reflexivity|]. split; [vm_compute; reflexivity|].
    split; [vm_compute; reflexivity|]. split; vm_compute; reflexivity.
Qed.

(** ** The conference matcher: claim C5 *)

Section ConferenceLemmas.
Import NormalForm Tables MatchingUtils.
Variable coreRankings : CoreTable.

Lemma acronymMatches_filter a :
  acronymMatches coreRankings a
  = map (fun te => (fst te, rank (snd te), normalizeString (fst te)))
        (filter (hasAcronym a) coreRankings).
Proof.
  unfold acronymMatches. induction coreRankings as [|[t e] table IH]; [reflexivity|].
  cbn [flat_map filter]. unfold hasAcronym at 1. cbn [snd fst].
  destruct (acronym e) as [x|]; [|exact IH].
  destruct (str_eqb x a); cbn [app map fst snd]; rewrite IH; reflexivity.
Qed.

(** The last strategy on its own. *)
Lemma coreAcronym_cases (zoteroAcronym : option str) :
  (forall a, zoteroAcronym = Some a -> 4 <= length a ->
     (forall t e, filter (hasAcronym a) coreRankings = [(t, e)] ->
        coreAcronym coreRankings zoteroAcronym = Returned (Some (rank e))) /\
     (length (filter (hasAcronym a) coreRankings) <> 1 ->
        coreAcronym coreRankings zoteroAcronym = Returned None)) /\
  (forall a, zoteroAcronym = Some a -> length a < 4 ->
     coreAcronym coreRankings zoteroAcronym = Returned None) /\
  (zoteroAcronym = None -> coreAcronym coreRankings zoteroAcronym = Returned None).
Proof.
  split; [|split].
  - intros a -> L. unfold coreAcronym.
    assert (G : negb (length a =? 0) && (4 <=? length a) = true).
    { apply andb_true_iff. split.
      - destruct a; [simpl in L; lia|reflexivity].
      - apply Nat.leb_le, L. }
    rewrite G. rewrite acronymMatches_filter. rewrite length_map. split.
    + intros t e F. rewrite F. reflexivity.
    + intros N. apply Nat.eqb_neq in N. rewrite N. reflexivity.
  - intros a -> L. unfold coreAcronym.
    assert (G : (4 <=? length a) = false) by (apply Nat.leb_gt, L).
    rewrite G, andb_false_r. reflexivity.
  - intros ->. reflexivity.
Qed.

Lemma matchCoreConference_after_four title :
  let normalizedZotero := normalizeString (cleanConferenceTitle title) in
  coreExact coreRankings normalizedZotero = Returned None ->
  coreSubstring coreRankings normalizedZotero = Returned None ->
  coreReverseSubstring coreRankings normalizedZotero = Returned None ->
  coreWordOverlap coreRankings normalizedZotero = Returned None ->
  matchCoreConference coreRankings title
  = coreAcronym coreRankings (extractAcronym title).
Proof.
  intros nz H1 H2 H3 H4. unfold matchCoreConference. fold nz.
  rewrite H1. cbn [bind]. rewrite H2. cbn [bind]. rewrite H3. cbn [bind].
  rewrite H4. reflexivity.
Qed.

End ConferenceLemmas.

(** C5.  When the first four strategies of the conference matcher all
    fail: with an extracted acronym of at least 4 code units the matcher
    returns the rank of the one table entry that stores this acronym, and
    absent when no entry or more than one stores it; with a shorter
    acronym, or none, the acronym is not looked up and the matcher returns
    absent. *)
Theorem acronym_is_used_last_and_only_when_unique
    (coreRankings : MatchingUtils.CoreTable) (title : str) :
  let normalizedZotero :=
    MatchingUtils.normalizeString (MatchingUtils.cleanConferenceTitle title) in
  MatchingUtils.coreExact coreRankings normalizedZotero = Returned None ->
  MatchingUtils.coreSubstring coreRankings normalizedZotero = Returned None ->
  MatchingUtils.coreReverseSubstring coreRankings normalizedZotero = Returned None ->
  MatchingUtils.coreWordOverlap coreRankings normalizedZotero = Returned None ->
  (forall a, MatchingUtils.extractAcronym title = Some a -> 4 <= length a ->
     (forall t e, filter (Tables.hasAcronym a) coreRankings = [(t, e)] ->
        MatchingUtils.matchCoreConference coreRankings title
        = Returned (Some (MatchingUtils.rank e))) /\
     (length (filter (Tables.hasAcronym a) coreRankings) <> 1 ->
        MatchingUtils.matchCoreConference coreRankings title = Returned None)) /\
  (forall a, MatchingUtils.extractAcronym title = Some a -> length a < 4 ->
     MatchingUtils.matchCoreConference coreRankings title = Returned None) /\
  (MatchingUtils.extractAcronym title = None ->
     MatchingUtils.matchCoreConference coreRankings title = Returned None).
Proof.
  intros nz H1 H2 H3 H4.
  rewrite (matchCoreConference_after_four coreRankings title H1 H2 H3 H4).
  apply coreAcronym_cases.
Qed.

(** C5 at a table in which ISCA is the acronym of one entry and ICSE of
    two: a title that only carries the acronym ISCA gets that entry's
    rank. *)
Lemma acronym_is_used_last_and_only_when_unique_witness :
  let entry r a := {| MatchingUtils.rank := r; MatchingUtils.acronym := Some a |} in
  let coreRankings : MatchingUtils.CoreTable :=
    [(chars "International Conference on Software Engineering",
      entry (chars "A*") (chars "ICSE"));
     (chars "International Symposium on Computer Architecture",
      entry (chars "A") (chars "ISCA"));
     (chars "International Conference on Scalable Engineering",
      entry (chars "C") (chars "ICSE"))] in
  let title := chars "Proc. ISCA (ISCA)" in
  let normalizedZotero :=
    MatchingUtils.normalizeString (MatchingUtils.cleanConferenceTitle title) in
  MatchingUtils.coreExact coreRankings normalizedZotero = Returned None /\
  MatchingUtils.coreSubstring coreRankings normalizedZotero = Returned None /\
  MatchingUtils.coreReverseSubstring coreRankings normalizedZotero = Returned None /\
  MatchingUtils.coreWordOverlap coreRankings normalizedZotero = Returned None /\
  MatchingUtils.extractAcronym title = Some (chars "ISCA") /\
  MatchingUtils.matchCoreConference coreRankings title = Returned (Some (chars "A")) /\
  MatchingUtils.matchCoreConference coreRankings (chars "Proc. ICSE (ICSE)")
  = Returned None.
Proof.
  intros entry coreRankings title normalizedZotero.
  assert (H1 : MatchingUtils.coreExact coreRankings normalizedZotero = Returned None)
    by (vm_compute; reflexivity).
  assert (H2 : MatchingUtils.coreSubstring coreRankings normalizedZotero = Returned None)
    by (vm_compute; reflexivity).
  assert (H3 : MatchingUtils.coreReverseSubstring coreRankings normalizedZotero = Returned None)
    by (vm_compute; reflexivity).
  assert (H4 : MatchingUtils.coreWordOverlap coreRankings normalizedZotero = Returned None)
    by (vm_compute; reflexivity).
  split; [exact H1|]. split; [exact H2|]. split; [exact H3|]. split; [exact H4|].
  split; [vm_compute; reflexivity|]. split.
  - destruct (acronym_is_used_last_and_only_when_unique coreRankings title H1 H2 H3 H4)
      as [A _].
    destruct (A (chars "ISCA") ltac:(vm_compute; reflexivity) ltac:(simpl; lia)) as [U _].
    apply (U (chars "International Symposium on Computer Architecture")
             (entry (chars "A") (chars "ISCA"))).
    vm_compute; reflexivity.
  - vm_compute; reflexivity.
Defined.

(** ** Totality of the matchers: claim C9 *)

Section Totality.
Import NormalForm Tables MatchingUtils.

Lemma normalizeString_toLowerCase s :
  normalizeString (toLowerCase s) = normalizeString s.
Proof. unfold normalizeString. rewrite toLowerCase_idem. reflexivity. Qed.

Lemma significantWords_nil : significantWords [] = [].
Proof. reflexivity. Qed.

Lemma overlapAccepts_counts words key :
  SJRDatabase.overlapAccepts words key = true ->
  0 < length words /\ 5 <= length (significantWords (normalizeString key)).
Proof.
  unfold SJRDatabase.overlapAccepts. rewrite !andb_true_iff, Nat.leb_le.
  intros [[L A] B]. split; [|exact L].
  destruct words as [|w words]; [|simpl; lia].
  rewrite countMatches_nil in B. discriminate B.
Qed.

Lemma sjrOverlapAccepts_counts words cleanedSJR :
  sjrOverlapAccepts words cleanedSJR = true ->
  0 < length words /\ 5 <= length (significantWords cleanedSJR).
Proof.
  unfold sjrOverlapAccepts. rewrite !andb_true_iff, Nat.leb_le.
  intros [[L A] B]. split; [|exact L].
  destruct words as [|w words]; [|simpl; lia].
  discriminate B.
Qed.

Lemma coreOverlapAccepts_counts zoteroWords normalizedCore :
  coreOverlapAccepts zoteroWords normalizedCore = true ->
  0 < length zoteroWords /\ 4 <= length (significantWords normalizedCore).
Proof.
  unfold coreOverlapAccepts. rewrite !andb_true_iff, Nat.leb_le.
  intros [L A]. split; [|exact L].
  destruct zoteroWords as [|w words]; [|simpl; lia].
  rewrite countMatches_nil in A.
  destruct (length (significantWords normalizedCore)); [lia|discriminate A].
Qed.

Variable coreRankings : CoreTable.
Variable sjrRankings : SjrTable.

Lemma coreAcronym_returns z : exists r, coreAcronym coreRankings z = Returned r.
Proof.
  unfold coreAcronym. destruct z as [a|]; [|eexists; reflexivity].
  destruct (negb (length a =? 0) && (4 <=? length a)); [|eexists; reflexivity].
  destruct (acronymMatches coreRankings a) as [|m [|m' ms]];
    cbn [length Nat.eqb]; eexists; reflexivity.
Qed.

Lemma matchCoreConference_returns title :
  exists r, matchCoreConference coreRankings title = Returned r.
Proof.
  unfold matchCoreConference, coreExact, coreSubstring, coreReverseSubstring,
    coreWordOverlap.
  repeat (rewrite forIn_test; cbn [bind];
          match goal with
          | |- context [option_map ?f ?x] => destruct (option_map f x)
          end; [eexists; reflexivity|]).
  apply coreAcronym_returns.
Qed.

Lemma sjrCleaned_find cleaned :
  sjrCleaned sjrRankings cleaned
  = Returned (option_map snd
      (firstPair (fun k _ =>
         str_eqb (normalizeString (commaTruncated k)) cleaned
         && (10 <? length cleaned)) sjrRankings)).
Proof.
  unfold sjrCleaned.
  rewrite (forIn_ext _ _ _
    (fun t e =>
       if str_eqb (normalizeString (commaTruncated t)) cleaned && (10 <? length cleaned)
       then Returned (Some e) else Returned None)).
  - rewrite (forIn_test _ _ _ (fun _ e => e)). reflexivity.
  - intros t e. rewrite beforeComma_returns. reflexivity.
Qed.

Lemma sjrWordOverlap_find cleaned :
  sjrWordOverlap sjrRankings cleaned
  = Returned (option_map snd
      (firstPair (fun k _ =>
         sjrOverlapAccepts (significantWords cleaned)
           (normalizeString (commaTruncated k))) sjrRankings)).
Proof.
  unfold sjrWordOverlap.
  rewrite (forIn_ext _ _ _
    (fun t e =>
       if sjrOverlapAccepts (significantWords cleaned)
            (normalizeString (commaTruncated t))
       then Returned (Some e) else Returned None)).
  - rewrite (forIn_test _ _ _ (fun _ e => e)). reflexivity.
  - intros t e. rewrite beforeComma_returns. reflexivity.
Qed.

Lemma matchFuzzy_find title :
  SJRDatabase.matchFuzzy sjrRankings title
  = Returned (option_map (fun te => SJRDatabase.ranking (snd te))
      (firstPair (fun k _ =>
         str_eqb (normalizeString (commaTruncated k))
                 (normalizeString (cleanConferenceTitle title))
         && (10 <? length (normalizeString (commaTruncated k)))) sjrRankings)).
Proof.
  unfold SJRDatabase.matchFuzzy.
  rewrite (forIn_ext _ _ _
    (fun t e =>
       if str_eqb (normalizeString (commaTruncated t))
                  (normalizeString (cleanConferenceTitle title))
          && (10 <? length (normalizeString (commaTruncated t)))
       then Returned (Some (SJRDatabase.ranking e)) else Returned None)).
  - rewrite (forIn_test _ _ _ (fun _ e => SJRDatabase.ranking e)). reflexivity.
  - intros t e. rewrite beforeComma_returns. reflexivity.
Qed.

Lemma matchSjrJournal_returns title :
  exists r, matchSjrJournal sjrRankings title = Returned r.
Proof.
  unfold matchSjrJournal, sjrNormalizedExact.
  rewrite forIn_test. cbn [bind].
  destruct (option_map _ _); [eexists; reflexivity|].
  rewrite sjrCleaned_find. cbn [bind].
  destruct (option_map _ _); [eexists; reflexivity|].
  rewrite sjrWordOverlap_find. eexists; reflexivity.
Qed.

Lemma match_returns title :
  exists r, SJRDatabase.match_ sjrRankings title = Returned r.
Proof.
  unfold SJRDatabase.match_, SJRDatabase.orElse.
  rewrite matchExact_find, matchFuzzy_find, matchWordOverlap_find. cbn [bind].
  destruct (option_map _ _) as [[|c s]|]; try (eexists; reflexivity);
    destruct (option_map _ _) as [[|c' s']|]; eexists; reflexivity.
Qed.

End Totality.

Section Degenerate.
Import NormalForm Tables MatchingUtils.
Variable coreRankings : CoreTable.
Variable sjrRankings : SjrTable.

Lemma forIn_none {E R : Type} (test : str -> E -> bool) (res : str -> E -> R)
    (table : list (str * E)) :
  (forall t e, In (t, e) table -> test t e = false) ->
  forIn (fun t e => if test t e then Returned (Some (res t e)) else Returned None) table
  = Returned None.
Proof.
  intros H. rewrite forIn_test.
  rewrite (proj2 (firstPair_none _ _ _) H). reflexivity.
Qed.

Lemma matchCoreConference_empty title :
  normalizeString (cleanConferenceTitle title) = [] ->
  extractAcronym title = None ->
  (forall k e, In (k, e) coreRankings -> normalizeString k <> []) ->
  matchCoreConference coreRankings title = Returned None.
Proof.
  intros N A K.
  rewrite matchCoreConference_after_four; rewrite ?N.
  - rewrite A. reflexivity.
  - apply forIn_none. intros k e I. apply str_eqb_neq. apply (K k e I).
  - apply forIn_none. intros k e I. specialize (K k e I).
    destruct (normalizeString k); [contradiction|reflexivity].
  - apply forIn_none. intros k e I. apply andb_false_r.
  - unfold coreWordOverlap. apply forIn_none. intros k e I.
    destruct (coreOverlapAccepts (significantWords []) (normalizeString k)) eqn:C;
      [|reflexivity].
    apply coreOverlapAccepts_counts in C as [C _]. simpl in C. lia.
Qed.

Lemma matchSjrJournal_empty title :
  normalizeString (cleanConferenceTitle title) = [] ->
  normalizeString (toLowerCase title) = [] ->
  (forall k e, In (k, e) sjrRankings -> normalizeString k <> []) ->
  matchSjrJournal sjrRankings title = Returned None.
Proof.
  intros N L K. unfold matchSjrJournal, sjrNormalizedExact. rewrite L, N.
  rewrite (forIn_none _ (fun _ e => e)).
  - cbn [bind]. rewrite sjrCleaned_find.
    rewrite (proj2 (firstPair_none _ _ _)).
    + cbn [option_map bind]. rewrite sjrWordOverlap_find.
      rewrite (proj2 (firstPair_none _ _ _)); [reflexivity|].
      intros k e I.
      destruct (sjrOverlapAccepts (significantWords [])
                  (normalizeString (commaTruncated k))) eqn:C; [|reflexivity].
      apply sjrOverlapAccepts_counts in C as [C _]. simpl in C. lia.
    + intros k e I. apply andb_false_r.
  - intros k e I. apply str_eqb_neq. apply (K k e I).
Qed.

Lemma match_empty title :
  normalizeString (cleanConferenceTitle title) = [] ->
  normalizeString (toLowerCase title) = [] ->
  (forall k e, In (k, e) sjrRankings -> normalizeString k <> []) ->
  SJRDatabase.match_ sjrRankings title = Returned None.
Proof.
  intros N L K. unfold SJRDatabase.match_, SJRDatabase.orElse.
  rewrite matchExact_find, matchFuzzy_find, matchWordOverlap_find. rewrite N.
  rewrite !(proj2 (firstPair_none _ _ _)); [reflexivity| | |].
  - intros k e I.
    destruct (SJRDatabase.overlapAccepts (significantWords []) k) eqn:C; [|reflexivity].
    apply overlapAccepts_counts in C as [C _]. simpl in C. lia.
  - intros k e I.
    destruct (str_eqb (normalizeString (commaTruncated k)) []) eqn:E; [|reflexivity].
    apply str_eqb_eq in E. rewrite E. reflexivity.
  - intros k e I. apply str_eqb_neq. intros E.
    apply (K k e I). rewrite <- normalizeString_toLowerCase, E. exact L.
Qed.

End Degenerate.

(** ** Titles of punctuation only *)

Section Marks.
Import NormalForm MatchingUtils.

Lemma suffix_refl s : suffix s s.
Proof. exists []. reflexivity. Qed.

Lemma suffix_trans a b c : suffix a b -> suffix b c -> suffix a c.
Proof.
  intros [p ->] [q ->]. exists (q ++ p). apply app_assoc.
Qed.

Lemma suffix_Forall (P : ascii -> Prop) t s : suffix t s -> Forall P s -> Forall P t.
Proof. intros [p ->] F. apply Forall_app in F. apply F. Qed.

(** A match ends inside the text it was started on. *)
Lemma run_suffix r : forall prev s (k : K) x,
  run r prev s k = Some x ->
  exists prev' s', suffix s' s /\ k prev' s' = Some x.
Proof.
  induction r as [p| |r1 IH1 r2 IH2|r1 IH1 r2 IH2|r1 IH1| | |];
    intros prev s k x H; cbn [run] in H.
  - destruct s as [|c s]; [discriminate|].
    destruct (p c); [|discriminate].
    exists (Some c), s. split; [exists [c]; reflexivity|exact H].
  - exists prev, s. split; [apply suffix_refl|exact H].
  - apply IH1 in H as (p1 & s1 & S1 & H).
    apply IH2 in H as (p2 & s2 & S2 & H).
    exists p2, s2. split; [eapply suffix_trans; eauto|exact H].
  - destruct (run r1 prev s k) eqn:E.
    + inversion H; subst. apply IH1 in E. exact E.
    + apply IH2 in H. exact H.
  - remember (length s) as n eqn:Hn. clear Hn.
    revert prev s H. induction n as [|n IHn]; intros prev s H; cbn [iterate] in H.
    + exists prev, s. split; [apply suffix_refl|exact H].
    + destruct (run r1 prev s _) eqn:E.
      * inversion H; subst. apply IH1 in E as (p1 & s1 & S1 & E).
        destruct (length s1 <? length s); [|discriminate].
        apply IHn in E as (p2 & s2 & S2 & E).
        exists p2, s2. split; [eapply suffix_trans; eauto|exact E].
      * exists prev, s. split; [apply suffix_refl|exact H].
  - destruct prev; [discriminate|].
    exists None, s. split; [apply suffix_refl|exact H].
  - destruct s; [|discriminate].
    exists prev, []. split; [apply suffix_refl|exact H].
  - destruct (xorb _ _); [|discriminate].
    exists prev, s. split; [apply suffix_refl|exact H].
Qed.

Lemma exec_suffix r prev s prev' rest :
  exec r prev s = Some (prev', rest) -> suffix rest s.
Proof.
  intros H. apply run_suffix in H as (p & s' & S & H).
  inversion H; subst. exact S.
Qed.

(** A replacement only writes code units of the input and of the
    replacement text. *)
Lemma replace_from_Forall (P : ascii -> Prop) r rep : forall fuel prev s,
  Forall P rep -> Forall P s -> Forall P (replace_from fuel r rep prev s).
Proof.
  induction fuel as [|fuel IH]; intros prev s Fr Fs; [exact Fs|].
  cbn [replace_from].
  assert (Step : Forall P match s with
                          | [] => []
                          | c :: s' => c :: replace_from fuel r rep (Some c) s'
                          end).
  { destruct s as [|c s']; [constructor|].
    inversion Fs; subst. constructor; [assumption|apply IH; assumption]. }
  destruct (exec r prev s) as [[prev' rest]|] eqn:E; [|exact Step].
  apply exec_suffix in E.
  destruct (length rest <? length s).
  - apply Forall_app. split; [exact Fr|].
    apply IH; [exact Fr|]. eapply suffix_Forall; eauto.
  - apply Forall_app. split; [exact Fr|exact Step].
Qed.

Lemma replace_Forall (P : ascii -> Prop) r rep s :
  Forall P (chars rep) -> Forall P s -> Forall P (replace r rep s).
Proof. intros Fr Fs. apply replace_from_Forall; assumption. Qed.

Lemma trimStart_suffix s : suffix (trimStart s) s.
Proof.
  induction s as [|c s [p IH]]; [apply suffix_refl|].
  cbn [trimStart]. destruct (is_space c); [|apply suffix_refl].
  exists (c :: p). cbn [app]. rewrite <- IH. reflexivity.
Qed.

Lemma trim_Forall (P : ascii -> Prop) s : Forall P s -> Forall P (trim s).
Proof.
  intros F. unfold trim, trimEnd. apply Forall_rev.
  eapply suffix_Forall; [apply trimStart_suffix|]. apply Forall_rev.
  eapply suffix_Forall; [apply trimStart_suffix|exact F].
Qed.

(** Cleaning a title only deletes code units or writes a space. *)
Lemma cleanConferenceTitle_Forall (P : ascii -> Prop) title :
  P " "%char -> Forall P title -> Forall P (cleanConferenceTitle title).
Proof.
  intros Sp F. unfold cleanConferenceTitle.
  apply trim_Forall.
  apply replace_Forall; [repeat constructor; exact Sp|].
  repeat (apply replace_Forall; [constructor|]).
  exact F.
Qed.

Lemma mark_lower c : is_mark c = true -> is_mark (toLowerChar c) = true.
Proof. by_cases_on_ascii c. Qed.

Lemma mark_not_word c : is_mark c = true -> is_word c = false.
Proof. by_cases_on_ascii c. Qed.

Lemma mark_not_amp c : is_mark c = true -> Ascii.eqb amp c = false.
Proof. by_cases_on_ascii c. Qed.

Lemma chunk_marks s :
  Forall (fun c => is_word c = false) s ->
  fst (chunk s) = [] /\ Forall (fun ct => snd ct = []) (snd (chunk s)).
Proof.
  induction 1 as [|c s C _ [IH1 IH2]]; [split; constructor|].
  cbn [chunk]. destruct (chunk s) as [t l]. cbn [fst snd] in *.
  rewrite C. cbn [fst snd]. split; [reflexivity|].
  constructor; [exact IH1|exact IH2].
Qed.

(** A string of marks has the empty normal form. *)
Lemma normalizeString_marks s :
  Forall (fun c => is_mark c = true) s -> normalizeString s = [].
Proof.
  intros F. rewrite normalizeString_words.
  assert (W : Forall (fun c => is_word c = false) (prepared s)).
  { unfold prepared. rewrite replace_chr. unfold toLowerCase.
    induction F as [|c s C _ IH]; [constructor|].
    cbn [map flat_map]. apply mark_lower in C.
    rewrite (mark_not_amp _ C). cbn [app].
    constructor; [apply mark_not_word, C|exact IH]. }
  destruct (chunk_marks _ W) as [T L].
  unfold words, runs. rewrite T.
  match goal with
  | |- joinWords (map fixTelecom ?x) = [] => assert (E : x = [])
  end.
  { cbn [filter nonempty length Nat.eqb negb].
    induction L as [|[c t] l Hc _ IH]; [reflexivity|].
    cbn [map snd] in *. subst t. exact IH. }
  rewrite E. reflexivity.
Qed.

Lemma exec_acronym_upper prev s x :
  exec re_acronym prev s = Some x ->
  exists c u rest, s = c :: u :: rest /\ is_upper u = true.
Proof.
  unfold exec, re_acronym. cbn [run].
  destruct s as [|c [|u rest]]; try discriminate.
  - destruct (Ascii.eqb "(" c); discriminate.
  - destruct (Ascii.eqb "(" c); [|discriminate].
    destruct (is_upper u) eqn:U; [|discriminate].
    intros _. exists c, u, rest. split; [reflexivity|exact U].
Qed.

Lemma upper_word c : is_upper c = true -> is_word c = true.
Proof. by_cases_on_ascii c. Qed.

(** A title without capitals carries no acronym. *)
Lemma extractAcronym_marks title :
  Forall (fun c => is_mark c = true) title -> extractAcronym title = None.
Proof.
  intros F. unfold extractAcronym.
  assert (S : forall prev, search re_acronym prev title = None).
  { induction F as [|c s C F IH]; intros prev.
    - reflexivity.
    - cbn [search]. destruct (exec re_acronym prev (c :: s)) as [[p r]|] eqn:E.
      + apply exec_acronym_upper in E as (c' & u & rest & E & U).
        inversion E; subst. inversion F as [|? ? Cu _]; subst.
        apply mark_not_word in Cu. apply upper_word in U. congruence.
      + apply IH. }
  rewrite S. reflexivity.
Qed.

Lemma marks_toLowerCase s :
  Forall (fun c => is_mark c = true) s ->
  Forall (fun c => is_mark c = true) (toLowerCase s).
Proof.
  intros F. unfold toLowerCase. apply Forall_map.
  eapply Forall_impl; [|exact F]. apply mark_lower.
Qed.

End Marks.

(** C9 as stated fails in its last part: the title [&] has no alphabetic
    content, its normal form is [and], and a table whose key normalises
    to [and] gives it a rank. *)
Lemma letterless_title_can_match :
  ~ (forall (coreRankings : MatchingUtils.CoreTable) (title : str),
       (forall c, In c title -> is_alpha c = false) ->
       MatchingUtils.matchCoreConference coreRankings title = Returned None).
Proof.
  intros H.
  specialize (H [(chars "And",
                  {| MatchingUtils.rank := chars "C"; MatchingUtils.acronym := None |})]
                (chars "&")).
  assert (A : forall c, In c (chars "&") -> is_alpha c = false).
  { intros c [<-|[]]. reflexivity. }
  specialize (H A). vm_compute in H. discriminate H.
Qed.

(** C9, amended.  On every title and every table the conference matcher
    and both journal matchers return, a ranking or absent, and never throw;
    a key is only accepted by a word-overlap test when both token counts it
    divides by are positive.  A title without any letter, digit, underscore
    or ampersand (the empty string, white space, punctuation) yields absent
    as long as no table key has an empty normal form; so does every title
    whose normal form is empty, raw and cleaned, and which carries no
    acronym.  A title without letters is otherwise matched like any
    other. *)
Theorem matchers_return_on_every_title
    (coreRankings : MatchingUtils.CoreTable) (sjrRankings : MatchingUtils.SjrTable)
    (title : str) :
  (exists r, MatchingUtils.matchCoreConference coreRankings title = Returned r) /\
  (exists r, MatchingUtils.matchSjrJournal sjrRankings title = Returned r) /\
  (exists r, SJRDatabase.match_ sjrRankings title = Returned r) /\
  (forall zoteroWords normalizedCore,
     MatchingUtils.coreOverlapAccepts zoteroWords normalizedCore = true ->
     0 < length zoteroWords /\
     4 <= length (MatchingUtils.significantWords normalizedCore)) /\
  (forall words cleanedSJR,
     MatchingUtils.sjrOverlapAccepts words cleanedSJR = true ->
     0 < length words /\ 5 <= length (MatchingUtils.significantWords cleanedSJR)) /\
  (forall words key,
     SJRDatabase.overlapAccepts words key = true ->
     0 < length words /\
     5 <= length (MatchingUtils.significantWords (MatchingUtils.normalizeString key))) /\
  (Forall (fun c => NormalForm.is_mark c = true) title ->
   ((forall k e, In (k, e) coreRankings -> MatchingUtils.normalizeString k <> []) ->
    MatchingUtils.matchCoreConference coreRankings title = Returned None) /\
   ((forall k e, In (k, e) sjrRankings -> MatchingUtils.normalizeString k <> []) ->
    MatchingUtils.matchSjrJournal sjrRankings title = Returned None /\
    SJRDatabase.match_ sjrRankings title = Returned None)) /\
  (MatchingUtils.normalizeString (MatchingUtils.cleanConferenceTitle title) = [] ->
   MatchingUtils.extractAcronym title = None ->
   (forall k e, In (k, e) coreRankings -> MatchingUtils.normalizeString k <> []) ->
   MatchingUtils.matchCoreConference coreRankings title = Returned None) /\
  (MatchingUtils.normalizeString (MatchingUtils.cleanConferenceTitle title) = [] ->
   MatchingUtils.normalizeString (toLowerCase title) = [] ->
   (forall k e, In (k, e) sjrRankings -> MatchingUtils.normalizeString k <> []) ->
   MatchingUtils.matchSjrJournal sjrRankings title = Returned None /\
   SJRDatabase.match_ sjrRankings title = Returned None) /\
  Forall (fun c => NormalForm.is_mark c = true) (chars " - (...) !? ").
Proof.
  split; [apply matchCoreConference_returns|].
  split; [apply matchSjrJournal_returns|].
  split; [apply match_returns|].
  split; [apply coreOverlapAccepts_counts|].
  split; [apply sjrOverlapAccepts_counts|].
  split; [apply overlapAccepts_counts|].
  split; [|split; [apply matchCoreConference_empty|split]].
  - intros M.
    assert (C : MatchingUtils.normalizeString (MatchingUtils.cleanConferenceTitle title) = []).
    { apply normalizeString_marks.
      apply cleanConferenceTitle_Forall; [reflexivity|exact M]. }
    assert (L : MatchingUtils.normalizeString (toLowerCase title) = []).
    { apply normalizeString_marks, marks_toLowerCase, M. }
    split.
    + intros K. apply matchCoreConference_empty; auto.
      apply extractAcronym_marks, M.
    + intros K. split; [apply matchSjrJournal_empty|apply match_empty]; assumption.
  - intros N L K. split; [apply matchSjrJournal_empty|apply match_empty]; assumption.
  - repeat constructor.
Qed.

(* ================================================================== *)
(** * Further properties of the code *)
(** ** More on maps *)

Section MoreMapLemmas.
Import Invariants.
Variable V : Type.

Lemma get_In (k : str) (v : V) m : JSMap.get k m = Some v -> In (k, v) m.
Proof.
  induction m as [|[k' v'] m IH]; [discriminate|].
  cbn [JSMap.get]. destruct (str_eqb k' k) eqn:E.
  - apply str_eqb_eq in E. subst k'. intros H; inversion H; subst. left; reflexivity.
  - intros H. right. apply IH, H.
Qed.

Lemma get_none_keys (k : str) (m : JSMap.t V) :
  JSMap.get k m = None <-> ~ In k (JSMap.keys m).
Proof.
  induction m as [|[k' v'] m IH]; cbn [JSMap.get JSMap.keys map fst].
  - split; auto.
  - destruct (str_eqb k' k) eqn:E.
    + apply str_eqb_eq in E. subst k'. split; [discriminate|]. intros N. contradiction N. left; reflexivity.
    + apply str_eqb_neq in E. rewrite IH. unfold JSMap.keys. split.
      * intros N [A|A]; [contradiction|apply N, A].
      * intros N A. apply N. right; exact A.
Qed.

Lemma In_get (k : str) (v : V) m :
  uniqueKeys m -> In (k, v) m -> JSMap.get k m = Some v.
Proof.
  unfold uniqueKeys. induction m as [|[k' v'] m IH]; [intros _ []|].
  cbn [JSMap.keys map fst JSMap.get]. intros U [A|A].
  - inversion A; subst. rewrite str_eqb_refl. reflexivity.
  - inversion U as [|? ? N U']; subst.
    destruct (str_eqb k' k) eqn:E.
    + apply str_eqb_eq in E. subst k'. contradiction N.
      apply (in_map fst) in A. exact A.
    + apply IH; assumption.
Qed.

Lemma keys_set (k : str) (v : V) m :
  JSMap.keys (JSMap.set k v m)
  = if JSMap.has k m then JSMap.keys m else JSMap.keys m ++ [k].
Proof.
  unfold JSMap.has, JSMap.keys. induction m as [|[k' v'] m IH]; [reflexivity|].
  cbn [JSMap.set JSMap.get]. destruct (str_eqb k' k) eqn:E; [reflexivity|].
  cbn [map fst]. rewrite IH.
  destruct (JSMap.get k m); reflexivity.
Qed.

Lemma set_unique (k : str) (v : V) m : uniqueKeys m -> uniqueKeys (JSMap.set k v m).
Proof.
  unfold uniqueKeys. intros U. rewrite keys_set.
  destruct (JSMap.has k m) eqn:H; [exact U|].
  apply NoDup_app; [exact U|repeat constructor; intros []|].
  intros x Hx [A|[]]. subst x. unfold JSMap.has in H.
  destruct (JSMap.get k m) eqn:G; [discriminate|].
  apply get_none_keys in G. contradiction.
Qed.

Lemma delete_unique (k : str) (m : JSMap.t V) : uniqueKeys m -> uniqueKeys (JSMap.delete k m).
Proof.
  unfold uniqueKeys, JSMap.delete, JSMap.keys. induction m as [|[k' v'] m IH]; [auto|].
  cbn [map fst filter]. intros U. inversion U as [|? ? N U']; subst.
  destruct (negb (str_eqb k' k)); [|apply IH, U'].
  cbn [map fst]. constructor; [|apply IH, U'].
  intros A. apply N. apply in_map_iff in A as ([k0 v0] & E & A). cbn [fst] in E. subst k0.
  apply filter_In in A as [A _]. apply (in_map fst) in A. exact A.
Qed.

Lemma get_delete_other (k k' : str) (m : JSMap.t V) :
  k' <> k -> JSMap.get k' (JSMap.delete k m) = JSMap.get k' m.
Proof.
  intros N. unfold JSMap.delete. induction m as [|[k0 v0] m IH]; [reflexivity|].
  cbn [filter fst JSMap.get]. destruct (str_eqb k0 k) eqn:E; cbn [negb JSMap.get].
  - apply str_eqb_eq in E. subst k0.
    destruct (str_eqb k k') eqn:E'; [apply str_eqb_eq in E'; congruence|exact IH].
  - rewrite IH. reflexivity.
Qed.

Lemma delete_absent (k : str) (m : JSMap.t V) :
  JSMap.has k m = false -> JSMap.delete k m = m.
Proof.
  unfold JSMap.has, JSMap.delete. induction m as [|[k' v'] m IH]; [reflexivity|].
  cbn [JSMap.get filter fst]. destruct (str_eqb k' k); [discriminate|].
  intros H. cbn [negb]. rewrite IH by exact H. reflexivity.
Qed.

Lemma size_delete (k : str) (m : JSMap.t V) :
  uniqueKeys m -> JSMap.has k m = true ->
  S (JSMap.size (JSMap.delete k m)) = JSMap.size m.
Proof.
  unfold uniqueKeys, JSMap.has, JSMap.size. induction m as [|[k' v'] m IH]; [discriminate|].
  cbn [JSMap.keys map fst JSMap.get]. intros U H. inversion U as [|? ? N U']; subst.
  unfold JSMap.delete in *. cbn [filter fst].
  destruct (str_eqb k' k) eqn:E; cbn [negb length].
  - apply str_eqb_eq in E. subst k'.
    assert (A : JSMap.has k m = false).
    { unfold JSMap.has. destruct (JSMap.get k m) eqn:G; [|reflexivity].
      apply get_In in G. apply (in_map fst) in G. contradiction. }
    pose proof (delete_absent k m A) as D. unfold JSMap.delete in D. rewrite D. reflexivity.
  - rewrite IH; auto.
Qed.

Lemma size_set (k : str) (v : V) m :
  JSMap.size (JSMap.set k v m)
  = if JSMap.has k m then JSMap.size m else S (JSMap.size m).
Proof.
  unfold JSMap.size. rewrite <- !(length_map fst).
  change (map fst (JSMap.set k v m)) with (JSMap.keys (JSMap.set k v m)).
  rewrite keys_set. destruct (JSMap.has k m); [reflexivity|].
  rewrite length_app. simpl. unfold JSMap.keys. lia.
Qed.

Lemma ofEntries_unique (es : list (str * V)) : uniqueKeys (JSMap.ofEntries es).
Proof.
  unfold JSMap.ofEntries.
  assert (G : forall m, uniqueKeys m ->
            uniqueKeys (fold_left (fun m kv => JSMap.set (fst kv) (snd kv) m) es m)).
  { induction es as [|[k v] es IH]; intros m U; [exact U|].
    cbn [fold_left]. apply IH. apply set_unique, U. }
  apply G. constructor.
Qed.

(** Entries with distinct keys build the map they are. *)
Lemma ofEntries_id (m : JSMap.t V) : uniqueKeys m -> JSMap.ofEntries m = m.
Proof.
  unfold JSMap.ofEntries.
  assert (G : forall (es acc : list (str * V)), uniqueKeys (acc ++ es) ->
            fold_left (fun (m : JSMap.t V) (kv : str * V) =>
                         JSMap.set (fst kv) (snd kv) m) es acc = acc ++ es).
  { induction es as [|[k v] es IH]; intros acc U; [rewrite app_nil_r; reflexivity|].
    cbn [fold_left fst snd].
    assert (S1 : JSMap.set k v acc = acc ++ [(k, v)]).
    { assert (N : ~ In k (JSMap.keys acc)).
      { unfold uniqueKeys, JSMap.keys in U. rewrite map_app in U.
        apply NoDup_remove_2 in U. cbn [map fst] in U.
        intros A. apply U. apply in_or_app. left. exact A. }
      clear U IH. induction acc as [|[k' v'] acc IHa]; [reflexivity|].
      cbn [JSMap.set]. destruct (str_eqb k' k) eqn:E.
      - apply str_eqb_eq in E. subst k'. contradiction N. left; reflexivity.
      - cbn [app]. rewrite IHa; [reflexivity|].
        intros A. apply N. right. exact A. }
    rewrite S1. rewrite IH; rewrite <- app_assoc; [reflexivity|exact U]. }
  intros U. apply (G m []). exact U.
Qed.

End MoreMapLemmas.

(** ** More on the registry *)

Section MoreRegistry.
Import Invariants DatabaseRegistry Tables.

Lemma register_valid config f databases :
  cfg_id config <> [] -> cfg_name config <> [] -> cfg_matcher config = Some f ->
  register config databases
  = Returned (JSMap.set (cfg_id config) (stored config f) databases).
Proof.
  intros Hid Hname Hm. unfold register. rewrite Hm.
  destruct (cfg_id config); [contradiction|].
  destruct (cfg_name config); [contradiction|]. reflexivity.
Qed.

Lemma register_returns_valid config databases reg' :
  register config databases = Returned reg' ->
  exists f, cfg_id config <> [] /\ cfg_name config <> [] /\
            cfg_matcher config = Some f /\
            reg' = JSMap.set (cfg_id config) (stored config f) databases.
Proof.
  unfold register.
  destruct (cfg_id config) eqn:I; [discriminate|].
  destruct (cfg_name config) eqn:N; [discriminate|].
  destruct (cfg_matcher config) as [f|] eqn:M; [|discriminate].
  intros H. inversion H. exists f. repeat split; try discriminate. 
Qed.

Lemma stored_registered config f :
  cfg_id config <> [] -> cfg_name config <> [] ->
  registered (cfg_id config, stored config f).
Proof.
  intros Hid Hname. unfold registered, stored. cbn [fst snd id name priority prefKey].
  repeat split; auto.
  - unfold priorityOrDefault. destruct (cfg_priority config) as [[| |]|]; discriminate.
  - unfold prefKeyOrNull. destruct (cfg_prefKey config) as [[|]|]; discriminate.
Qed.

Lemma set_Forall {V : Type} (P : str * V -> Prop) k v (m : JSMap.t V) :
  Forall P m -> P (k, v) -> Forall P (JSMap.set k v m).
Proof.
  intros F Pk. induction m as [|[k' v'] m IH]; [repeat constructor; exact Pk|].
  inversion F; subst. cbn [JSMap.set]. destruct (str_eqb k' k) eqn:E.
  - apply str_eqb_eq in E. subst k'. constructor; assumption.
  - constructor; [assumption|apply IH; assumption].
Qed.

End MoreRegistry.

(** X1.  [register] throws exactly for a configuration without an id, a
    name or a matcher, and leaves no new registry then.  Otherwise it
    returns a registry in which the id looks up the stored descriptor,
    every other id looks up what it did, and the id is listed where it was
    or, when it is new, last. *)
Theorem register_outcome
    (config : DatabaseRegistry.Config) (databases : DatabaseRegistry.Registry) :
  (DatabaseRegistry.cfg_id config = [] \/ DatabaseRegistry.cfg_name config = [] \/
   DatabaseRegistry.cfg_matcher config = None <->
   DatabaseRegistry.register config databases
   = Thrown "Database registration requires id, name, and matcher") /\
  (forall f,
     DatabaseRegistry.cfg_id config <> [] ->
     DatabaseRegistry.cfg_name config <> [] ->
     DatabaseRegistry.cfg_matcher config = Some f ->
     exists databases',
       DatabaseRegistry.register config databases = Returned databases' /\
       DatabaseRegistry.getDatabase (DatabaseRegistry.cfg_id config) databases'
       = Some (DatabaseRegistry.stored config f) /\
       (forall k, k <> DatabaseRegistry.cfg_id config ->
          DatabaseRegistry.getDatabase k databases'
          = DatabaseRegistry.getDatabase k databases) /\
       DatabaseRegistry.getAllIds databases'
       = (if JSMap.has (DatabaseRegistry.cfg_id config) databases
          then DatabaseRegistry.getAllIds databases
          else DatabaseRegistry.getAllIds databases ++ [DatabaseRegistry.cfg_id config])).
Proof.
  split.
  - unfold DatabaseRegistry.register. split.
    + intros [H|[H|H]].
      * rewrite H. reflexivity.
      * rewrite H. destruct (DatabaseRegistry.cfg_id config); reflexivity.
      * rewrite H. destruct (DatabaseRegistry.cfg_id config); [reflexivity|].
        destruct (DatabaseRegistry.cfg_name config); reflexivity.
    + destruct (DatabaseRegistry.cfg_id config); [auto|].
      destruct (DatabaseRegistry.cfg_name config); [auto|].
      destruct (DatabaseRegistry.cfg_matcher config); [discriminate|auto].
  - intros f Hid Hname Hm.
    eexists. split; [apply register_valid; eassumption|].
    unfold DatabaseRegistry.getDatabase, DatabaseRegistry.getAllIds.
    split; [apply get_set_same|]. split; [|apply keys_set].
    intros k Hk. apply get_set_other, Hk.
Qed.

(** X2.  [getEnabledDatabases] lists exactly the registered descriptors
    that have no preference key or whose preference is on, each as often
    as it is registered, in ascending stored priority, and those of one
    priority in the order of the registry. *)
Theorem enabled_databases_in_priority_order
    (getPref : str -> bool) (databases : DatabaseRegistry.Registry) :
  Permutation
    (filter (DatabaseRegistry.enabled getPref) (JSMap.values databases))
    (DatabaseRegistry.getEnabledDatabases getPref databases) /\
  (forall db,
     In db (DatabaseRegistry.getEnabledDatabases getPref databases) <->
     In db (JSMap.values databases) /\
     (DatabaseRegistry.prefKey db = None \/
      exists key, DatabaseRegistry.prefKey db = Some key /\ getPref key = true)) /\
  Tables.ascending (DatabaseRegistry.getEnabledDatabases getPref databases) /\
  (forall p,
     filter (Tables.hasPriority p) (DatabaseRegistry.getEnabledDatabases getPref databases)
     = filter (Tables.hasPriority p)
         (filter (DatabaseRegistry.enabled getPref) (JSMap.values databases))).
Proof.
  destruct (getEnabledDatabases_sorted getPref databases) as (P & A & S).
  split; [exact P|]. split; [|split; [exact A|exact S]].
  intros db. split.
  - intros I. apply (Permutation_in _ (Permutation_sym P)) in I.
    apply filter_In in I as [I E]. split; [exact I|].
    unfold DatabaseRegistry.enabled in E.
    destruct (DatabaseRegistry.prefKey db) as [key|]; [right; eauto|left; reflexivity].
  - intros [I E]. apply (Permutation_in _ P). apply filter_In. split; [exact I|].
    unfold DatabaseRegistry.enabled.
    destruct E as [E|(key & E & G)]; rewrite E; [reflexivity|exact G].
Qed.

(** X3.  Every registry built by [register] holds each id once, under the
    id of the descriptor stored for it, and no stored descriptor has an
    empty id, an empty name, the priority 0 or an empty preference key. *)
Theorem register_keeps_registry_ok
    (config : DatabaseRegistry.Config)
    (databases databases' : DatabaseRegistry.Registry) :
  Invariants.registryOk databases ->
  DatabaseRegistry.register config databases = Returned databases' ->
  Invariants.registryOk databases'.
Proof.
  intros [U F] R.
  apply register_returns_valid in R as (f & Hid & Hname & Hm & ->).
  split; [apply set_unique, U|].
  apply set_Forall; [exact F|]. apply stored_registered; assumption.
Qed.

Lemma register_keeps_registry_ok_witness :
  Invariants.registryOk (JSMap.empty DatabaseRegistry.Database) /\
  DatabaseRegistry.register (Plugins.sjrConfig []) (JSMap.empty _)
  = Returned [(chars "sjr",
               DatabaseRegistry.stored (Plugins.sjrConfig [])
                 (fun title => SJRDatabase.match_ [] title))] /\
  Invariants.registryOk
    [(chars "sjr",
      DatabaseRegistry.stored (Plugins.sjrConfig [])
        (fun title => SJRDatabase.match_ [] title))].
Proof.
  assert (E : Invariants.registryOk (JSMap.empty DatabaseRegistry.Database))
    by (split; constructor).
  split; [exact E|]. split; [reflexivity|].
  apply (register_keeps_registry_ok (Plugins.sjrConfig []) (JSMap.empty _));
    [exact E|reflexivity].
Defined.

(** X4.  In a registry built by [register], [isEnabled] is true of an id
    exactly when [getEnabledDatabases] lists a descriptor with that id; an
    id that is not registered is not enabled. *)
Theorem isEnabled_iff_listed
    (getPref : str -> bool) (databases : DatabaseRegistry.Registry) (dbId : str) :
  Invariants.registryOk databases ->
  (DatabaseRegistry.isEnabled getPref dbId databases = true <->
   exists db, In db (DatabaseRegistry.getEnabledDatabases getPref databases) /\
              DatabaseRegistry.id db = dbId) /\
  (DatabaseRegistry.getDatabase dbId databases = None ->
   DatabaseRegistry.isEnabled getPref dbId databases = false).
Proof.
  intros [U F].
  destruct (getEnabledDatabases_sorted getPref databases) as (P & _ & _).
  unfold Invariants.registryOk, Invariants.registered in *.
  rewrite Forall_forall in F.
  split; [|unfold DatabaseRegistry.isEnabled, DatabaseRegistry.getDatabase;
           intros ->; reflexivity].
  unfold DatabaseRegistry.isEnabled. split.
  - destruct (JSMap.get dbId databases) as [db|] eqn:G; [|discriminate].
    intros E. exists db. apply get_In in G. split.
    + apply (Permutation_in _ P). apply filter_In. split; [|exact E].
      apply (in_map snd) in G. exact G.
    + apply (F _ G).
  - intros (db & I & Hid). apply (Permutation_in _ (Permutation_sym P)) in I.
    apply filter_In in I as [I E].
    apply in_map_iff in I as ([k d] & Hd & I). cbn [snd] in Hd. subst d.
    destruct (F _ I) as [Hk _]. cbn [fst snd] in Hk.
    assert (Ek : k = dbId) by congruence. rewrite Ek in I.
    rewrite (In_get _ _ _ _ U I). exact E.
Qed.

Lemma isEnabled_iff_listed_witness :
  let databases : DatabaseRegistry.Registry :=
    [(chars "sjr",
      DatabaseRegistry.stored (Plugins.sjrConfig []) (fun _ => Returned None));
     (chars "core",
      DatabaseRegistry.stored (Plugins.coreConfig []) (fun _ => Returned None))] in
  let getPref : str -> bool := fun _ => false in
  Invariants.registryOk databases /\
  DatabaseRegistry.isEnabled getPref (chars "sjr") databases = true /\
  DatabaseRegistry.isEnabled getPref (chars "core") databases = false /\
  ((DatabaseRegistry.isEnabled getPref (chars "core") databases = true <->
    exists db, In db (DatabaseRegistry.getEnabledDatabases getPref databases) /\
               DatabaseRegistry.id db = chars "core") /\
   (DatabaseRegistry.getDatabase (chars "core") databases = None ->
    DatabaseRegistry.isEnabled getPref (chars "core") databases = false)).
Proof.
  intros databases getPref.
  assert (O : Invariants.registryOk databases).
  { split.
    - unfold Invariants.uniqueKeys. cbn. constructor.
      + intros [A|[]]. discriminate A.
      + constructor; [intros []|constructor].
    - repeat constructor; cbn; discriminate. }
  split; [exact O|]. split; [reflexivity|]. split; [reflexivity|].
  apply (isEnabled_iff_listed getPref databases (chars "core") O).
Defined.

(** X5.  Whatever was registered before and whatever the preferences say,
    once the two plugins have registered, the SJR source is enabled, and
    the CORE source is enabled exactly when the preference [enableCORE]
    is on. *)
Theorem plugin_sources_enabled
    (sjrRankings : MatchingUtils.SjrTable) (coreRankings : MatchingUtils.CoreTable)
    (getPref : str -> bool) (databases : DatabaseRegistry.Registry) :
  exists r1 r2,
    DatabaseRegistry.register (Plugins.sjrConfig sjrRankings) databases = Returned r1 /\
    DatabaseRegistry.register (Plugins.coreConfig coreRankings) r1 = Returned r2 /\
    DatabaseRegistry.isEnabled getPref (chars "sjr") r2 = true /\
    DatabaseRegistry.isEnabled getPref (chars "core") r2 = getPref (chars "enableCORE") /\
    exists s1 s2,
      DatabaseRegistry.register (Plugins.coreConfig coreRankings) databases = Returned s1 /\
      DatabaseRegistry.register (Plugins.sjrConfig sjrRankings) s1 = Returned s2 /\
      DatabaseRegistry.isEnabled getPref (chars "sjr") s2 = true /\
      DatabaseRegistry.isEnabled getPref (chars "core") s2 = getPref (chars "enableCORE").
Proof.
  eexists _, _. split; [reflexivity|]. split; [reflexivity|].
  unfold DatabaseRegistry.isEnabled.
  split; [|split].
  - rewrite get_set_other by discriminate. rewrite get_set_same. reflexivity.
  - rewrite get_set_same. reflexivity.
  - eexists _, _. split; [reflexivity|]. split; [reflexivity|]. split.
    + rewrite get_set_same. reflexivity.
    + rewrite get_set_other by discriminate. rewrite get_set_same. reflexivity.
Qed.

(** ** More on [trim] and the override keys *)

Lemma is_space_toLowerChar c : is_space (toLowerChar c) = is_space c.
Proof. by_cases_on_ascii c. Qed.

Lemma trimStart_toLowerCase s :
  trimStart (toLowerCase s) = toLowerCase (trimStart s).
Proof.
  induction s as [|c s IH]; [reflexivity|].
  cbn [toLowerCase map trimStart]. rewrite is_space_toLowerChar.
  destruct (is_space c); [exact IH|reflexivity].
Qed.

Lemma trim_toLowerCase s : trim (toLowerCase s) = toLowerCase (trim s).
Proof.
  unfold trim, trimEnd. rewrite trimStart_toLowerCase.
  unfold toLowerCase at 1. rewrite <- map_rev.
  change (map toLowerChar (rev (trimStart s))) with (toLowerCase (rev (trimStart s))).
  rewrite trimStart_toLowerCase. unfold toLowerCase. rewrite map_rev. reflexivity.
Qed.

Lemma trimStart_app l r :
  trimStart (l ++ r)
  = match trimStart l with [] => trimStart r | _ :: _ => trimStart l ++ r end.
Proof.
  induction l as [|c l IH]; [reflexivity|].
  cbn [app trimStart]. destruct (is_space c); [exact IH|reflexivity].
Qed.

Lemma trimStart_idem s : trimStart (trimStart s) = trimStart s.
Proof.
  induction s as [|c s IH]; [reflexivity|].
  cbn [trimStart]. destruct (is_space c) eqn:E; [exact IH|].
  cbn [trimStart]. rewrite E. reflexivity.
Qed.

Lemma trimEnd_cons c x :
  trimEnd (c :: x)
  = match trimEnd x with
    | [] => if is_space c then [] else [c]
    | _ :: _ => c :: trimEnd x
    end.
Proof.
  unfold trimEnd. cbn [rev]. rewrite trimStart_app.
  destruct (trimStart (rev x)) as [|d u] eqn:E.
  - cbn [trimStart rev]. destruct (is_space c); reflexivity.
  - rewrite rev_app_distr. cbn [rev app].
    destruct (rev u ++ [d]) eqn:E'; [destruct (rev u); discriminate|reflexivity].
Qed.

Lemma trimEnd_trimStart x : trimEnd (trimStart x) = trimStart (trimEnd x).
Proof.
  induction x as [|c x IH]; [reflexivity|].
  cbn [trimStart]. rewrite (trimEnd_cons c x).
  destruct (is_space c) eqn:E.
  - rewrite IH. destruct (trimEnd x); [reflexivity|].
    cbn [trimStart]. rewrite E. reflexivity.
  - rewrite (trimEnd_cons c x), E.
    destruct (trimEnd x); cbn [trimStart]; rewrite E; reflexivity.
Qed.

Lemma trimEnd_idem x : trimEnd (trimEnd x) = trimEnd x.
Proof.
  unfold trimEnd. rewrite rev_involutive, trimStart_idem. reflexivity.
Qed.

Lemma trim_idem s : trim (trim s) = trim s.
Proof.
  unfold trim. rewrite <- trimEnd_trimStart, trimStart_idem, trimEnd_idem.
  reflexivity.
Qed.

Lemma trimStart_pad p s :
  forallb is_space p = true -> trimStart (p ++ s) = trimStart s.
Proof.
  induction p as [|c p IH]; [reflexivity|].
  cbn [forallb app trimStart]. intros H. apply andb_prop in H as [-> H]. auto.
Qed.

Lemma trimEnd_pad p s :
  forallb is_space p = true -> trimEnd (s ++ p) = trimEnd s.
Proof.
  intros H. unfold trimEnd. rewrite rev_app_distr, trimStart_pad; [reflexivity|].
  rewrite forallb_forall in *. intros c I. apply H, in_rev, I.
Qed.

Lemma trim_pad p q s :
  forallb is_space p = true -> forallb is_space q = true ->
  trim (p ++ s ++ q) = trim s.
Proof.
  intros P Q. unfold trim. rewrite trimStart_pad by exact P.
  rewrite !trimEnd_trimStart, trimEnd_pad by exact Q. reflexivity.
Qed.

Lemma normalizedTitle_trim_lower t :
  ManualOverrides.normalizedTitle t = toLowerCase (trim t).
Proof. apply trim_toLowerCase. Qed.

Lemma perm_get {V : Type} (m m' : JSMap.t V) :
  Invariants.uniqueKeys m -> Permutation m m' ->
  forall k, JSMap.get k m' = JSMap.get k m.
Proof.
  intros U P k.
  assert (U' : Invariants.uniqueKeys m').
  { unfold Invariants.uniqueKeys, JSMap.keys in *.
    eapply Permutation_NoDup; [apply Permutation_map, P|exact U]. }
  destruct (JSMap.get k m) as [v|] eqn:G.
  - apply In_get; [exact U'|]. apply (Permutation_in _ P), get_In, G.
  - apply get_none_keys. apply get_none_keys in G. intros I. apply G.
    unfold JSMap.keys in *.
    apply (Permutation_in _ (Permutation_sym (Permutation_map fst P))), I.
Qed.

(** X6.  What [save] stores, [load] reads back: when the host's JSON
    functions give back the saved properties, in whatever order, the
    reloaded module answers [get], [has] and [count] as the saving one
    did, and the stored preference is left as saved. *)
Theorem save_then_load_round_trip
    (parse : str -> outcome ManualOverrides.json)
    (stringify : list (str * ManualOverrides.json) -> str)
    (st : ManualOverrides.State) (props : list (str * ManualOverrides.json)) :
  Invariants.uniqueKeys (ManualOverrides.overrides st) ->
  parse (trim (stringify (ManualOverrides.overrides st)))
  = Returned (ManualOverrides.JObject props) ->
  Permutation (ManualOverrides.overrides st) props ->
  parse (chars "{}") = Returned (ManualOverrides.JObject []) ->
  (exists e, parse [] = Thrown e) ->
  exists st',
    ManualOverrides.load parse (ManualOverrides.save stringify st) = Returned st' /\
    ManualOverrides.stored st' = Some (stringify (ManualOverrides.overrides st)) /\
    Permutation (ManualOverrides.overrides st) (ManualOverrides.overrides st') /\
    (forall title, ManualOverrides.get title st' = ManualOverrides.get title st) /\
    (forall title, ManualOverrides.has title st' = ManualOverrides.has title st) /\
    ManualOverrides.count st' = ManualOverrides.count st.
Proof.
  intros U R P E0 (e & En).
  assert (U' : Invariants.uniqueKeys props).
  { unfold Invariants.uniqueKeys, JSMap.keys in *.
    eapply Permutation_NoDup; [apply Permutation_map, P|exact U]. }
  assert (G : exists st',
    ManualOverrides.load_try parse (ManualOverrides.save stringify st) = Returned st' /\
    ManualOverrides.stored st' = Some (stringify (ManualOverrides.overrides st)) /\
    ManualOverrides.overrides st' = props).
  { unfold ManualOverrides.load_try, ManualOverrides.save.
    cbn [ManualOverrides.stored ManualOverrides.overrides].
    destruct (stringify (ManualOverrides.overrides st)) as [|c s] eqn:S.
    - exfalso. change (trim []) with (@nil ascii) in R. congruence.
    - destruct (trim (c :: s)) as [|d ds] eqn:T; [exfalso; congruence|].
      cbn [length Nat.eqb orb].
      destruct (str_eqb (d :: ds) (chars "{}")) eqn:B.
      + apply str_eqb_eq in B. rewrite B in R. rewrite E0 in R.
        inversion R; subst props. eexists. split; [reflexivity|].
        split; reflexivity.
      + rewrite R. cbn [bind ManualOverrides.entries].
        eexists. split; [reflexivity|]. split; [reflexivity|].
        cbn [ManualOverrides.overrides]. apply ofEntries_id, U'. }
  destruct G as (st' & L & S & O). exists st'. unfold ManualOverrides.load.
  rewrite L. split; [reflexivity|]. split; [exact S|]. rewrite O.
  split; [exact P|].
  unfold ManualOverrides.get, ManualOverrides.has, ManualOverrides.count,
    JSMap.has, JSMap.size.
  rewrite O. split; [|split].
  - intros title. apply perm_get; assumption.
  - intros title. rewrite (perm_get _ _ U P). reflexivity.
  - symmetry. apply Permutation_length, P.
Qed.

Lemma save_then_load_round_trip_witness :
  let q1 := ManualOverrides.JString (chars "Q1") in
  let a := ManualOverrides.JString (chars "A") in
  let m := [(chars "nature", q1); (chars "2024", a)] in
  let props := [(chars "2024", a); (chars "nature", q1)] in
  let text := chars "{'2024':'A','nature':'Q1'}" in
  let stringify := fun o : list (str * ManualOverrides.json) =>
    match o with [] => chars "{}" | _ :: _ => text end in
  let parse := fun s : str =>
    match s with
    | [] => Thrown "SyntaxError"
    | _ :: _ =>
        if str_eqb s (chars "{}") then Returned (ManualOverrides.JObject [])
        else if str_eqb s text then Returned (ManualOverrides.JObject props)
        else Thrown "SyntaxError"
    end in
  let st := {| ManualOverrides.overrides := m; ManualOverrides.stored := None |} in
  exists st',
    ManualOverrides.load parse (ManualOverrides.save stringify st) = Returned st' /\
    ManualOverrides.stored st' = Some text /\
    Permutation m (ManualOverrides.overrides st') /\
    (forall title, ManualOverrides.get title st' = ManualOverrides.get title st) /\
    (forall title, ManualOverrides.has title st' = ManualOverrides.has title st) /\
    ManualOverrides.count st' = 2.
Proof.
  intros q1 a m props text stringify parse st.
  apply (save_then_load_round_trip parse stringify st props).
  - unfold Invariants.uniqueKeys. cbn. constructor.
    + intros [A|[]]. discriminate A.
    + constructor; [intros []|constructor].
  - reflexivity.
  - apply perm_swap.
  - reflexivity.
  - exists "SyntaxError"%string. reflexivity.
Defined.

(** X7.  How the operations move [count] and [has]: [set] adds one entry
    exactly when the title had none, [remove] takes one away exactly when
    it had one, [clearAll] leaves none; the title is present after [set]
    and absent after [remove], and no operation touches the entry of a
    title with another key. *)
Theorem overrides_count_and_has
    (stringify : list (str * ManualOverrides.json) -> str)
    (title ranking : str) (st : ManualOverrides.State) :
  Invariants.uniqueKeys (ManualOverrides.overrides st) ->
  ManualOverrides.count (ManualOverrides.set stringify title ranking st)
  = (if ManualOverrides.has title st then ManualOverrides.count st
     else S (ManualOverrides.count st)) /\
  ManualOverrides.count (ManualOverrides.remove stringify title st)
  = (if ManualOverrides.has title st then Nat.pred (ManualOverrides.count st)
     else ManualOverrides.count st) /\
  ManualOverrides.count (ManualOverrides.clearAll stringify st) = 0 /\
  ManualOverrides.has title (ManualOverrides.set stringify title ranking st) = true /\
  ManualOverrides.has title (ManualOverrides.remove stringify title st) = false /\
  (forall other, ManualOverrides.has other (ManualOverrides.clearAll stringify st) = false) /\
  (forall other,
     ManualOverrides.normalizedTitle other <> ManualOverrides.normalizedTitle title ->
     ManualOverrides.get other (ManualOverrides.set stringify title ranking st)
     = ManualOverrides.get other st /\
     ManualOverrides.get other (ManualOverrides.remove stringify title st)
     = ManualOverrides.get other st) /\
  Invariants.uniqueKeys
    (ManualOverrides.overrides (ManualOverrides.set stringify title ranking st)) /\
  Invariants.uniqueKeys
    (ManualOverrides.overrides (ManualOverrides.remove stringify title st)).
Proof.
  intros U.
  unfold ManualOverrides.count, ManualOverrides.has, ManualOverrides.get,
    ManualOverrides.set, ManualOverrides.remove, ManualOverrides.clearAll,
    ManualOverrides.save.
  cbn [ManualOverrides.overrides].
  split; [apply size_set|]. split.
  { destruct (JSMap.has (ManualOverrides.normalizedTitle title)
                (ManualOverrides.overrides st)) eqn:H.
    - rewrite <- (size_delete _ _ _ U H). reflexivity.
    - rewrite delete_absent by exact H. reflexivity. }
  split; [reflexivity|].
  split; [unfold JSMap.has; rewrite get_set_same; reflexivity|].
  split; [unfold JSMap.has; rewrite get_delete_same; reflexivity|].
  split; [reflexivity|].
  split; [|split; [apply set_unique, U|apply delete_unique, U]].
  intros other N. split; [apply get_set_other, N|apply get_delete_other, N].
Qed.

Lemma overrides_count_and_has_witness :
  let stringify := fun _ : list (str * ManualOverrides.json) => chars "{}" in
  let st := {| ManualOverrides.overrides :=
                 [(chars "nature", ManualOverrides.JString (chars "Q1"))];
               ManualOverrides.stored := None |} in
  ManualOverrides.count (ManualOverrides.set stringify (chars "Nature ") (chars "Q2") st) = 1 /\
  ManualOverrides.count (ManualOverrides.set stringify (chars "Science") (chars "Q1") st) = 2 /\
  ManualOverrides.count (ManualOverrides.remove stringify (chars " NATURE") st) = 0.
Proof.
  intros stringify st.
  assert (U : Invariants.uniqueKeys (ManualOverrides.overrides st)).
  { unfold Invariants.uniqueKeys. cbn. constructor; [intros []|constructor]. }
  split; [|split].
  - apply (overrides_count_and_has stringify (chars "Nature ") (chars "Q2") st U).
  - apply (overrides_count_and_has stringify (chars "Science") (chars "Q1") st U).
  - apply (overrides_count_and_has stringify (chars " NATURE") (chars "Q2") st U).
Defined.

(** X8.  An override is filed under the title without its case and its
    surrounding white space: two titles that agree after [trim] and
    [toLowerCase], in particular a title and the same title in white
    space, name the same override for [get], [has], [set] and [remove]. *)
Theorem override_key_ignores_case_and_padding
    (stringify : list (str * ManualOverrides.json) -> str)
    (a b ranking : str) (st : ManualOverrides.State) :
  toLowerCase (trim a) = toLowerCase (trim b) ->
  ManualOverrides.get a st = ManualOverrides.get b st /\
  ManualOverrides.has a st = ManualOverrides.has b st /\
  ManualOverrides.set stringify a ranking st = ManualOverrides.set stringify b ranking st /\
  ManualOverrides.remove stringify a st = ManualOverrides.remove stringify b st /\
  ManualOverrides.get b (ManualOverrides.set stringify a ranking st)
  = Some (ManualOverrides.JString ranking) /\
  ManualOverrides.get b (ManualOverrides.remove stringify a st) = None /\
  (forall p q, forallb is_space p = true -> forallb is_space q = true ->
     ManualOverrides.normalizedTitle (p ++ a ++ q) = ManualOverrides.normalizedTitle a) /\
  ManualOverrides.normalizedTitle (ManualOverrides.normalizedTitle a)
  = ManualOverrides.normalizedTitle a.
Proof.
  intros E.
  assert (K : ManualOverrides.normalizedTitle a = ManualOverrides.normalizedTitle b)
    by (rewrite !normalizedTitle_trim_lower; exact E).
  unfold ManualOverrides.get, ManualOverrides.has, ManualOverrides.set,
    ManualOverrides.remove, ManualOverrides.save.
  cbn [ManualOverrides.overrides]. rewrite K.
  split; [reflexivity|]. split; [reflexivity|]. split; [reflexivity|].
  split; [reflexivity|]. split; [apply get_set_same|].
  split; [apply get_delete_same|]. split.
  - intros p q P Q. rewrite !normalizedTitle_trim_lower, trim_pad by assumption.
    exact E.
  - rewrite (normalizedTitle_trim_lower (ManualOverrides.normalizedTitle b)).
    unfold ManualOverrides.normalizedTitle at 1.
    rewrite trim_idem. rewrite <- trim_toLowerCase, toLowerCase_idem. reflexivity.
Qed.

Lemma override_key_ignores_case_and_padding_witness :
  let stringify := fun _ : list (str * ManualOverrides.json) => chars "{}" in
  let st := {| ManualOverrides.overrides := JSMap.empty ManualOverrides.json;
               ManualOverrides.stored := None |} in
  ManualOverrides.get (chars "ieee access")
    (ManualOverrides.set stringify (chars "  IEEE Access ") (chars "Q1") st)
  = Some (ManualOverrides.JString (chars "Q1")).
Proof.
  intros stringify st.
  apply (override_key_ignores_case_and_padding stringify
           (chars "  IEEE Access ") (chars "ieee access") (chars "Q1") st).
  reflexivity.
Defined.

(** ** The actions on the selection *)

Section MoreActions.
Import RankingActions Invariants.
Variable Item : Type.
Variable isRegularItem : Item -> bool.
Variable extractPublicationTitle : Item -> option str.
Variable getRanking : Item -> option str.

Lemma tallyStep_exact t item :
  tallyStep isRegularItem extractPublicationTitle getRanking t item
  = {| found := found t + (if titled isRegularItem extractPublicationTitle item && ranked getRanking item then 1 else 0);
       notFound := notFound t + (if titled isRegularItem extractPublicationTitle item && negb (ranked getRanking item) then 1 else 0);
       skipped := skipped t + (if negb (titled isRegularItem extractPublicationTitle item) then 1 else 0);
       notFoundList :=
         notFoundList t ++
         (if titled isRegularItem extractPublicationTitle item && negb (ranked getRanking item) then [trim (titleOf extractPublicationTitle item)] else []) |}.
Proof.
  unfold tallyStep, titled, ranked, titleOf.
  destruct (isRegularItem item); cbn [negb andb].
  - destruct (extractPublicationTitle item) as [[|c s]|]; cbn [truthyStr negb andb].
    + rewrite !Nat.add_0_r, app_nil_r. reflexivity.
    + destruct (truthyStr (getRanking item)); cbn [negb];
        rewrite ?Nat.add_0_r, ?app_nil_r; reflexivity.
    + rewrite !Nat.add_0_r, app_nil_r. reflexivity.
  - rewrite !Nat.add_0_r, app_nil_r. reflexivity.
Qed.

Lemma tally_fold_exact items : forall t0,
  fold_left (tallyStep isRegularItem extractPublicationTitle getRanking) items t0
  = {| found := found t0 + length (filter (fun i => titled isRegularItem extractPublicationTitle i && ranked getRanking i) items);
       notFound :=
         notFound t0 + length (filter (fun i => titled isRegularItem extractPublicationTitle i && negb (ranked getRanking i)) items);
       skipped := skipped t0 + length (filter (fun i => negb (titled isRegularItem extractPublicationTitle i)) items);
       notFoundList :=
         notFoundList t0 ++
         map (fun i => trim (titleOf extractPublicationTitle i))
           (filter (fun i => titled isRegularItem extractPublicationTitle i && negb (ranked getRanking i)) items) |}.
Proof.
  induction items as [|item items IH]; intros t0.
  - cbn. rewrite !Nat.add_0_r, app_nil_r. destruct t0; reflexivity.
  - cbn [fold_left]. rewrite IH, tallyStep_exact.
    cbn [found notFound skipped notFoundList filter].
    destruct (titled isRegularItem extractPublicationTitle item); destruct (ranked getRanking item); cbn [andb negb length map];
      rewrite <- ?app_assoc; cbn [app]; f_equal; lia.
Qed.

Lemma tally_partition items :
  length (filter (fun i => titled isRegularItem extractPublicationTitle i && ranked getRanking i) items)
  + length (filter (fun i => titled isRegularItem extractPublicationTitle i && negb (ranked getRanking i)) items)
  + length (filter (fun i => negb (titled isRegularItem extractPublicationTitle i)) items)
  = length items.
Proof.
  induction items as [|item items IH]; [reflexivity|].
  cbn [filter]. destruct (titled isRegularItem extractPublicationTitle item); destruct (ranked getRanking item);
    cbn [andb negb length]; lia.
Qed.

Variable stringify : list (str * ManualOverrides.json) -> str.

Lemma clearStep_facts st n title :
  Invariants.uniqueKeys (ManualOverrides.overrides st) ->
  let acc := clearStep stringify (st, n) title in
  Invariants.uniqueKeys (ManualOverrides.overrides (fst acc)) /\
  ManualOverrides.count (fst acc) + snd acc = ManualOverrides.count st + n /\
  n <= snd acc /\
  (snd acc = n -> fst acc = st) /\
  stillSet title (fst acc) = false /\
  (forall other, ManualOverrides.get other (fst acc) = None \/
                 ManualOverrides.get other (fst acc) = ManualOverrides.get other st) /\
  (forall other,
     ManualOverrides.normalizedTitle other <> ManualOverrides.normalizedTitle title ->
     ManualOverrides.get other (fst acc) = ManualOverrides.get other st).
Proof.
  intros U. unfold clearStep, stillSet. cbn [fst snd].
  destruct (ManualOverrides.get title st) as [v|] eqn:G.
  - destruct (truthy v) eqn:T; cbn [fst snd].
    + unfold ManualOverrides.get, ManualOverrides.remove, ManualOverrides.save,
        ManualOverrides.count in *.
      cbn [ManualOverrides.overrides].
      assert (H : JSMap.has (ManualOverrides.normalizedTitle title)
                    (ManualOverrides.overrides st) = true)
        by (unfold JSMap.has; rewrite G; reflexivity).
      pose proof (size_delete _ _ _ U H) as Sz.
      split; [apply delete_unique, U|]. split; [lia|]. split; [lia|].
      split; [lia|]. split; [rewrite get_delete_same; reflexivity|]. split.
      * intros other.
        destruct (str_eqb (ManualOverrides.normalizedTitle other)
                    (ManualOverrides.normalizedTitle title)) eqn:E.
        -- apply str_eqb_eq in E. rewrite E, get_delete_same. left; reflexivity.
        -- right. apply get_delete_other. intros C. rewrite C, str_eqb_refl in E.
           discriminate.
      * intros other N. apply get_delete_other, N.
    + rewrite G, T. repeat split; auto.
  - cbn [fst snd]. rewrite G. repeat split; auto.
Qed.

Lemma clear_fold titles : forall st n,
  Invariants.uniqueKeys (ManualOverrides.overrides st) ->
  let acc := fold_left (clearStep stringify) titles (st, n) in
  Invariants.uniqueKeys (ManualOverrides.overrides (fst acc)) /\
  ManualOverrides.count (fst acc) + snd acc = ManualOverrides.count st + n /\
  n <= snd acc /\
  (snd acc = n -> fst acc = st) /\
  (forall title, In title titles -> stillSet title (fst acc) = false) /\
  (forall other, ManualOverrides.get other (fst acc) = None \/
                 ManualOverrides.get other (fst acc) = ManualOverrides.get other st) /\
  (forall other,
     (forall title, In title titles ->
        ManualOverrides.normalizedTitle other <> ManualOverrides.normalizedTitle title) ->
     ManualOverrides.get other (fst acc) = ManualOverrides.get other st).
Proof.
  induction titles as [|title titles IH]; intros st n U.
  - cbn. repeat split; auto. intros ? [].
  - cbn [fold_left].
    destruct (clearStep_facts st n title U) as (U1 & C1 & N1 & E1 & S1 & M1 & O1).
    cbv zeta in *.
    destruct (clearStep stringify (st, n) title) as [st1 n1] eqn:K.
    cbn [fst snd] in *.
    destruct (IH st1 n1 U1) as (U2 & C2 & N2 & E2 & S2 & M2 & O2).
    cbv zeta in *.
    split; [exact U2|]. split; [lia|]. split; [lia|]. split.
    { intros Hn. assert (n1 = n) by lia. subst n1.
      rewrite (E2 Hn). apply E1. reflexivity. }
    split.
    { intros t [<-|I]; [|apply S2, I].
      unfold stillSet in *. destruct (M2 title) as [->| ->]; [reflexivity|exact S1]. }
    split.
    { intros other. destruct (M2 other) as [H|H]; [left; exact H|].
      rewrite H. apply M1. }
    intros other H. rewrite O2.
    + apply O1, H. left; reflexivity.
    + intros t I. apply H. right; exact I.
Qed.

End MoreActions.

Lemma setAdd_In x y l : In x (RankingActions.setAdd y l) <-> x = y \/ In x l.
Proof.
  unfold RankingActions.setAdd. destruct (existsb (str_eqb y) l) eqn:E.
  - split; [auto|]. intros [->|I]; [|exact I].
    apply existsb_exists in E as (z & I & Ez). apply str_eqb_eq in Ez. subst z. exact I.
  - rewrite in_app_iff. cbn [In]. intuition auto.
Qed.

Lemma setAdd_NoDup y l : NoDup l -> NoDup (RankingActions.setAdd y l).
Proof.
  intros N. unfold RankingActions.setAdd. destruct (existsb (str_eqb y) l) eqn:E; [exact N|].
  apply NoDup_app; [exact N|repeat constructor; intros []|].
  intros x I [A|[]]. subst x.
  assert (T : existsb (str_eqb y) l = true)
    by (apply existsb_exists; exists y; split; [exact I|apply str_eqb_refl]).
  congruence.
Qed.

Lemma selectedTitles_fold {Item : Type} (isRegularItem : Item -> bool)
    (extractPublicationTitle : Item -> option str) (items : list Item) :
  forall acc,
  let titles := fold_left (RankingActions.collectTitle isRegularItem extractPublicationTitle)
                  items acc in
  (NoDup acc -> NoDup titles) /\
  (forall title, In title titles <->
     In title acc \/
     exists item raw, In item items /\ isRegularItem item = true /\
       extractPublicationTitle item = Some raw /\ raw <> [] /\ title = trim raw).
Proof.
  induction items as [|item items IH]; intros acc.
  - cbn. split; [auto|]. intros title. split; [auto|].
    intros [I|(? & ? & [] & _)]. exact I.
  - cbn [fold_left]. cbv zeta.
    destruct (IH (RankingActions.collectTitle isRegularItem extractPublicationTitle acc item))
      as [N M]. cbv zeta in *.
    assert (C :
      (NoDup acc ->
       NoDup (RankingActions.collectTitle isRegularItem extractPublicationTitle acc item)) /\
      forall title,
        In title (RankingActions.collectTitle isRegularItem extractPublicationTitle acc item) <->
        In title acc \/
        exists raw, isRegularItem item = true /\
          extractPublicationTitle item = Some raw /\ raw <> [] /\ title = trim raw).
    { unfold RankingActions.collectTitle.
      destruct (isRegularItem item); cbn [negb].
      - destruct (extractPublicationTitle item) as [[|c s]|].
        + split; [auto|]. intros title. split; [auto|].
          intros [I|(raw & _ & E & R & _)]; [exact I|]. inversion E; subst. contradiction.
        + split; [apply setAdd_NoDup|]. intros title. rewrite setAdd_In. split.
          * intros [->|I]; [|left; exact I]. right. exists (c :: s).
            repeat split; auto. discriminate.
          * intros [I|(raw & _ & E & _ & ->)]; [right; exact I|].
            inversion E; subst. left; reflexivity.
        + split; [auto|]. intros title. split; [auto|].
          intros [I|(raw & _ & E & _)]; [exact I|discriminate].
      - split; [auto|]. intros title. split; [auto|].
        intros [I|(raw & E & _)]; [exact I|discriminate]. }
    destruct C as [CN CM]. split; [auto|].
    intros title. rewrite M, CM. split.
    + intros [[I|(raw & H)]|(it & raw & I & H)].
      * left; exact I.
      * right. exists item, raw. split; [left; reflexivity|exact H].
      * right. exists it, raw. split; [right; exact I|exact H].
    + intros [I|(it & raw & [<-|I] & H)].
      * left; left; exact I.
      * left; right. exists raw. exact H.
      * right. exists it, raw. split; [exact I|exact H].
Qed.

(** X9.  [updateSelectedItems] counts nothing for an empty selection and
    otherwise counts every selected item once: as found when it is a
    regular item with a title and a ranking, as not found when it is a
    regular item with a title and no ranking, as skipped otherwise.  The
    list of titles not found holds the trimmed titles of the items counted
    as not found, in the order of the selection, and the message shows the
    first ten of them, or all when there are fewer. *)
Theorem updateSelectedItems_counts_each_item
    (Item : Type) (isRegularItem : Item -> bool)
    (extractPublicationTitle getRanking : Item -> option str)
    (items : list Item) :
  let titled := Invariants.titled isRegularItem extractPublicationTitle in
  let ranked := Invariants.ranked getRanking in
  let titleOf := Invariants.titleOf extractPublicationTitle in
  (RankingActions.updateSelectedItems isRegularItem extractPublicationTitle getRanking items
   = None <-> items = []) /\
  (forall t,
     RankingActions.updateSelectedItems isRegularItem extractPublicationTitle getRanking items
     = Some t ->
     RankingActions.found t = length (filter (fun i => titled i && ranked i) items) /\
     RankingActions.notFound t
     = length (filter (fun i => titled i && negb (ranked i)) items) /\
     RankingActions.skipped t = length (filter (fun i => negb (titled i)) items) /\
     RankingActions.notFoundList t
     = map (fun i => trim (titleOf i))
         (filter (fun i => titled i && negb (ranked i)) items) /\
     RankingActions.found t + RankingActions.notFound t + RankingActions.skipped t
     = length items /\
     length (RankingActions.notFoundList t) = RankingActions.notFound t /\
     RankingActions.displayCount t = Nat.min 10 (RankingActions.notFound t) /\
     RankingActions.displayedTitles t = firstn 10 (RankingActions.notFoundList t) /\
     (RankingActions.notFound t <= 10 ->
      RankingActions.displayedTitles t = RankingActions.notFoundList t) /\
     (10 <= RankingActions.notFound t ->
      length (RankingActions.displayedTitles t) = 10)).
Proof.
  intros titled ranked titleOf. split.
  - destruct items; cbn; split; congruence.
  - intros t H.
    assert (Ht : fold_left
                   (RankingActions.tallyStep isRegularItem extractPublicationTitle getRanking)
                   items
                   {| RankingActions.found := 0; RankingActions.notFound := 0;
                      RankingActions.skipped := 0; RankingActions.notFoundList := [] |}
                 = t).
    { unfold RankingActions.updateSelectedItems in H.
      destruct items; [discriminate|]. injection H as H. exact H. }
    clear H. rewrite tally_fold_exact in Ht.
    cbn [RankingActions.found RankingActions.notFound RankingActions.skipped
         RankingActions.notFoundList Nat.add app] in Ht.
    subst titled ranked titleOf. subst t.
    cbn [RankingActions.found RankingActions.notFound RankingActions.skipped
         RankingActions.notFoundList].
    set (unranked :=
           filter (fun i => Invariants.titled isRegularItem extractPublicationTitle i
                            && negb (Invariants.ranked getRanking i)) items).
    set (shown := map (fun i => trim (Invariants.titleOf extractPublicationTitle i))
                    unranked).
    assert (L : length shown = length unranked) by apply length_map.
    split; [reflexivity|]. split; [reflexivity|]. split; [reflexivity|].
    split; [reflexivity|].
    split; [apply (tally_partition Item isRegularItem extractPublicationTitle getRanking)|].
    split; [exact L|].
    unfold RankingActions.displayedTitles, RankingActions.displayCount.
    cbn [RankingActions.notFoundList]. rewrite L.
    split; [reflexivity|].
    assert (F : firstn (Nat.min 10 (length unranked)) shown = firstn 10 shown).
    { destruct (Nat.le_ge_cases (length unranked) 10) as [Le|Ge].
      - rewrite Nat.min_r by exact Le.
        rewrite !firstn_all2 by (rewrite L; lia). reflexivity.
      - rewrite Nat.min_l by exact Ge. reflexivity. }
    split; [exact F|]. rewrite F. split.
    + intros Le. apply firstn_all2. rewrite L. exact Le.
    + intros Ge. rewrite length_firstn, L. apply Nat.min_l, Ge.
Qed.

(** X10.  The titles both override dialogs work on form a set: no title
    twice, and a title is in it exactly when it is the trimmed, non-empty
    publication title of a selected regular item. *)
Theorem selectedTitles_is_the_set_of_titles
    (Item : Type) (isRegularItem : Item -> bool)
    (extractPublicationTitle : Item -> option str) (items : list Item) :
  NoDup (RankingActions.selectedTitles isRegularItem extractPublicationTitle items) /\
  (forall title,
     In title (RankingActions.selectedTitles isRegularItem extractPublicationTitle items) <->
     exists item raw, In item items /\ isRegularItem item = true /\
       extractPublicationTitle item = Some raw /\ raw <> [] /\ title = trim raw).
Proof.
  destruct (selectedTitles_fold isRegularItem extractPublicationTitle items []) as [N M].
  cbv zeta in *. split; [apply N; constructor|].
  intros title. unfold RankingActions.selectedTitles. rewrite M. split; [|auto].
  intros [[]|H]. exact H.
Qed.

(** X11.  [clearManualRankingForSelected] reports as cleared exactly the
    number of entries it took out of the overrides; when it reports none
    the overrides are untouched.  Afterwards no selected title has an
    override that counts as set, and the override of a title whose key is
    that of no selected title is as before. *)
Theorem clearManualRankingForSelected_accounts
    (Item : Type) (isRegularItem : Item -> bool)
    (extractPublicationTitle : Item -> option str)
    (stringify : list (str * ManualOverrides.json) -> str)
    (items : list Item) (st : ManualOverrides.State) :
  Invariants.uniqueKeys (ManualOverrides.overrides st) ->
  items <> [] ->
  exists cleared st',
    RankingActions.clearManualRankingForSelected isRegularItem extractPublicationTitle
      stringify items st
    = (if 0 <? cleared then RankingActions.ManualRankingsCleared cleared
       else RankingActions.NoManualRankings, st') /\
    ManualOverrides.count st' + cleared = ManualOverrides.count st /\
    (cleared = 0 -> st' = st) /\
    (forall title v,
       In title (RankingActions.selectedTitles isRegularItem extractPublicationTitle items) ->
       ManualOverrides.get title st' = Some v -> RankingActions.truthy v = false) /\
    (forall other,
       (forall title,
          In title (RankingActions.selectedTitles isRegularItem extractPublicationTitle items) ->
          ManualOverrides.normalizedTitle other <> ManualOverrides.normalizedTitle title) ->
       ManualOverrides.get other st' = ManualOverrides.get other st).
Proof.
  intros U NE. destruct items as [|item items]; [contradiction|].
  unfold RankingActions.clearManualRankingForSelected.
  destruct (clear_fold stringify
              (RankingActions.selectedTitles isRegularItem extractPublicationTitle
                 (item :: items)) st 0 U)
    as (_ & C & _ & E & S & _ & O).
  cbv zeta in *.
  destruct (fold_left (RankingActions.clearStep stringify)
              (RankingActions.selectedTitles isRegularItem extractPublicationTitle
                 (item :: items)) (st, 0)) as [st' cleared].
  cbn [fst snd] in *. exists cleared, st'.
  split; [destruct (0 <? cleared); reflexivity|]. split; [lia|]. split; [exact E|].
  split; [|exact O].
  intros title v I G. specialize (S title I). unfold Invariants.stillSet in S.
  rewrite G in S. exact S.
Qed.

Lemma clearManualRankingForSelected_accounts_witness :
  let stringify := fun _ : list (str * ManualOverrides.json) => chars "{}" in
  let st := {| ManualOverrides.overrides :=
                 [(chars "nature", ManualOverrides.JString (chars "Q1"));
                  (chars "science", ManualOverrides.JString (chars "Q2"))];
               ManualOverrides.stored := None |} in
  let items := [Some (chars " Nature "); None; Some (chars "NATURE")] in
  exists cleared st',
    RankingActions.clearManualRankingForSelected (fun _ : option str => true)
      (fun item => item) stringify items st
    = (if 0 <? cleared then RankingActions.ManualRankingsCleared cleared
       else RankingActions.NoManualRankings, st') /\
    ManualOverrides.count st' + cleared = 2 /\
    (cleared = 0 -> st' = st) /\
    (forall title v,
       In title (RankingActions.selectedTitles (fun _ : option str => true)
                   (fun item => item) items) ->
       ManualOverrides.get title st' = Some v -> RankingActions.truthy v = false) /\
    (forall other,
       (forall title,
          In title (RankingActions.selectedTitles (fun _ : option str => true)
                      (fun item => item) items) ->
          ManualOverrides.normalizedTitle other <> ManualOverrides.normalizedTitle title) ->
       ManualOverrides.get other st' = ManualOverrides.get other st).
Proof.
  intros stringify st items.
  apply (clearManualRankingForSelected_accounts (option str) (fun _ => true)
           (fun item => item) stringify items st).
  - unfold Invariants.uniqueKeys. cbn. constructor.
    + intros [A|[]]. discriminate A.
    + constructor; [intros []|constructor].
  - discriminate.
Defined.

(** X12.  When the selection has exactly one title, [setManualRankingDialog]
    prompts for it with the ranking already set, or the empty text, as the
    default; on a confirmed, non-empty input it files the trimmed input
    under that title, leaves the override of every title with another key
    as it was and reports the ranking set; on a cancelled prompt or an
    empty input it changes nothing.  In every other case it leaves the
    overrides untouched and reports why: no items, no publication titles,
    or the number of different titles. *)
Theorem setManualRankingDialog_changes_one_title
    (Item : Type) (isRegularItem : Item -> bool)
    (extractPublicationTitle : Item -> option str)
    (stringify : list (str * ManualOverrides.json) -> str)
    (prompt : str -> ManualOverrides.json -> bool * str)
    (items : list Item) (st : ManualOverrides.State) :
  let titles := RankingActions.selectedTitles isRegularItem extractPublicationTitle items in
  let out := RankingActions.setManualRankingDialog isRegularItem extractPublicationTitle
               stringify prompt items st in
  (fst out = RankingActions.NoItemsSelected <-> items = []) /\
  (fst out = RankingActions.NoPublicationTitles <-> items <> [] /\ titles = []) /\
  (forall n, fst out = RankingActions.MultiplePublications n <->
     items <> [] /\ n = length titles /\ 2 <= n) /\
  (snd out = st \/
   exists title value,
     titles = [title] /\
     prompt title (Invariants.defaultRanking title st) = (true, value) /\
     value <> [] /\
     out = (RankingActions.ManualRankingSet title (trim value),
            ManualOverrides.set stringify title (trim value) st)) /\
  (forall title value,
     titles = [title] ->
     prompt title (Invariants.defaultRanking title st) = (true, value) ->
     value <> [] ->
     out = (RankingActions.ManualRankingSet title (trim value),
            ManualOverrides.set stringify title (trim value) st) /\
     ManualOverrides.get title (snd out) = Some (ManualOverrides.JString (trim value)) /\
     ManualOverrides.has title (snd out) = true /\
     forall other,
       ManualOverrides.normalizedTitle other <> ManualOverrides.normalizedTitle title ->
       ManualOverrides.get other (snd out) = ManualOverrides.get other st) /\
  (forall title result value,
     titles = [title] ->
     prompt title (Invariants.defaultRanking title st) = (result, value) ->
     result = false \/ value = [] ->
     out = (RankingActions.NothingSet, st)) /\
  ((forall title, titles <> [title]) -> snd out = st).
Proof.
  intros titles out.
  assert (One : forall title result value,
    titles = [title] ->
    prompt title (Invariants.defaultRanking title st) = (result, value) ->
    out = if result && negb (length value =? 0)
          then (RankingActions.ManualRankingSet title (trim value),
                ManualOverrides.set stringify title (trim value) st)
          else (RankingActions.NothingSet, st)).
  { intros title result value T P. subst out.
    unfold RankingActions.setManualRankingDialog. fold titles. rewrite T.
    destruct items as [|item items]; [discriminate T|].
    unfold Invariants.defaultRanking in P. rewrite P. reflexivity. }
  assert (Many : (forall title, titles <> [title]) ->
    out = (match items with
           | [] => RankingActions.NoItemsSelected
           | _ :: _ =>
               match titles with
               | [] => RankingActions.NoPublicationTitles
               | _ => RankingActions.MultiplePublications (length titles)
               end
           end, st)).
  { intros N. subst out. unfold RankingActions.setManualRankingDialog. fold titles.
    destruct items as [|item items]; [reflexivity|].
    destruct titles as [|title [|title2 more]]; [reflexivity| |reflexivity].
    exfalso. apply (N title). reflexivity. }
  assert (Kinds : forall title d s,
    titles = [title] ->
    (d = RankingActions.ManualRankingSet title (trim s) \/ d = RankingActions.NothingSet) ->
    (d = RankingActions.NoItemsSelected <-> items = []) /\
    (d = RankingActions.NoPublicationTitles <-> items <> [] /\ titles = []) /\
    (forall n, d = RankingActions.MultiplePublications n <->
       items <> [] /\ n = length titles /\ 2 <= n)).
  { intros title d s T D.
    assert (NE : items <> []) by (intros ->; discriminate T).
    rewrite T. cbn [length].
    destruct D as [-> | ->];
      (split; [split; [discriminate|intros E; contradiction]|]);
      (split; [split; [discriminate|intros [_ C]; discriminate C]|]);
      intros n; (split; [discriminate|]); intros (_ & -> & L); lia. }
  destruct (list_eq_dec (list_eq_dec Ascii.ascii_dec) titles
              (match titles with t :: _ => [t] | [] => [] end)) as [Single|NotSingle].
  - destruct titles as [|title rest] eqn:T.
    + (* no title *)
      assert (N : forall title, titles <> [title]) by (rewrite T; discriminate).
      subst titles. rewrite T in *. rewrite (Many N).
      destruct items as [|item items]; cbn [fst snd].
      * split; [split; reflexivity|]. split; [split; [discriminate|intros [C _]; contradiction]|].
        split; [|split; [left; reflexivity|]].
        { intros n. split; [discriminate|]. intros [C _]. contradiction. }
        split; [intros ? ? C; discriminate C|].
        split; [intros ? ? ? C; discriminate C|reflexivity].
      * split; [split; discriminate|]. split; [split; [split; [discriminate|reflexivity]|reflexivity]|].
        split; [|split; [left; reflexivity|]].
        { intros n. split; [discriminate|]. intros (_ & -> & L). cbn in L. lia. }
        split; [intros ? ? C; discriminate C|].
        split; [intros ? ? ? C; discriminate C|reflexivity].
    + (* exactly one title *)
      injection Single as ->.
      destruct (prompt title (Invariants.defaultRanking title st)) as [result value] eqn:P.
      pose proof (One title result value eq_refl P) as O.
      assert (Set_ : result = true -> value <> [] ->
                out = (RankingActions.ManualRankingSet title (trim value),
                       ManualOverrides.set stringify title (trim value) st)).
      { intros -> NV. rewrite O. destruct value; [contradiction|]. reflexivity. }
      assert (Not : result = false \/ value = [] -> out = (RankingActions.NothingSet, st)).
      { intros [-> | ->]; rewrite O; [reflexivity|].
        rewrite andb_false_r. reflexivity. }
      assert (D : fst out = RankingActions.ManualRankingSet title (trim value)
                  \/ fst out = RankingActions.NothingSet).
      { rewrite O. destruct (result && negb (length value =? 0)); [left|right]; reflexivity. }
      destruct (Kinds title (fst out) value eq_refl D) as (K1 & K2 & K3).
      split; [exact K1|]. split; [exact K2|]. split; [exact K3|].
      split.
      { destruct result; [|left; rewrite (Not (or_introl eq_refl)); reflexivity].
        destruct value as [|c value'];
          [left; rewrite (Not (or_intror eq_refl)); reflexivity|].
        right. exists title, (c :: value').
        split; [reflexivity|]. split; [exact P|]. split; [discriminate|].
        apply Set_; [reflexivity|discriminate]. }
      split.
      { intros title' value' T' P' NV. injection T' as <-.
        rewrite P in P'. injection P' as -> ->.
        rewrite (Set_ eq_refl NV). split; [reflexivity|]. cbn [snd].
        unfold ManualOverrides.has, JSMap.has, ManualOverrides.get, ManualOverrides.set,
          ManualOverrides.save.
        cbn [ManualOverrides.overrides]. rewrite get_set_same.
        split; [reflexivity|]. split; [reflexivity|].
        intros other N. apply get_set_other, N. }
      split.
      { intros title' result' value' T' P' C. injection T' as <-.
        rewrite P in P'. injection P' as -> ->. apply Not, C. }
      intros N. exfalso. apply (N title). reflexivity.
  - (* two titles or more *)
    assert (N : forall title, titles <> [title]).
    { intros title T. apply NotSingle. rewrite T. reflexivity. }
    rewrite (Many N).
    destruct titles as [|title [|title2 more]] eqn:T;
      [contradiction NotSingle; reflexivity|contradiction NotSingle; reflexivity|].
    destruct items as [|item items]; [discriminate T|]. cbn [fst snd].
    split; [split; discriminate|].
    split; [split; [discriminate|intros [_ C]; discriminate C]|].
    split.
    { intros n. split.
      - intros E. injection E as <-. split; [discriminate|]. split; [reflexivity|].
        cbn [length]. lia.
      - intros (_ & -> & _). reflexivity. }
    split; [left; reflexivity|].
    split; [intros ? ? C; discriminate C|].
    split; [intros ? ? ? C; discriminate C|reflexivity].
Qed.

(** X13.  An input of white space only, confirmed, is stored as the empty
    ranking: the title then has an override, but one that does not count
    as set, so that clearing the same selection reports no manual
    rankings and leaves the entry in place. *)
Theorem blank_ranking_is_stored_and_never_cleared
    (Item : Type) (isRegularItem : Item -> bool)
    (extractPublicationTitle : Item -> option str)
    (stringify : list (str * ManualOverrides.json) -> str)
    (prompt : str -> ManualOverrides.json -> bool * str)
    (items : list Item) (st : ManualOverrides.State) (title value : str) :
  RankingActions.selectedTitles isRegularItem extractPublicationTitle items = [title] ->
  (forall default, prompt title default = (true, value)) ->
  value <> [] ->
  forallb is_space value = true ->
  exists st',
    RankingActions.setManualRankingDialog isRegularItem extractPublicationTitle
      stringify prompt items st
    = (RankingActions.ManualRankingSet title [], st') /\
    ManualOverrides.get title st' = Some (ManualOverrides.JString []) /\
    ManualOverrides.has title st' = true /\
    RankingActions.clearManualRankingForSelected isRegularItem extractPublicationTitle
      stringify items st'
    = (RankingActions.NoManualRankings, st').
Proof.
  intros T P NE Sp.
  assert (Tr : trim value = []).
  { pose proof (trim_pad value [] [] Sp eq_refl) as H. cbn [app] in H.
    rewrite app_nil_r in H. exact H. }
  exists (ManualOverrides.set stringify title [] st).
  assert (G : ManualOverrides.get title (ManualOverrides.set stringify title [] st)
              = Some (ManualOverrides.JString [])).
  { unfold ManualOverrides.get, ManualOverrides.set, ManualOverrides.save.
    cbn [ManualOverrides.overrides]. apply get_set_same. }
  destruct items as [|item items]; [discriminate T|].
  split; [|split; [exact G|split]].
  - unfold RankingActions.setManualRankingDialog. rewrite T, P.
    destruct value; [contradiction|]. cbn [length Nat.eqb negb andb].
    rewrite Tr. reflexivity.
  - unfold ManualOverrides.has, JSMap.has. unfold ManualOverrides.get in G.
    rewrite G. reflexivity.
  - unfold RankingActions.clearManualRankingForSelected. rewrite T.
    cbn [fold_left]. unfold RankingActions.clearStep. cbn [fst snd].
    rewrite G. reflexivity.
Qed.

Lemma blank_ranking_is_stored_and_never_cleared_witness :
  let stringify := fun _ : list (str * ManualOverrides.json) => chars "{}" in
  let prompt := fun (_ : str) (_ : ManualOverrides.json) => (true, chars "  ") in
  let st := {| ManualOverrides.overrides := JSMap.empty ManualOverrides.json;
               ManualOverrides.stored := None |} in
  let items := [Some (chars "Nature")] in
  exists st',
    RankingActions.setManualRankingDialog (fun _ : option str => true)
      (fun item => item) stringify prompt items st
    = (RankingActions.ManualRankingSet (chars "Nature") [], st') /\
    ManualOverrides.get (chars "Nature") st' = Some (ManualOverrides.JString []) /\
    ManualOverrides.has (chars "Nature") st' = true /\
    RankingActions.clearManualRankingForSelected (fun _ : option str => true)
      (fun item => item) stringify items st'
    = (RankingActions.NoManualRankings, st').
Proof.
  intros stringify prompt st items.
  apply (blank_ranking_is_stored_and_never_cleared (option str) (fun _ => true)
           (fun item => item) stringify prompt items st (chars "Nature") (chars "  ")).
  - reflexivity.
  - reflexivity.
  - discriminate.
  - reflexivity.
Defined.

(** ** What the normaliser does not see *)

Section MoreNormalForm.
Import MatchingUtils NormalForm.

Lemma prepared_app x y : prepared (x ++ y) = prepared x ++ prepared y.
Proof.
  unfold prepared. rewrite !replace_chr. unfold toLowerCase.
  rewrite map_app, flat_map_app. reflexivity.
Qed.

Lemma prepared_amp : prepared [amp] = chars "and".
Proof. reflexivity. Qed.

Lemma prepared_and : prepared (chars "and") = chars "and".
Proof. reflexivity. Qed.

Lemma prepared_marks m :
  Forall (fun c => is_mark c = true) m ->
  Forall (fun c => is_word c = false) (prepared m) /\ length (prepared m) = length m.
Proof.
  unfold prepared. rewrite replace_chr. unfold toLowerCase.
  induction 1 as [|c m Hc _ [IH1 IH2]]; [split; [constructor|reflexivity]|].
  cbn [map flat_map]. rewrite (mark_not_amp _ (mark_lower _ Hc)).
  cbn [app length]. split; [|congruence].
  constructor; [apply mark_not_word, mark_lower, Hc|exact IH1].
Qed.

Lemma chunk_app_sep u c v :
  is_word c = false ->
  chunk (u ++ c :: v)
  = (fst (chunk u), snd (chunk u) ++ (c, fst (chunk v)) :: snd (chunk v)).
Proof.
  intros Hc. induction u as [|d u IH].
  - cbn [app chunk]. destruct (chunk v) as [t l]. rewrite Hc. reflexivity.
  - cbn [app chunk]. rewrite IH. destruct (chunk u) as [t l]. cbn [fst snd].
    destruct (is_word d); reflexivity.
Qed.

Lemma runs_app_sep u c v :
  is_word c = false -> runs (u ++ c :: v) = runs u ++ runs v.
Proof.
  intros Hc. unfold runs. rewrite chunk_app_sep by exact Hc. cbn [fst snd].
  rewrite map_app. reflexivity.
Qed.

Lemma words_app_sep u c v :
  is_word c = false -> words (u ++ c :: v) = words u ++ words v.
Proof.
  intros Hc. unfold words. rewrite runs_app_sep by exact Hc. apply filter_app.
Qed.

Lemma words_nil : words [] = [].
Proof. reflexivity. Qed.

Lemma words_app_seps m : forall u v,
  Forall (fun c => is_word c = false) m -> m <> [] ->
  words (u ++ m ++ v) = words u ++ words v.
Proof.
  induction m as [|c m IH]; intros u v F NE; [contradiction|].
  inversion F as [|? ? Hc F']; subst. cbn [app].
  rewrite words_app_sep by exact Hc. destruct m as [|d m].
  - reflexivity.
  - rewrite <- (app_nil_l ((d :: m) ++ v)), (IH [] v F') by discriminate.
    reflexivity.
Qed.

Lemma words_wordy w : wordy w -> w <> [] -> words w = [w].
Proof.
  intros W NE. unfold words, runs.
  rewrite <- (app_nil_r w) at 1 2. rewrite chunk_wordy_app by exact W.
  cbn [chunk fst snd map]. rewrite app_nil_r. cbn [filter].
  destruct w; [contradiction|reflexivity].
Qed.

End MoreNormalForm.

(** X14.  [normalizeString] does not see the case of letters, and reads an
    ampersand as the letters [and] written in its place. *)
Theorem normalizeString_ignores_case_and_ampersand :
  (forall s s', toLowerCase s = toLowerCase s' ->
     MatchingUtils.normalizeString s = MatchingUtils.normalizeString s') /\
  (forall x y,
     MatchingUtils.normalizeString (x ++ MatchingUtils.amp :: y)
     = MatchingUtils.normalizeString (x ++ chars "and" ++ y)) /\
  (forall x y,
     MatchingUtils.normalizeString (x ++ chars "AND" ++ y)
     = MatchingUtils.normalizeString (x ++ MatchingUtils.amp :: y)).
Proof.
  split; [|split].
  - intros s s' E. rewrite <- (normalizeString_toLowerCase s), E.
    apply normalizeString_toLowerCase.
  - intros x y. rewrite !normalizeString_words.
    change (x ++ MatchingUtils.amp :: y) with (x ++ [MatchingUtils.amp] ++ y).
    rewrite !prepared_app, prepared_amp, prepared_and. reflexivity.
  - intros x y. rewrite !normalizeString_words.
    change (x ++ MatchingUtils.amp :: y) with (x ++ [MatchingUtils.amp] ++ y).
    rewrite !prepared_app, prepared_amp. reflexivity.
Qed.

Lemma lower_mark c :
  NormalForm.is_mark (toLowerChar c) = true -> NormalForm.is_mark c = true.
Proof. by_cases_on_ascii c. Qed.

(** X15.  [normalizeString] does not see punctuation and spacing beyond
    the separation of words: any non-empty stretch of code units whose
    lower-case forms are neither word code units nor the ampersand reads
    as one space between two texts, and as nothing at the start or the
    end. *)
Theorem normalizeString_ignores_punctuation (m x y : str) :
  Forall (fun c => NormalForm.is_mark (toLowerChar c) = true) m ->
  m <> [] ->
  MatchingUtils.normalizeString (x ++ m ++ y)
  = MatchingUtils.normalizeString (x ++ chars " " ++ y) /\
  MatchingUtils.normalizeString (m ++ x) = MatchingUtils.normalizeString x /\
  MatchingUtils.normalizeString (x ++ m) = MatchingUtils.normalizeString x.
Proof.
  intros F' NE.
  assert (F : Forall (fun c => NormalForm.is_mark c = true) m).
  { apply Forall_forall. intros c I. rewrite Forall_forall in F'.
    apply lower_mark, F', I. }
  destruct (prepared_marks m F) as [W L].
  assert (NE' : NormalForm.prepared m <> []).
  { intros E. rewrite E in L. destruct m; [contradiction|discriminate]. }
  rewrite !normalizeString_words, !prepared_app.
  change (NormalForm.prepared (chars " ")) with [" "%char].
  rewrite (words_app_seps _ _ _ W NE').
  split; [|split].
  - change ([" "%char] ++ NormalForm.prepared y) with (" "%char :: NormalForm.prepared y).
    rewrite words_app_sep by reflexivity. reflexivity.
  - rewrite <- (app_nil_l (NormalForm.prepared m ++ NormalForm.prepared x)).
    rewrite (words_app_seps _ _ _ W NE'). reflexivity.
  - rewrite <- (app_nil_r (NormalForm.prepared m)) at 1.
    rewrite (words_app_seps _ _ _ W NE'), words_nil, app_nil_r. reflexivity.
Qed.

Lemma normalizeString_ignores_punctuation_witness :
  MatchingUtils.normalizeString (chars "Computer" ++ chars ", - " ++ chars "Networks")
  = MatchingUtils.normalizeString (chars "Computer" ++ chars " " ++ chars "Networks") /\
  MatchingUtils.normalizeString (chars ", - " ++ chars "Computer")
  = MatchingUtils.normalizeString (chars "Computer") /\
  MatchingUtils.normalizeString (chars "Computer" ++ chars ", - ")
  = MatchingUtils.normalizeString (chars "Computer").
Proof.
  apply (normalizeString_ignores_punctuation (chars ", - ") (chars "Computer")
           (chars "Networks")).
  - repeat constructor.
  - discriminate.
Defined.

(** X16.  [normalizeString] reads each of the four spellings of
    telecommunication(s), in any case and standing as a word of its own,
    as the word [communications]. *)
Theorem normalizeString_reads_telecom_as_communications (x y v v' : str) :
  In (toLowerCase v) NormalForm.telecomVariants ->
  In (toLowerCase v') (chars "communications" :: NormalForm.telecomVariants) ->
  MatchingUtils.normalizeString (x ++ chars " " ++ v ++ chars " " ++ y)
  = MatchingUtils.normalizeString (x ++ chars " " ++ v' ++ chars " " ++ y).
Proof.
  intros Hv Hv'.
  assert (P : forall w, In (toLowerCase w)
                (chars "communications" :: NormalForm.telecomVariants) ->
              map NormalForm.fixTelecom (NormalForm.words (NormalForm.prepared w))
              = [chars "communications"]).
  { intros w I.
    assert (E : NormalForm.prepared w = toLowerCase w).
    { unfold NormalForm.prepared. rewrite replace_chr.
      cbn in I. destruct I as [I|[I|[I|[I|[I|[]]]]]]; rewrite <- I; reflexivity. }
    rewrite E.
    cbn in I. destruct I as [I|[I|[I|[I|[I|[]]]]]]; rewrite <- I; reflexivity. }
  rewrite !normalizeString_words, !prepared_app.
  change (NormalForm.prepared (chars " ")) with [" "%char].
  assert (Q : forall w,
    NormalForm.words (NormalForm.prepared x ++ [" "%char] ++ NormalForm.prepared w
                      ++ [" "%char] ++ NormalForm.prepared y)
    = NormalForm.words (NormalForm.prepared x) ++ NormalForm.words (NormalForm.prepared w)
      ++ NormalForm.words (NormalForm.prepared y)).
  { intros w. cbn [app]. rewrite words_app_sep by reflexivity.
    rewrite words_app_sep by reflexivity. reflexivity. }
  rewrite !Q, !map_app, (P v), (P v'); [reflexivity|exact Hv'|right; exact Hv].
Qed.

Lemma normalizeString_reads_telecom_as_communications_witness :
  MatchingUtils.normalizeString
    (chars "Journal of" ++ chars " " ++ chars "Telecomunication" ++ chars " " ++ chars "Systems")
  = MatchingUtils.normalizeString
      (chars "Journal of" ++ chars " " ++ chars "COMMUNICATIONS" ++ chars " " ++ chars "Systems").
Proof.
  apply (normalizeString_reads_telecom_as_communications (chars "Journal of")
           (chars "Systems") (chars "Telecomunication") (chars "COMMUNICATIONS")).
  - left. reflexivity.
  - left. reflexivity.
Defined.

(** ** The acronym of a title *)

Section ClassIteration.
Variable p : ascii -> bool.
Variable k : K.

Lemma iterate_class_step n prev c s :
  iterate (run (Chr p)) k (S n) prev (c :: s)
  = if p c
    then match iterate (run (Chr p)) k n (Some c) s with
         | Some x => Some x
         | None => k prev (c :: s)
         end
    else k prev (c :: s).
Proof.
  cbn [iterate run]. destruct (p c); [|reflexivity].
  assert (L : (length s <? length (c :: s)) = true)
    by (apply Nat.ltb_lt; cbn [length]; lia).
  rewrite L. reflexivity.
Qed.

Lemma iterate_class_sound n : forall prev s x,
  iterate (run (Chr p)) k n prev s = Some x ->
  exists body s', s = body ++ s' /\ forallb p body = true /\
                  k (NormalForm.after prev body) s' = Some x.
Proof.
  induction n as [|n IH]; intros prev s x H.
  - exists [], s. split; [reflexivity|]. split; [reflexivity|exact H].
  - destruct s as [|c s].
    + exists [], []. split; [reflexivity|]. split; [reflexivity|exact H].
    + rewrite iterate_class_step in H. destruct (p c) eqn:Pc.
      * destruct (iterate (run (Chr p)) k n (Some c) s) as [y|] eqn:I.
        -- injection H as ->. destruct (IH _ _ _ I) as (body & s' & -> & F & Kx).
           exists (c :: body), s'. split; [reflexivity|].
           split; [cbn [forallb]; rewrite Pc; exact F|exact Kx].
        -- exists [], (c :: s). split; [reflexivity|]. split; [reflexivity|exact H].
      * exists [], (c :: s). split; [reflexivity|]. split; [reflexivity|exact H].
Qed.

Lemma iterate_class_greedy body : forall n prev s' x,
  forallb p body = true ->
  length (body ++ s') <= n ->
  match s' with [] => True | c :: _ => p c = false end ->
  k (NormalForm.after prev body) s' = Some x ->
  iterate (run (Chr p)) k n prev (body ++ s') = Some x.
Proof.
  induction body as [|c body IH]; intros n prev s' x F L E Kx.
  - cbn [app]. destruct n as [|n]; [exact Kx|].
    destruct s' as [|d s']; [exact Kx|]. rewrite iterate_class_step, E. exact Kx.
  - cbn [forallb] in F. apply andb_prop in F as [Pc F].
    destruct n as [|n]; [cbn [app length] in L; lia|].
    cbn [app]. rewrite iterate_class_step, Pc.
    rewrite (IH n (Some c) s' x F); [reflexivity| |exact E|exact Kx].
    cbn [app length] in L. lia.
Qed.

End ClassIteration.

Section MoreAcronym.
Import MatchingUtils Invariants.

Lemma exec_acronym_sound prev s prev' rest :
  exec re_acronym prev s = Some (prev', rest) ->
  exists a, s = "("%char :: a ++ ")"%char :: rest /\ isAcronym a = true.
Proof.
  unfold exec, re_acronym, Plus. cbn [run]. intros H.
  destruct s as [|c0 s]; [discriminate|].
  destruct (Ascii.eqb "(" c0) eqn:E0; [|discriminate].
  apply Ascii.eqb_eq in E0. subst c0.
  destruct s as [|u s]; [discriminate|].
  destruct (is_upper u) eqn:Eu; [|discriminate].
  destruct s as [|c1 s]; [discriminate|].
  destruct (is_upper c1 || is_digit c1 || Ascii.eqb c1 amp) eqn:E1; [|discriminate].
  apply iterate_class_sound in H as (body & s' & -> & F & H).
  destruct s' as [|c2 s']; [discriminate|].
  destruct (Ascii.eqb ")" c2) eqn:E2; [|discriminate].
  apply Ascii.eqb_eq in E2. subst c2. inversion H; subst.
  exists (u :: c1 :: body). split; [reflexivity|].
  cbn [isAcronym forallb]. unfold acronymChar at 1. rewrite Eu, E1. exact F.
Qed.

Lemma exec_acronym_complete prev a post :
  isAcronym a = true ->
  exec re_acronym prev ("("%char :: a ++ ")"%char :: post)
  = Some (Some ")"%char, post).
Proof.
  intros A. destruct a as [|u [|c1 body]]; [discriminate|discriminate|].
  cbn [isAcronym forallb] in A.
  apply andb_prop in A as [Eu A]. apply andb_prop in A as [E1 F].
  unfold acronymChar in E1.
  unfold exec, re_acronym, Plus. cbn [run app Ascii.eqb Bool.eqb andb].
  rewrite Eu, E1.
  apply iterate_class_greedy; [exact F|apply le_n|reflexivity|reflexivity].
Qed.

Lemma exec_acronym_other prev c s :
  c <> "("%char -> exec re_acronym prev (c :: s) = None.
Proof.
  intros N. unfold exec, re_acronym. cbn [run].
  destruct (Ascii.eqb "(" c) eqn:E; [|reflexivity].
  apply Ascii.eqb_eq in E. congruence.
Qed.

Lemma firstn_suffix (s rest : str) :
  NormalForm.suffix rest s ->
  exists p, s = p ++ rest /\ firstn (length s - length rest) s = p.
Proof.
  intros [p ->]. exists p. split; [reflexivity|].
  rewrite length_app, Nat.add_sub, firstn_app, Nat.sub_diag, firstn_all.
  cbn [firstn]. apply app_nil_r.
Qed.

Lemma search_found r : forall s prev m,
  search r prev s = Some m ->
  exists pre rest prev0 prev',
    s = pre ++ m ++ rest /\ exec r prev0 (m ++ rest) = Some (prev', rest).
Proof.
  assert (Hit : forall s prev prev' rest m,
    exec r prev s = Some (prev', rest) ->
    Some (firstn (length s - length rest) s) = Some m ->
    exists pre rest prev0 prev',
      s = pre ++ m ++ rest /\ exec r prev0 (m ++ rest) = Some (prev', rest)).
  { intros s prev prev' rest m E H.
    destruct (firstn_suffix s rest (exec_suffix _ _ _ _ _ E)) as (p & Hp & Fp).
    rewrite Fp in H. injection H as <-.
    exists [], rest, prev, prev'. split; [exact Hp|]. rewrite <- Hp. exact E. }
  induction s as [|c s IH]; intros prev m H; cbn [search] in H.
  - destruct (exec r prev []) as [[prev' rest]|] eqn:E; [|discriminate].
    eapply Hit; eassumption.
  - destruct (exec r prev (c :: s)) as [[prev' rest]|] eqn:E.
    + eapply Hit; eassumption.
    + destruct (IH _ _ H) as (pre & rest & prev0 & prev' & -> & E').
      exists (c :: pre), rest, prev0, prev'. split; [reflexivity|exact E'].
Qed.

Lemma search_acronym_skip pre : forall prev s,
  forallb (fun c => negb (isParen c)) pre = true ->
  search re_acronym prev (pre ++ "("%char :: s)
  = search re_acronym (NormalForm.after prev pre) ("("%char :: s).
Proof.
  induction pre as [|c pre IH]; intros prev s F; [reflexivity|].
  cbn [forallb] in F. apply andb_prop in F as [Nc F].
  cbn [app search]. rewrite exec_acronym_other.
  - apply IH, F.
  - intros ->. discriminate Nc.
Qed.

End MoreAcronym.

(** X17.  What [extractAcronym] returns stands in the title between
    parentheses, starts with a capital A-Z and goes on with at least one
    more of A-Z, 0-9 and the ampersand; so it has two code units or more. *)
Theorem extractAcronym_sound (title a : str) :
  MatchingUtils.extractAcronym title = Some a ->
  Invariants.isAcronym a = true /\
  2 <= length a /\
  exists pre post, title = pre ++ chars "(" ++ a ++ chars ")" ++ post.
Proof.
  unfold MatchingUtils.extractAcronym.
  destruct (search MatchingUtils.re_acronym None title) as [m|] eqn:S; [|discriminate].
  intros H. inversion H; subst a. clear H.
  apply search_found in S as (pre & rest & prev0 & prev' & -> & E).
  apply exec_acronym_sound in E as (a & E & A).
  assert (M : m = "("%char :: a ++ [")"%char]).
  { apply (app_inv_tail rest). rewrite E. cbn [app]. rewrite <- app_assoc. reflexivity. }
  subst m. cbn [tl]. rewrite removelast_last.
  split; [exact A|]. split.
  - destruct a as [|u [|c a]]; [discriminate|discriminate|cbn [length]; lia].
  - exists pre, rest. cbn [chars list_ascii_of_string app]. rewrite <- app_assoc.
    reflexivity.
Qed.

Lemma extractAcronym_sound_witness :
  Invariants.isAcronym (chars "S&P") = true /\
  2 <= length (chars "S&P") /\
  exists pre post,
    chars "IEEE Symposium on Security and Privacy (S&P) 2024"
    = pre ++ chars "(" ++ chars "S&P" ++ chars ")" ++ post.
Proof.
  apply (extractAcronym_sound
           (chars "IEEE Symposium on Security and Privacy (S&P) 2024") (chars "S&P")).
  reflexivity.
Defined.

(** X18.  [extractAcronym] finds the acronym in the first parentheses of
    a title: when nothing before them is an opening parenthesis and what
    they hold is a capital A-Z followed by at least one more of A-Z, 0-9
    and the ampersand, that text is returned. *)
Theorem extractAcronym_first_parentheses (pre a post : str) :
  forallb (fun c => negb (Invariants.isParen c)) pre = true ->
  Invariants.isAcronym a = true ->
  MatchingUtils.extractAcronym (pre ++ chars "(" ++ a ++ chars ")" ++ post) = Some a.
Proof.
  intros F A. unfold MatchingUtils.extractAcronym.
  cbn [chars list_ascii_of_string app].
  rewrite search_acronym_skip by exact F.
  cbn [search]. rewrite exec_acronym_complete by exact A.
  assert (Sx : NormalForm.suffix post ("("%char :: a ++ ")"%char :: post)).
  { exists ("("%char :: a ++ [")"%char]). cbn [app]. rewrite <- app_assoc. reflexivity. }
  destruct (firstn_suffix _ _ Sx) as (p & Hp & ->).
  assert (M : p = "("%char :: a ++ [")"%char]).
  { apply (app_inv_tail post). rewrite <- Hp. cbn [app]. rewrite <- app_assoc.
    reflexivity. }
  subst p. cbn [tl]. rewrite removelast_last. reflexivity.
Qed.

Lemma extractAcronym_first_parentheses_witness :
  MatchingUtils.extractAcronym
    (chars "Proc. 3rd Workshop " ++ chars "(" ++ chars "W3C2" ++ chars ")" ++ chars " (B)")
  = Some (chars "W3C2").
Proof.
  apply (extractAcronym_first_parentheses (chars "Proc. 3rd Workshop ") (chars "W3C2")
           (chars " (B)")).
  - reflexivity.
  - reflexivity.
Defined.

(** ** What the matchers return *)

Section MoreMatchers.
Import MatchingUtils Tables.

Lemma forIn_sound {E R : Type} (body : str -> E -> outcome (option R)) table r :
  forIn body table = Returned (Some r) ->
  exists t e, In (t, e) table /\ body t e = Returned (Some r).
Proof.
  induction table as [|[t e] table IH]; [discriminate|].
  cbn [forIn]. destruct (body t e) as [[r'|]|x] eqn:B.
  - intros H. exists t, e. split; [left; reflexivity|]. rewrite B. exact H.
  - intros H. destruct (IH H) as (t' & e' & I & B').
    exists t', e'. split; [right; exact I|exact B'].
  - discriminate.
Qed.

Lemma forIn_test_sound {E R : Type} (test : str -> E -> bool) (res : E -> R) table r :
  forIn (fun t e => if test t e then Returned (Some (res e)) else Returned None) table
  = Returned (Some r) ->
  exists t e, In (t, e) table /\ r = res e.
Proof.
  intros H. apply forIn_sound in H as (t & e & I & B).
  exists t, e. split; [exact I|].
  destruct (test t e); [|discriminate]. congruence.
Qed.

Lemma forIn_first {E R : Type} (test : str -> E -> bool) (res : E -> R)
    pre k e post :
  test k e = true ->
  (forall k' e', In (k', e') pre -> test k' e' = false) ->
  forIn (fun t e => if test t e then Returned (Some (res e)) else Returned None)
    (pre ++ (k, e) :: post)
  = Returned (Some (res e)).
Proof.
  intros T N. induction pre as [|[k' e'] pre IH].
  - cbn [app forIn]. rewrite T. reflexivity.
  - cbn [app forIn]. rewrite (N k' e') by (left; reflexivity).
    apply IH. intros k0 e0 I. apply N. right; exact I.
Qed.

Lemma coreAcronym_sound coreRankings z r :
  coreAcronym coreRankings z = Returned (Some r) ->
  exists k e, In (k, e) coreRankings /\ r = rank e.
Proof.
  unfold coreAcronym. destruct z as [a|]; [|discriminate].
  destruct (negb (length a =? 0) && (4 <=? length a)); [|discriminate].
  rewrite acronymMatches_filter.
  destruct (filter (hasAcronym a) coreRankings) as [|[k e] [|m ms]] eqn:F;
    cbn [map length Nat.eqb]; [discriminate| |discriminate].
  cbn [index nth_error bind fst snd]. intros H. exists k, e. split; [|congruence].
  assert (I : In (k, e) (filter (hasAcronym a) coreRankings))
    by (rewrite F; left; reflexivity).
  apply filter_In in I. apply I.
Qed.

Lemma matchCoreConference_sound coreRankings title r :
  matchCoreConference coreRankings title = Returned (Some r) ->
  exists k e, In (k, e) coreRankings /\ r = rank e.
Proof.
  unfold matchCoreConference.
  set (z := normalizeString (cleanConferenceTitle title)).
  destruct (coreExact coreRankings z) as [[r1|]|x] eqn:S1; cbn [bind];
    [intros H; injection H as ->; unfold coreExact in S1; cbv zeta in S1;
     apply (forIn_test_sound _ rank) in S1; exact S1| |
     discriminate].
  destruct (coreSubstring coreRankings z) as [[r2|]|x] eqn:S2; cbn [bind];
    [intros H; injection H as ->; unfold coreSubstring in S2; cbv zeta in S2;
     apply (forIn_test_sound _ rank) in S2; exact S2| |
     discriminate].
  destruct (coreReverseSubstring coreRankings z) as [[r3|]|x] eqn:S3; cbn [bind];
    [intros H; injection H as ->; unfold coreReverseSubstring in S3; cbv zeta in S3;
     apply (forIn_test_sound _ rank) in S3; exact S3| |
     discriminate].
  destruct (coreWordOverlap coreRankings z) as [[r4|]|x] eqn:S4; cbn [bind];
    [intros H; injection H as ->; unfold coreWordOverlap in S4; cbv zeta in S4;
     apply (forIn_test_sound _ rank) in S4; exact S4| |
     discriminate].
  apply coreAcronym_sound.
Qed.

Lemma firstPair_In {E : Type} (test : str -> E -> bool) table k e :
  firstPair test table = Some (k, e) -> In (k, e) table.
Proof. unfold firstPair. intros H. apply find_some in H. apply H. Qed.

Lemma option_map_some {A B : Type} (f : A -> B) o b :
  option_map f o = Some b -> exists a, o = Some a /\ b = f a.
Proof.
  destruct o as [a|]; [|discriminate]. cbn [option_map]. intros H.
  injection H as <-. exists a. split; reflexivity.
Qed.

Lemma matchSjrJournal_sound sjrRankings title e :
  matchSjrJournal sjrRankings title = Returned (Some e) ->
  exists k, In (k, e) sjrRankings.
Proof.
  unfold matchSjrJournal.
  destruct (sjrNormalizedExact sjrRankings title) as [[e1|]|x] eqn:S1; cbn [bind];
    [| |discriminate].
  { intros H. injection H as ->. unfold sjrNormalizedExact in S1. cbv zeta in S1.
    apply (forIn_test_sound _ (fun e => e)) in S1 as (k & e' & I & ->).
    exists k. exact I. }
  rewrite sjrCleaned_find. cbn [bind].
  destruct (firstPair _ sjrRankings) as [[k2 e2]|] eqn:F2; cbn [option_map snd].
  { intros H. injection H as <-. exists k2. apply (firstPair_In _ _ _ _ F2). }
  rewrite sjrWordOverlap_find. intros H. injection H as H.
  apply option_map_some in H as ([k3 e3] & F3 & ->).
  exists k3. apply (firstPair_In _ _ _ _ F3).
Qed.

Lemma ranking_cons sjrData :
  exists c s, SJRDatabase.ranking sjrData = c :: s.
Proof.
  unfold SJRDatabase.ranking. destruct (quartile sjrData) as [|c q].
  - eexists _, _. reflexivity.
  - exists c, (q ++ chars " " ++ sjr sjrData). reflexivity.
Qed.

Lemma match_sound sjrRankings title r :
  SJRDatabase.match_ sjrRankings title = Returned (Some r) ->
  exists k e, In (k, e) sjrRankings /\ r = SJRDatabase.ranking e.
Proof.
  unfold SJRDatabase.match_, SJRDatabase.orElse.
  rewrite matchExact_find, matchFuzzy_find, matchWordOverlap_find. cbn [bind].
  assert (G : forall test o,
    o = option_map (fun te : str * SjrEntry => SJRDatabase.ranking (snd te))
          (firstPair test sjrRankings) ->
    forall c s, o = Some (c :: s) ->
    exists k e, In (k, e) sjrRankings /\ c :: s = SJRDatabase.ranking e).
  { intros test o -> c s H. apply option_map_some in H as ([k e] & F & ->).
    exists k, e. split; [apply (firstPair_In _ _ _ _ F)|reflexivity]. }
  match goal with |- context [match ?o with Some _ => _ | None => _ end] =>
    destruct o as [[|c s]|] eqn:O1 end.
  - apply option_map_some in O1 as ([k e] & _ & O1).
    destruct (ranking_cons e) as (c & s & R). cbn [snd] in O1. congruence.
  - intros H. injection H as <-. eapply G; [|exact O1]. reflexivity.
  - clear O1. cbn [bind].
    match goal with |- context [match ?o with Some _ => _ | None => _ end] =>
      destruct o as [[|c s]|] eqn:O2 end.
    + apply option_map_some in O2 as ([k e] & _ & O2).
      destruct (ranking_cons e) as (c & s & R). cbn [snd] in O2. congruence.
    + intros H. injection H as <-. eapply G; [|exact O2]. reflexivity.
    + intros H. injection H as H. apply option_map_some in H as ([k e] & F & ->).
      exists k, e. split; [apply (firstPair_In _ _ _ _ F)|reflexivity].
Qed.

End MoreMatchers.

(** X19.  The matchers never make a ranking up: what
    [matchCoreConference] returns is the rank of an entry of the CORE
    table, what [matchSjrJournal] returns is an entry of the SJR table,
    and what the SJR plugin's [match] returns is the quartile and score of
    an entry of the SJR table; on an empty table each returns nothing. *)
Theorem matchers_return_rankings_of_the_table
    (coreRankings : MatchingUtils.CoreTable) (sjrRankings : MatchingUtils.SjrTable)
    (title : str) :
  (forall r,
     MatchingUtils.matchCoreConference coreRankings title = Returned (Some r) ->
     exists k e, In (k, e) coreRankings /\ r = MatchingUtils.rank e) /\
  (forall e,
     MatchingUtils.matchSjrJournal sjrRankings title = Returned (Some e) ->
     exists k, In (k, e) sjrRankings) /\
  (forall r,
     SJRDatabase.match_ sjrRankings title = Returned (Some r) ->
     exists k e, In (k, e) sjrRankings /\
       r = MatchingUtils.quartile e ++ chars " " ++ MatchingUtils.sjr e) /\
  MatchingUtils.matchCoreConference [] title = Returned None /\
  MatchingUtils.matchSjrJournal [] title = Returned None /\
  SJRDatabase.match_ [] title = Returned None.
Proof.
  split; [intros r; apply matchCoreConference_sound|].
  split; [intros e; apply matchSjrJournal_sound|].
  split; [intros r; apply match_sound|].
  split; [|split; reflexivity].
  unfold MatchingUtils.matchCoreConference. cbn [MatchingUtils.coreExact
    MatchingUtils.coreSubstring MatchingUtils.coreReverseSubstring
    MatchingUtils.coreWordOverlap MatchingUtils.forIn bind].
  unfold MatchingUtils.coreAcronym.
  destruct (MatchingUtils.extractAcronym title) as [a|]; [|reflexivity].
  destruct (negb (length a =? 0) && (4 <=? length a)); reflexivity.
Qed.

(** X20.  An exact match wins over every other strategy: the first CORE
    entry whose normalised title is the normalised cleaned title gives the
    result of [matchCoreConference], the first SJR entry whose normalised
    title is the normalised title gives that of [matchSjrJournal], and the
    first SJR entry whose title is the title up to case gives that of the
    SJR plugin's [match]. *)
Theorem exact_match_wins
    (coreRankings : MatchingUtils.CoreTable) (sjrRankings : MatchingUtils.SjrTable)
    (title : str) :
  (forall pre k e post,
     coreRankings = pre ++ (k, e) :: post ->
     MatchingUtils.normalizeString k
     = MatchingUtils.normalizeString (MatchingUtils.cleanConferenceTitle title) ->
     (forall k' e', In (k', e') pre ->
        MatchingUtils.normalizeString k'
        <> MatchingUtils.normalizeString (MatchingUtils.cleanConferenceTitle title)) ->
     MatchingUtils.matchCoreConference coreRankings title
     = Returned (Some (MatchingUtils.rank e))) /\
  (forall pre k e post,
     sjrRankings = pre ++ (k, e) :: post ->
     MatchingUtils.normalizeString k = MatchingUtils.normalizeString title ->
     (forall k' e', In (k', e') pre ->
        MatchingUtils.normalizeString k' <> MatchingUtils.normalizeString title) ->
     MatchingUtils.matchSjrJournal sjrRankings title = Returned (Some e)) /\
  (forall pre k e post,
     sjrRankings = pre ++ (k, e) :: post ->
     toLowerCase k = toLowerCase title ->
     (forall k' e', In (k', e') pre -> toLowerCase k' <> toLowerCase title) ->
     SJRDatabase.match_ sjrRankings title = Returned (Some (SJRDatabase.ranking e))) /\
  (let icse :=
     [(chars "International Conference on Software Engineering",
       {| MatchingUtils.rank := chars "A*"; MatchingUtils.acronym := Some (chars "ICSE") |})] in
   MatchingUtils.matchCoreConference icse
     (chars "Proceedings of the 2024 International Conference on Software Engineering")
   = Returned (Some (chars "A*"))).
Proof.
  split; [|split; [|split]].
  - intros pre k e post -> Ek N.
    unfold MatchingUtils.matchCoreConference, MatchingUtils.coreExact.
    rewrite (forIn_first
               (fun t _ => str_eqb (MatchingUtils.normalizeString t)
                  (MatchingUtils.normalizeString (MatchingUtils.cleanConferenceTitle title)))
               MatchingUtils.rank).
    + reflexivity.
    + apply str_eqb_eq, Ek.
    + intros k' e' I. apply str_eqb_neq, (N k' e' I).
  - intros pre k e post -> Ek N.
    unfold MatchingUtils.matchSjrJournal, MatchingUtils.sjrNormalizedExact.
    rewrite (forIn_first
               (fun t _ => str_eqb (MatchingUtils.normalizeString t)
                  (MatchingUtils.normalizeString (toLowerCase title)))
               (fun e => e)).
    + reflexivity.
    + rewrite normalizeString_toLowerCase. apply str_eqb_eq, Ek.
    + intros k' e' I. rewrite normalizeString_toLowerCase.
      apply str_eqb_neq, (N k' e' I).
  - intros pre k e post -> Ek N.
    unfold SJRDatabase.match_, SJRDatabase.matchExact.
    rewrite (forIn_first
               (fun t _ => str_eqb (toLowerCase t) (toLowerCase title))
               SJRDatabase.ranking).
    + unfold SJRDatabase.orElse. cbn [bind].
      destruct (ranking_cons e) as (c & s & ->). reflexivity.
    + apply str_eqb_eq, Ek.
    + intros k' e' I. apply str_eqb_neq, (N k' e' I).
  - vm_compute. reflexivity.
Qed.

(** ** Keys cut at the first comma *)

Section MoreComma.
Import MatchingUtils Tables Invariants.

Lemma split_head_no_comma k : forall tail,
  forallb (fun c => negb (isComma c)) k = true ->
  hd [] (split ","%char (k ++ ","%char :: tail)) = k.
Proof.
  induction k as [|c k IH]; intros tail F; [reflexivity|].
  cbn [forallb] in F. apply andb_prop in F as [Nc F].
  cbn [app split]. unfold isComma in Nc. destruct (Ascii.eqb c ",") eqn:E; [discriminate|].
  specialize (IH tail F).
  destruct (split ","%char (k ++ ","%char :: tail)) as [|w ws] eqn:S.
  - exfalso. apply (split_not_nil _ _ S).
  - cbn [hd] in *. rewrite IH. reflexivity.
Qed.

Lemma split_no_comma k :
  forallb (fun c => negb (isComma c)) k = true -> split ","%char k = [k].
Proof.
  induction k as [|c k IH]; intros F; [reflexivity|].
  cbn [forallb] in F. apply andb_prop in F as [Nc F].
  cbn [split]. unfold isComma in Nc. destruct (Ascii.eqb c ",") eqn:E; [discriminate|].
  rewrite (IH F). reflexivity.
Qed.

Lemma commaTruncated_tail k tail :
  forallb (fun c => negb (isComma c)) k = true ->
  commaTruncated (k ++ ","%char :: tail) = commaTruncated k.
Proof.
  intros F. unfold commaTruncated.
  rewrite split_head_no_comma, split_no_comma by exact F. reflexivity.
Qed.

Lemma firstPair_same_keys {E R : Type} (f : str -> str) (g : str -> bool)
    (res : E -> R) (t1 : list (str * E)) : forall t2,
  map (fun ke => (f (fst ke), snd ke)) t1 = map (fun ke => (f (fst ke), snd ke)) t2 ->
  option_map (fun te => res (snd te)) (firstPair (fun k _ => g (f k)) t1)
  = option_map (fun te => res (snd te)) (firstPair (fun k _ => g (f k)) t2).
Proof.
  unfold firstPair.
  induction t1 as [|[k1 e1] t1 IH]; intros [|[k2 e2] t2] H; try discriminate;
    [reflexivity|].
  cbn [map fst snd] in H. injection H as Hk He Ht. subst e2.
  cbn [find fst snd]. rewrite Hk. destruct (g (f k2)); [reflexivity|].
  apply IH, Ht.
Qed.

Lemma comma_key_same_keys {E : Type} (pre post : list (str * E)) k tail e :
  forallb (fun c => negb (isComma c)) k = true ->
  map (fun ke => (commaTruncated (fst ke), snd ke))
    (pre ++ (k ++ ","%char :: tail, e) :: post)
  = map (fun ke => (commaTruncated (fst ke), snd ke)) (pre ++ (k, e) :: post).
Proof.
  intros F. rewrite !map_app. cbn [map fst snd].
  rewrite commaTruncated_tail by exact F. reflexivity.
Qed.

End MoreComma.

(** X21.  The fuzzy strategy of the SJR plugin and the second and third
    strategies of [matchSjrJournal] read of a table key only what stands
    before its first comma: text added to a key after a comma changes
    none of their results. *)
Theorem fuzzy_strategies_read_keys_up_to_the_first_comma
    (pre post : MatchingUtils.SjrTable) (k tail : str) (e : MatchingUtils.SjrEntry)
    (title cleaned : str) :
  forallb (fun c => negb (Invariants.isComma c)) k = true ->
  SJRDatabase.matchFuzzy (pre ++ (k ++ chars "," ++ tail, e) :: post) title
  = SJRDatabase.matchFuzzy (pre ++ (k, e) :: post) title /\
  MatchingUtils.sjrCleaned (pre ++ (k ++ chars "," ++ tail, e) :: post) cleaned
  = MatchingUtils.sjrCleaned (pre ++ (k, e) :: post) cleaned /\
  MatchingUtils.sjrWordOverlap (pre ++ (k ++ chars "," ++ tail, e) :: post) cleaned
  = MatchingUtils.sjrWordOverlap (pre ++ (k, e) :: post) cleaned.
Proof.
  intros F. pose proof (comma_key_same_keys pre post k tail e F) as M.
  change (chars "," ++ tail) with (","%char :: tail).
  rewrite !matchFuzzy_find, !sjrCleaned_find, !sjrWordOverlap_find.
  split; [|split]; f_equal.
  - apply (firstPair_same_keys Tables.commaTruncated
             (fun h => str_eqb (MatchingUtils.normalizeString h)
                         (MatchingUtils.normalizeString
                            (MatchingUtils.cleanConferenceTitle title))
                       && (10 <? length (MatchingUtils.normalizeString h)))
             SJRDatabase.ranking _ _ M).
  - apply (firstPair_same_keys Tables.commaTruncated
             (fun h => str_eqb (MatchingUtils.normalizeString h) cleaned
                       && (10 <? length cleaned))
             (fun e => e) _ _ M).
  - apply (firstPair_same_keys Tables.commaTruncated
             (fun h => MatchingUtils.sjrOverlapAccepts
                         (MatchingUtils.significantWords cleaned)
                         (MatchingUtils.normalizeString h))
             (fun e => e) _ _ M).
Qed.

Lemma fuzzy_strategies_read_keys_up_to_the_first_comma_witness :
  let e := {| MatchingUtils.quartile := chars "Q1"; MatchingUtils.sjr := chars "1.5" |} in
  SJRDatabase.matchFuzzy
    ([] ++ [(chars "Computer Networks" ++ chars "," ++ chars " Amsterdam", e)])
    (chars "Computer Networks 2024")
  = SJRDatabase.matchFuzzy ([] ++ [(chars "Computer Networks", e)])
      (chars "Computer Networks 2024") /\
  SJRDatabase.matchFuzzy ([] ++ [(chars "Computer Networks", e)])
    (chars "Computer Networks 2024")
  = Returned (Some (chars "Q1 1.5")).
Proof.
  intros e. split; [|reflexivity].
  apply (fuzzy_strategies_read_keys_up_to_the_first_comma [] []
           (chars "Computer Networks") (chars " Amsterdam") e
           (chars "Computer Networks 2024") []).
  reflexivity.
Defined.

(** ** Cleaning a title *)

Section MoreCleaning.
Import MatchingUtils.

Lemma replace_from_shorter r rep :
  (forall prev s prev' rest,
     exec r prev s = Some (prev', rest) -> length rep + length rest <= length s) ->
  forall fuel prev s, length (replace_from fuel r rep prev s) <= length s.
Proof.
  intros H. induction fuel as [|fuel IH]; intros prev s; [apply le_n|].
  cbn [replace_from].
  assert (St : length (match s with
                       | [] => []
                       | c :: s' => c :: replace_from fuel r rep (Some c) s'
                       end) <= length s).
  { destruct s as [|c s']; [apply le_n|]. cbn [length]. specialize (IH (Some c) s'). lia. }
  destruct (exec r prev s) as [[prev' rest]|] eqn:E; [|exact St].
  specialize (H _ _ _ _ E).
  destruct (length rest <? length s) eqn:L; rewrite length_app.
  - specialize (IH prev' rest). lia.
  - apply Nat.ltb_ge in L. lia.
Qed.

Lemma replace_erases_shorter r s : length (replace r "" s) <= length s.
Proof.
  apply replace_from_shorter. intros prev t prev' rest E.
  destruct (exec_suffix _ _ _ _ _ E) as [p ->]. rewrite length_app. cbn. lia.
Qed.

Lemma replace_spaces_shorter s : length (replace re_spaces " " s) <= length s.
Proof.
  apply replace_from_shorter. intros prev t prev' rest E.
  destruct t as [|c t]; [rewrite exec_spaces_nil in E; discriminate|].
  destruct (exec_spaces_cons prev c t) as [p' E']. rewrite E' in E.
  destruct (is_space c); [|discriminate]. injection E as _ <-.
  pose proof (trimStart_length t). cbn [chars list_ascii_of_string length]. lia.
Qed.

Lemma trim_length s : length (trim s) <= length s.
Proof.
  unfold trim, trimEnd. rewrite length_rev.
  pose proof (trimStart_length (rev (trimStart s))) as A.
  pose proof (trimStart_length s) as B. rewrite length_rev in A. lia.
Qed.

Lemma squeeze_spaces b s :
  Forall (fun c => is_space c = true -> c = " "%char) (NormalForm.squeeze b s).
Proof.
  revert b. induction s as [|c s IH]; intros b; [constructor|].
  cbn [NormalForm.squeeze]. destruct (is_space c) eqn:E.
  - destruct b; [apply IH|]. constructor; [reflexivity|apply IH].
  - constructor; [congruence|apply IH].
Qed.

End MoreCleaning.

(** X22.  [cleanConferenceTitle] only takes text away: its result is no
    longer than the title, holds nothing but code units of the title and
    spaces, has no white space other than the space, and has none at
    either end. *)
Theorem cleanConferenceTitle_only_removes (title : str) :
  length (MatchingUtils.cleanConferenceTitle title) <= length title /\
  (forall c, In c (MatchingUtils.cleanConferenceTitle title) ->
     c = " "%char \/ In c title) /\
  (forall c, In c (MatchingUtils.cleanConferenceTitle title) ->
     is_space c = true -> c = " "%char) /\
  trim (MatchingUtils.cleanConferenceTitle title)
  = MatchingUtils.cleanConferenceTitle title /\
  MatchingUtils.cleanConferenceTitle [] = [].
Proof.
  split; [|split; [|split; [|split]]].
  - unfold MatchingUtils.cleanConferenceTitle.
    eapply Nat.le_trans; [apply trim_length|].
    eapply Nat.le_trans; [apply replace_spaces_shorter|].
    repeat (eapply Nat.le_trans; [apply replace_erases_shorter|]).
    apply le_n.
  - assert (F : Forall (fun c => c = " "%char \/ In c title)
                  (MatchingUtils.cleanConferenceTitle title)).
    { apply cleanConferenceTitle_Forall; [left; reflexivity|].
      apply Forall_forall. intros c I. right; exact I. }
    rewrite Forall_forall in F. exact F.
  - unfold MatchingUtils.cleanConferenceTitle. rewrite replace_spaces.
    pose proof (trim_Forall (fun c => is_space c = true -> c = " "%char) _
                  (squeeze_spaces false
                     (replace MatchingUtils.re_trailing_code ""
                       (replace MatchingUtils.re_annual ""
                         (replace MatchingUtils.re_ordinal ""
                           (replace MatchingUtils.re_year ""
                             (replace MatchingUtils.re_code_year_prefix ""
                               (replace MatchingUtils.re_proceedings "" title)))))))) as F.
    rewrite Forall_forall in F. exact F.
  - unfold MatchingUtils.cleanConferenceTitle. apply trim_idem.
  - reflexivity.
Qed.

(** ** Word overlap of the conference matcher *)

Section MoreOverlap.
Import MatchingUtils Tables.

Lemma ge_div_four_fifths m n :
  0 < n -> ge (div m n) (8 # 10) = true <-> 4 * n <= 5 * m.
Proof.
  intros H. destruct n as [|n]; [lia|].
  cbn [div ge]. rewrite Qle_bool_iff. unfold Qle. cbn [Qnum Qden].
  replace (Z.pos (Pos.of_nat (S n))) with (Z.of_nat (S n)); [lia|].
  rewrite <- Pos.of_nat_succ, Znat.Zpos_P_of_succ_nat. lia.
Qed.

Lemma countMatches_more ws extra vs :
  countMatches ws vs <= countMatches (ws ++ extra) vs.
Proof.
  induction vs as [|v vs IH]; [apply le_n|].
  cbn [countMatches]. unfold arrayIncludes. rewrite existsb_app.
  destruct (existsb (str_eqb v) ws); cbn [orb]; [lia|].
  destruct (existsb (str_eqb v) extra); lia.
Qed.

End MoreOverlap.

(** X23.  The word-overlap strategy of [matchCoreConference] accepts a
    CORE title exactly when it has at least four words of more than three
    letters and at least four fifths of them occur among such words of the
    title; the share of the title's words that are matched is not looked
    at, so further words in the title never lose a match.  The strategy
    returns the rank of the first entry it accepts. *)
Theorem core_word_overlap_acceptance
    (coreRankings : MatchingUtils.CoreTable) (normalizedZotero normalizedCore : str) :
  let zoteroWords := MatchingUtils.significantWords normalizedZotero in
  let coreWords := MatchingUtils.significantWords normalizedCore in
  let m := MatchingUtils.countMatches zoteroWords coreWords in
  (MatchingUtils.coreOverlapAccepts zoteroWords normalizedCore = true <->
   4 <= length coreWords /\ 4 * length coreWords <= 5 * m) /\
  (MatchingUtils.coreOverlapAccepts zoteroWords normalizedCore = true <->
   4 <= length coreWords /\ (8 # 10 <= Tables.ratio m (length coreWords))%Q) /\
  m <= length coreWords /\
  (forall extra,
     MatchingUtils.coreOverlapAccepts zoteroWords normalizedCore = true ->
     MatchingUtils.coreOverlapAccepts (zoteroWords ++ extra) normalizedCore = true) /\
  MatchingUtils.coreWordOverlap coreRankings normalizedZotero
  = Returned (option_map (fun te => MatchingUtils.rank (snd te))
      (Tables.firstPair
         (fun k _ => MatchingUtils.coreOverlapAccepts zoteroWords
                       (MatchingUtils.normalizeString k))
         coreRankings)).
Proof.
  intros zoteroWords coreWords m.
  assert (A : forall ws,
    MatchingUtils.coreOverlapAccepts ws normalizedCore = true <->
    4 <= length coreWords /\
    4 * length coreWords <= 5 * MatchingUtils.countMatches ws coreWords).
  { intros ws. unfold MatchingUtils.coreOverlapAccepts. fold coreWords.
    rewrite andb_true_iff, Nat.leb_le. split.
    - intros [L G]. split; [exact L|]. apply ge_div_four_fifths in G; [exact G|lia].
    - intros [L G]. split; [exact L|]. apply ge_div_four_fifths; [lia|exact G]. }
  pose proof (countMatches_le zoteroWords coreWords) as Le. fold m in Le.
  split; [apply A|]. split; [|split; [exact Le|split]].
  - unfold MatchingUtils.coreOverlapAccepts. fold coreWords. fold m.
    rewrite andb_true_iff, Nat.leb_le, ge_div_ratio; [tauto|reflexivity|lia].
  - intros extra H. apply A in H as [L G]. apply A. split; [exact L|].
    pose proof (countMatches_more zoteroWords extra coreWords). fold m in G. lia.
  - unfold MatchingUtils.coreWordOverlap. fold zoteroWords.
    exact (forIn_test _ _
             (fun k _ => MatchingUtils.coreOverlapAccepts zoteroWords
                           (MatchingUtils.normalizeString k))
             (fun _ e => MatchingUtils.rank e) coreRankings).
Qed.
